(** * ets_fiber_assigner: the assignment kernel of [ets_demo.cc]

    A shallow embedding of the fiber-assignment demo of the Subaru PFS
    exposure targeting software, and the properties of its kernel.

    Modelling conventions.
    - [size_t] values are [nat], [int] values are [Z].
    - [double] values are exact rationals ([Q]): every arithmetic
      operation is the exact one, so rounding, infinities and NaN are not
      part of the model.  The conversion [int(d)] of a double is the
      truncation towards zero; the conversion of a value outside the range
      of [int] (undefined in C++) is not modelled.
    - [std::vector] is [list], read with the total lookup [l !!! i] and
      written with [<[i:=x]> l]; an access outside the vector is undefined
      in the source, the model reads the default value and writes nothing.
    - A failed [planck_assert] and an undefined library call make a function
      return [None]. *)

From Stdlib Require Import ZArith QArith Qpower Qminmax Qround Lqa Lia ZifyNat.
From stdpp Require Import base tactics option numbers list.


(** ** Numbers *)

(** [a < b] on doubles. *)
Definition Qlt_bool (a b : Q) : bool := negb (Qle_bool b a).

(** [int(d)]: truncation towards zero. *)
Definition Qtrunc (d : Q) : Z := (Qnum d ÷ Zpos (Qden d))%Z.

(** A loop body that may fail, run over the elements of a vector. *)
Fixpoint foldM {A B : Type} (f : B → A → option B) (l : list A) (b : B)
  : option B :=
  match l with
  | [] => Some b
  | a :: l' => match f b a with Some b' => foldM f l' b' | None => None end
  end.

(** [v.empty()] *)
Definition is_empty {A : Type} (v : list A) : bool :=
  match v with [] => true | _ :: _ => false end.

(** ** Geometry primitives *)

(** [class vec2] *)
Record vec2 := Vec2 { vec2_x : Q; vec2_y : Q }.

#[global] Instance vec2_inhabited : Inhabited vec2 := populate (Vec2 0 0).

Definition dsq (a b : vec2) : Q :=
  ((vec2_x a - vec2_x b) * (vec2_x a - vec2_x b)
   + (vec2_y a - vec2_y b) * (vec2_y a - vec2_y b))%Q.

(** [void rotate (vec2 &pos, double sa, double ca)] *)
Definition rotate (pos : vec2) (sa ca : Q) : vec2 :=
  Vec2 (ca * vec2_x pos - sa * vec2_y pos) (sa * vec2_x pos + ca * vec2_y pos).

(** [class Target] *)
Record Target := mkTarget {
  tgt_pos : vec2;
  tgt_time : Q;
  tgt_pri : Z;
  tgt_id : Z
}.

#[global] Instance Target_inhabited : Inhabited Target :=
  populate (mkTarget inhabitant 0 0 0).

(** ** Constants *)

Definition nfiber : nat := 3 * 57 * 14.
Definition rmax : Q := 4.75.
Definition r_kernel : Q := 4.75.
Definition dotdist : Q := 1.375.
Definition colldist : Q := 2.

(** ** Spatial index ([class fpraster]) *)

Record fpraster := mkFpraster {
  fr_x0 : Q; fr_y0 : Q; fr_x1 : Q; fr_y1 : Q; fr_idx : Q; fr_idy : Q;
  fr_nx : nat; fr_ny : nat;
  fr_data : list (list nat);
  fr_loc : list vec2
}.

Definition clamp_index (n : nat) (d : Q) : nat :=
  Z.to_nat (Z.max 0 (Z.min (Z.of_nat n - 1) (Qtrunc d))).

Definition indexx (r : fpraster) (x : Q) : nat :=
  clamp_index (fr_nx r) ((x - fr_x0 r) * fr_idx r).

Definition indexy (r : fpraster) (y : Q) : nat :=
  clamp_index (fr_ny r) ((y - fr_y0 r) * fr_idy r).

Definition index (r : fpraster) (p : vec2) : nat :=
  indexx r (vec2_x p) + fr_nx r * indexy r (vec2_y p).

(** The bounding box of the constructor's first loop, as
    [(x0, x1, y0, y1)]. *)
Definition bbox_step (b : Q * Q * Q * Q) (p : vec2) : Q * Q * Q * Q :=
  let '(x0, x1, y0, y1) := b in
  (Qmin x0 (vec2_x p), Qmax x1 (vec2_x p),
   Qmin y0 (vec2_y p), Qmax y1 (vec2_y p)).

Definition set_data (r : fpraster) (d : list (list nat)) : fpraster :=
  mkFpraster (fr_x0 r) (fr_y0 r) (fr_x1 r) (fr_y1 r) (fr_idx r) (fr_idy r)
             (fr_nx r) (fr_ny r) d (fr_loc r).

(** The constructor's last loop: [data[index(loc[i])].push_back(i)]. *)
Definition bucket_step (r : fpraster) (d : list (list nat)) (i : nat)
  : list (list nat) :=
  alter (λ cell, cell ++ [i]) (index r (fr_loc r !!! i)) d.

(** [fpraster (const vector<vec2> &loc_, size_t nx_, size_t ny_)] *)
Definition fpraster_new (loc_ : list vec2) (nx_ ny_ : nat) : option fpraster :=
  if negb ((0 <? nx_) && (0 <? ny_)) then None
  else match loc_ with
  | [] => None
  | p0 :: rest =>
    let '(x0, x1, y0, y1) :=
      fold_left bbox_step rest (vec2_x p0, vec2_x p0, vec2_y p0, vec2_y p0) in
    let x1 := if Qeq_bool x0 x1 then (x1 + 1e-9)%Q else x1 in
    let y1 := if Qeq_bool y0 y1 then (y1 + 1e-9)%Q else y1 in
    let r0 := mkFpraster x0 y0 x1 y1
                (inject_Z (Z.of_nat nx_) / (x1 - x0))
                (inject_Z (Z.of_nat ny_) / (y1 - y0))
                nx_ ny_ (replicate (nx_ * ny_) []) loc_ in
    Some (set_data r0
            (fold_left (bucket_step r0) (seq 0 (length loc_)) (fr_data r0)))
  end.

(** The guard shared by [query] and [anyIn]. *)
Definition outside (r : fpraster) (center : vec2) (rad : Q) : bool :=
  Qlt_bool (vec2_x center) (fr_x0 r - rad)
  || Qlt_bool (fr_x1 r + rad) (vec2_x center)
  || Qlt_bool (vec2_y center) (fr_y0 r - rad)
  || Qlt_bool (fr_y1 r + rad) (vec2_y center).

(** The cells visited by the two outer loops of [query] and [anyIn], in
    the order of the visit. *)
Definition cells (r : fpraster) (center : vec2) (rad : Q) : list nat :=
  let i0 := indexx r (vec2_x center - rad) in
  let i1 := indexx r (vec2_x center + rad) in
  let j0 := indexy r (vec2_y center - rad) in
  let j1 := indexy r (vec2_y center + rad) in
  j ← seq j0 (S j1 - j0); i ← seq i0 (S i1 - i0); [i + fr_nx r * j].

Definition in_circle (r : fpraster) (center : vec2) (rsq : Q) (k : nat) : bool :=
  Qle_bool (dsq center (fr_loc r !!! k)) rsq.

(** [vector<size_t> query(const vec2 &center, double rad) const] *)
Definition query (r : fpraster) (center : vec2) (rad : Q) : list nat :=
  if outside r center rad then []
  else
    let rsq := (rad * rad)%Q in
    c ← cells r center rad;
    filter (λ k, in_circle r center rsq k) (fr_data r !!! c).

(** [bool anyIn (const vec2 &center, double rad) const] *)
Definition anyIn (r : fpraster) (center : vec2) (rad : Q) : bool :=
  if outside r center rad then false
  else
    let rsq := (rad * rad)%Q in
    existsb (λ c, existsb (in_circle r center rsq) (fr_data r !!! c))
            (cells r center rad).

(** ** Mutable priority queue ([template class pqueue]) *)

Section pqueue.
Context {T : Type} `{!Inhabited T}.
(** The comparator [comp]; [std::less<T>] by default. *)
Variable comp : T → T → bool.

Record node_t := mkNode { node_pri : T; node_pos : nat }.

#[global] Instance node_t_inhabited : Inhabited node_t :=
  populate (mkNode inhabitant 0).

Record pqueue := mkPqueue { pq_nodes : list node_t; pq_idx : list nat }.

(** [nodes[idx[k]].pri], the priority stored at heap position [k]. *)
Definition key (q : pqueue) (k : nat) : T :=
  node_pri (pq_nodes q !!! (pq_idx q !!! k)).

Definition set_pos (i : nat) (nd : node_t) : node_t := mkNode (node_pri nd) i.
Definition set_pri (p : T) (nd : node_t) : node_t := mkNode p (node_pos nd).

(** [idx[i] = node; nodes[idx[i]].pos = i;] *)
Definition place (q : pqueue) (i node : nat) : pqueue :=
  let idx' := <[i := node]> (pq_idx q) in
  mkPqueue (alter (set_pos i) (idx' !!! i) (pq_nodes q)) idx'.

(** The loop of [sift_up]; it runs at most [i] times. *)
Fixpoint sift_up_loop (fuel : nat) (moving_pri : T) (q : pqueue) (i : nat)
  : pqueue * nat :=
  match fuel with
  | 0 => (q, i)
  | S fuel' =>
    let parent_node := i / 2 in
    if (1 <? i) && comp (key q parent_node) moving_pri
    then sift_up_loop fuel' moving_pri
           (place q i (pq_idx q !!! parent_node)) parent_node
    else (q, i)
  end.

(** [void sift_up (size_t i)] *)
Definition sift_up (q : pqueue) (i : nat) : pqueue :=
  let moving_node := pq_idx q !!! i in
  let moving_pri := node_pri (pq_nodes q !!! moving_node) in
  let '(q', i') := sift_up_loop i moving_pri q i in
  place q' i' moving_node.

(** [size_t maxchild(size_t i) const] *)
Definition maxchild (q : pqueue) (i : nat) : nat :=
  let child_node := 2 * i in
  if length (pq_idx q) <=? child_node then 0
  else if (child_node + 1 <? length (pq_idx q))
          && comp (key q child_node) (key q (child_node + 1))
       then child_node + 1
       else child_node.

(** The loop of [sift_down]; it runs at most [idx.size()] times. *)
Fixpoint sift_down_loop (fuel : nat) (moving_pri : T) (q : pqueue) (i : nat)
  : pqueue * nat :=
  match fuel with
  | 0 => (q, i)
  | S fuel' =>
    let child_node := maxchild q i in
    if negb (child_node =? 0) && comp moving_pri (key q child_node)
    then sift_down_loop fuel' moving_pri
           (place q i (pq_idx q !!! child_node)) child_node
    else (q, i)
  end.

(** [void sift_down(size_t i)] *)
Definition sift_down (q : pqueue) (i : nat) : pqueue :=
  let moving_node := pq_idx q !!! i in
  let moving_pri := node_pri (pq_nodes q !!! moving_node) in
  let '(q', i') := sift_down_loop (length (pq_idx q)) moving_pri q i in
  place q' i' moving_node.

(** [void heapify()]: [sift_down(i)] for [i] from [idx.size()>>1] down
    to 1. *)
Definition heapify (q : pqueue) : pqueue :=
  let startnode := length (pq_idx q) / 2 in
  fold_left sift_down (rev (seq 1 startnode)) q.

(** [pqueue (const vector<T> &pri)] *)
Definition pqueue_new (pri : list T) : pqueue :=
  heapify (mkPqueue (imap (λ i p, mkNode p (i + 1)) pri)
                    (0 :: seq 0 (length pri))).

(** [void set_priority(T new_pri, size_t pos)] *)
Definition set_priority (q : pqueue) (new_pri : T) (pos : nat) : pqueue :=
  let old_pri := node_pri (pq_nodes q !!! pos) in
  let q1 := mkPqueue (alter (set_pri new_pri) pos (pq_nodes q)) (pq_idx q) in
  let posn := node_pos (pq_nodes q1 !!! pos) in
  if comp old_pri new_pri then sift_up q1 posn else sift_down q1 posn.

(** [T priority(size_t pos) const] *)
Definition priority (q : pqueue) (pos : nat) : T :=
  node_pri (pq_nodes q !!! pos).

(** [T top_priority() const] *)
Definition top_priority (q : pqueue) : T :=
  node_pri (pq_nodes q !!! (pq_idx q !!! 1)).

(** [size_t top() const] *)
Definition top (q : pqueue) : nat := pq_idx q !!! 1.
End pqueue.

Arguments node_t : clear implicits.
Arguments pqueue : clear implicits.

(** ** Fiber geometry *)

(** The value of [sqrt(0.75)] as a double. *)
Definition vspace : Q := 3900231685776981 # 4503599627370496.

(** [vec2 id2fiberpos(int id)] *)
Definition id2fiberpos (id : Z) : vec2 :=
  let field := (id ÷ (57 * 14))%Z in
  let id := (id - field * 57 * 14)%Z in
  let module := (id ÷ 57)%Z in
  let cobra := (id - module * 57)%Z in
  let res :=
    Vec2 (- vspace * (1 + inject_Z (2 * module + Z.land cobra 1)))
         (0.5 + inject_Z module - 0.5 * inject_Z cobra) in
  let res := if (field =? 1)%Z then rotate res (- vspace) (-0.5) else res in
  let res := if (field =? 2)%Z then rotate res vspace (-0.5) else res in
  Vec2 (vec2_x res * 8) (vec2_y res * 8).

(** [vec2 id2dotpos(int id)] *)
Definition id2dotpos (id : Z) : vec2 :=
  let res := id2fiberpos id in
  Vec2 (vec2_x res) (vec2_y res + 1.19).

(** ** Reachability mappings *)

(** [inline void stripout (vector<size_t> &v, size_t val)].
    [std::remove] moves the entries different from [val] to the front and
    leaves the tail as it was; the one-iterator [erase] then deletes the
    single entry at the new end.  With no occurrence of [val] that iterator
    is [v.end()], whose erasure is undefined. *)
Definition stripout (v : list nat) (val : nat) : option (list nat) :=
  let s1 := length v in
  let kept := filter (λ x, x ≠ val) v in
  if length kept =? length v then None
  else
    let v' := kept ++ drop (S (length kept)) v in
    if length v' + 1 =? s1 then Some v' else None.

(** [fpraster tgt2raster (const vector<Target> &tgt, int nx, int ny)] *)
Definition tgt2raster (tgt : list Target) (nx ny : nat) : option fpraster :=
  fpraster_new (tgt_pos <$> tgt) nx ny.

(** The targets a fiber reaches: the first loop body of [calcMappings]. *)
Definition reachable_targets (tgt : list Target) (raster : fpraster) (i : nat)
  : list nat :=
  let fp := id2fiberpos (Z.of_nat i) in
  let dp := id2dotpos (Z.of_nat i) in
  filter (λ j, Qle_bool (dotdist * dotdist) (dsq dp (tgt_pos (tgt !!! j))))
         (query raster fp rmax).

(** [t2f[t].push_back(i)] for every [t] of [f2t[i]]. *)
Definition invert_step (f2t : list (list nat)) (t2f : list (list nat)) (i : nat)
  : list (list nat) :=
  fold_left (λ t2f t, alter (λ v, v ++ [i]) t t2f) (f2t !!! i) t2f.

(** [void calcMappings (...)], returning [(f2t, t2f)]. *)
Definition calcMappings (tgt : list Target) (raster : fpraster)
  : list (list nat) * list (list nat) :=
  let f2t := reachable_targets tgt raster <$> seq 0 nfiber in
  let t2f :=
    fold_left (invert_step f2t) (seq 0 (length f2t))
              (replicate (length tgt) []) in
  (f2t, t2f).

Section cleanup.
(** The removal primitive of the two loops, [stripout] in the source. *)
Variable remove_one : list nat → nat → option (list nat).

(** [for (auto k : keys) stripout(m[k], val);] *)
Definition strip_from (m : list (list nat)) (keys : list nat) (val : nat)
  : option (list (list nat)) :=
  foldM (λ m k, v' ← remove_one (m !!! k) val; Some (<[k := v']> m)) keys m.

(** The second loop body of [cleanup]. *)
Definition block_target (st : list (list nat) * list (list nat)) (i : nat)
  : option (list (list nat) * list (list nat)) :=
  let '(f2t, t2f) := st in
  f2t' ← strip_from f2t (t2f !!! i) i;
  Some (f2t', <[i := []]> t2f).

Definition cleanup_with (tgt : list Target) (raster : fpraster)
    (f2t t2f : list (list nat)) (fiber itgt : nat)
  : option (list (list nat) * list (list nat)) :=
  t2f1 ← strip_from t2f (f2t !!! fiber) fiber;
  let f2t1 := <[fiber := []]> f2t in
  let tmp := query raster (tgt_pos (tgt !!! itgt)) colldist in
  foldM block_target tmp (f2t1, t2f1).
End cleanup.

(** [void cleanup (...)], returning the new [(f2t, t2f)]. *)
Definition cleanup := cleanup_with stripout.

(** ** Density priorities of the New strategy *)

(** [inline double kernelfunc(double rsq)] *)
Definition kernelfunc (rsq : Q) : Q := Qmax 0 (r_kernel * r_kernel - rsq).

(** [struct pq_entry] *)
Record pq_entry := mkEntry { pe_prox : Q; pe_pri : Z }.

#[global] Instance pq_entry_inhabited : Inhabited pq_entry :=
  populate (mkEntry 0 0).

(** [bool pq_entry::operator< (const pq_entry &other) const] *)
Definition pq_entry_lt (a other : pq_entry) : bool :=
  if negb (pe_pri a =? pe_pri other)%Z then (pe_pri other <? pe_pri a)%Z
  else Qlt_bool (pe_prox a) (pe_prox other).

(** [pri[i].prox += d] *)
Definition add_prox (pri : list pq_entry) (i : nat) (d : Q) : list pq_entry :=
  alter (λ e, mkEntry (pe_prox e + d) (pe_pri e)) i pri.

(** The body of the loop over the neighbours [j] of target [i] in
    [calc_pri]. *)
Definition calc_pri_ngb (tgt : list Target) (i : nat) (pri : list pq_entry)
    (j : nat) : list pq_entry :=
  let pri :=
    if i =? j
    then add_prox pri i
           (tgt_time (tgt !!! i) * tgt_time (tgt !!! i) * kernelfunc 0)
    else pri in
  if i <? j
  then
    let tmp := (tgt_time (tgt !!! i) * tgt_time (tgt !!! j)
                * kernelfunc (dsq (tgt_pos (tgt !!! i))
                                  (tgt_pos (tgt !!! j))))%Q in
    add_prox (add_prox pri i tmp) j tmp
  else pri.

(** The vector [pri] that [calc_pri] hands to the queue constructor. *)
Definition calc_pri_vec (tgt : list Target) (t2f : list (list nat))
    (raster : fpraster) : list pq_entry :=
  let pri0 := replicate (length tgt) (mkEntry 0 0) in
  let pri1 :=
    fold_left
      (λ pri i,
         if 0 <? length (t2f !!! i)
         then fold_left (calc_pri_ngb tgt i)
                        (query raster (tgt_pos (tgt !!! i)) r_kernel) pri
         else pri)
      (seq 0 (length tgt)) pri0 in
  fold_left
    (λ pri i, alter (λ e, mkEntry (pe_prox e) (tgt_pri (tgt !!! i))) i pri)
            (seq 0 (length tgt)) pri1.

(** [pqueue<pq_entry> calc_pri(...)] *)
Definition calc_pri (tgt : list Target) (t2f : list (list nat))
    (raster : fpraster) : pqueue pq_entry :=
  pqueue_new pq_entry_lt (calc_pri_vec tgt t2f raster).

(** [void fix_priority(...)], returning the updated queue. *)
Definition fix_priority (tgt : list Target) (t2f : list (list nat))
    (raster : fpraster) (itgt : nat) (pri : pqueue pq_entry)
  : pqueue pq_entry :=
  let ngb := query raster (tgt_pos (tgt !!! itgt)) r_kernel in
  fold_left
    (λ pri j,
       if negb (is_empty (t2f !!! j))
          || negb (Qeq_bool (pe_prox (priority pri j)) 0)
       then
         let tpri := priority pri j in
         let tpri :=
           mkEntry (pe_prox tpri
                    - tgt_time (tgt !!! j) * tgt_time (tgt !!! itgt)
                      * kernelfunc (dsq (tgt_pos (tgt !!! itgt))
                                        (tgt_pos (tgt !!! j))))
                   (pe_pri tpri) in
         set_priority pq_entry_lt pri tpri j
       else pri)
    ngb pri.

(** ** Assignment strategies *)

(** The loop body of [maxpri_in_fiber] on the state [(idx, maxpri)]. *)
Definition maxpri_step (tgt : list Target) (v : list nat) (st : nat * Z)
    (j : nat) : nat * Z :=
  let '(idx, maxpri) := st in
  if (tgt_pri (tgt !!! (v !!! idx)) <? maxpri)%Z
  then (j, tgt_pri (tgt !!! (v !!! idx)))
  else (idx, maxpri).

(** [int maxpri_in_fiber (size_t fiber, const vector<Target> &tgt,
    const vector<vector<size_t>> &f2t)] *)
Definition maxpri_in_fiber (fiber : nat) (tgt : list Target)
    (f2t : list (list nat)) : option nat :=
  let v := f2t !!! fiber in
  if is_empty v then None
  else
    let idx := 0 in
    let maxpri := tgt_pri (tgt !!! (v !!! idx)) in
    let '(idx, _) :=
      fold_left (maxpri_step tgt v) (seq 1 (length v - 1)) (idx, maxpri) in
    Some (v !!! idx).

(** The variables of an [assign] body: the mappings and the output vectors
    [tid] and [fid]. *)
Record assign_state := mkAssign {
  as_f2t : list (list nat);
  as_t2f : list (list nat);
  as_tid : list nat;
  as_fid : list nat
}.

(** [tid.push_back(itgt); fid.push_back(fiber); cleanup(...)] *)
Definition commit (tgt : list Target) (raster : fpraster) (st : assign_state)
    (fiber itgt : nat) : option assign_state :=
  '(f2t, t2f) ← cleanup tgt raster (as_f2t st) (as_t2f st) fiber itgt;
  Some (mkAssign f2t t2f (as_tid st ++ [itgt]) (as_fid st ++ [fiber])).

(** The state after [calcMappings] in each [assign]. *)
Definition assign_init (tgt : list Target) (raster : fpraster) : assign_state :=
  let '(f2t, t2f) := calcMappings tgt raster in
  mkAssign f2t t2f [] [].

(** The loop body of [NaiveAssigner::assign]. *)
Definition naive_step (tgt : list Target) (raster : fpraster)
    (st : assign_state) (fiber : nat) : option assign_state :=
  if is_empty (as_f2t st !!! fiber) then Some st
  else
    itgt ← maxpri_in_fiber fiber tgt (as_f2t st);
    commit tgt raster st fiber itgt.

(** [NaiveAssigner::assign], returning [(tid, fid)]. *)
Definition NaiveAssigner_assign (tgt : list Target)
  : option (list nat * list nat) :=
  raster ← tgt2raster tgt 100 100;
  let st := assign_init tgt raster in
  st' ← foldM (naive_step tgt raster) (seq 0 (length (as_f2t st))) st;
  Some (as_tid st', as_fid st').

(** The search loop of [DrainingAssigner::assign] for the fiber with the
    fewest targets, as [(fiber, mintgt)]. *)
Definition min_fiber (f2t : list (list nat)) (maxtgt : nat) : Z * nat :=
  fold_left
    (λ '(fiber, mintgt) i,
       if (length (f2t !!! i) <? mintgt) && (0 <? length (f2t !!! i))
       then (Z.of_nat i, length (f2t !!! i))
       else (fiber, mintgt))
    (seq 0 (length f2t)) ((-1)%Z, maxtgt + 1).

(** The [while (true)] loop of [DrainingAssigner::assign]; [None] also
    when [fuel] iterations do not reach the [break]. *)
Fixpoint draining_loop (fuel : nat) (tgt : list Target) (raster : fpraster)
    (maxtgt : nat) (st : assign_state) : option assign_state :=
  match fuel with
  | 0 => None
  | S fuel' =>
    let '(fiber, _) := min_fiber (as_f2t st) maxtgt in
    if (fiber =? -1)%Z then Some st
    else
      itgt ← maxpri_in_fiber (Z.to_nat fiber) tgt (as_f2t st);
      st' ← commit tgt raster st (Z.to_nat fiber) itgt;
      draining_loop fuel' tgt raster maxtgt st'
  end.

(** [DrainingAssigner::assign], returning [(tid, fid)].  Every iteration
    but the last empties one fiber, so [nfiber + 1] iterations are
    enough. *)
Definition DrainingAssigner_assign (tgt : list Target)
  : option (list nat * list nat) :=
  raster ← tgt2raster tgt 100 100;
  let st := assign_init tgt raster in
  let maxtgt := fold_left (λ m f, Nat.max m (length f)) (as_f2t st) 0 in
  st' ← draining_loop (nfiber + 1) tgt raster maxtgt st;
  Some (as_tid st', as_fid st').

(** [(1<<30)], the priority of an exhausted target. *)
Definition sentinel : Z := Z.shiftl 1 30.

(** The search of [NewAssigner::assign] for the fiber of [t2f[itgt]] with
    the fewest targets, as [(ifib, mintgt)]. *)
Definition min_fiber_of (f2t : list (list nat)) (fibers : list nat)
  : nat * nat :=
  fold_left
    (λ '(ifib, mintgt) i,
       if length (f2t !!! (fibers !!! i)) <? mintgt
       then (i, length (f2t !!! (fibers !!! i)))
       else (ifib, mintgt))
    (seq 1 (length fibers - 1)) (0, length (f2t !!! (fibers !!! 0))).

(** The [while (true)] loop of [NewAssigner::assign]; [None] also when
    [fuel] iterations do not reach the [break]. *)
Fixpoint new_loop (fuel : nat) (tgt : list Target) (raster : fpraster)
    (pri : pqueue pq_entry) (st : assign_state) : option assign_state :=
  match fuel with
  | 0 => None
  | S fuel' =>
    if (pe_pri (top_priority pri) =? sentinel)%Z then Some st
    else
      let itgt := top pri in
      if is_empty (as_t2f st !!! itgt)
      then new_loop fuel' tgt raster
             (set_priority pq_entry_lt pri (mkEntry 0 sentinel) itgt) st
      else
        let '(ifib, _) := min_fiber_of (as_f2t st) (as_t2f st !!! itgt) in
        let fiber := (as_t2f st !!! itgt) !!! ifib in
        st' ← commit tgt raster st fiber itgt;
        new_loop fuel' tgt raster
                 (fix_priority tgt (as_t2f st') raster itgt pri) st'
  end.

(** [NewAssigner::assign], returning [(tid, fid)].  Every iteration but
    the last either commits a target or marks one as exhausted, so
    [2 * tgt.size() + 1] iterations are enough. *)
Definition NewAssigner_assign (tgt : list Target)
  : option (list nat * list nat) :=
  raster ← tgt2raster tgt 100 100;
  let st := assign_init tgt raster in
  let pri := calc_pri tgt (as_t2f st) raster in
  st' ← new_loop (2 * length tgt + 1) tgt raster pri st;
  Some (as_tid st', as_fid st').

(** The three implementations of [FiberAssigner]. *)
Inductive assigner := Naive | Draining | New.

Definition assign (a : assigner) (tgt : list Target)
  : option (list nat * list nat) :=
  match a with
  | Naive => NaiveAssigner_assign tgt
  | Draining => DrainingAssigner_assign tgt
  | New => NewAssigner_assign tgt
  end.

(** ** Focal-plane projection and exposures *)

Local Open Scope Q_scope.

(** [class pointing] and [class vec3] of the support library. *)
Record pointing := mkPointing { theta : Q; phi : Q }.
Record vec3 := Vec3 { vec3_x : Q; vec3_y : Q; vec3_z : Q }.

Definition dotprod (a b : vec3) : Q :=
  vec3_x a * vec3_x b + vec3_y a * vec3_y b + vec3_z a * vec3_z b.
Definition crossprod (a b : vec3) : vec3 :=
  Vec3 (vec3_y a * vec3_z b - vec3_z a * vec3_y b)
       (vec3_z a * vec3_x b - vec3_x a * vec3_z b)
       (vec3_x a * vec3_y b - vec3_y a * vec3_x b).
Definition vec3_sub (a b : vec3) : vec3 :=
  Vec3 (vec3_x a - vec3_x b) (vec3_y a - vec3_y b) (vec3_z a - vec3_z b).
Definition vec3_scale (a : vec3) (f : Q) : vec3 :=
  Vec3 (vec3_x a * f) (vec3_y a * f) (vec3_z a * f).

(** The radial distortion of [targetToPFI], applied to the rotated
    tangent-plane angles. *)
Definition distort (pnew : vec2) : vec2 :=
  let a0 := 0 in
  let a1 := -3.2e2 in
  let a2 := -1.37e1 in
  let a3 := -7.45e0 in
  let rsq := vec2_x pnew * vec2_x pnew + vec2_y pnew * vec2_y pnew in
  Vec2 ((a3 * rsq * rsq + a2 * rsq + a1) * vec2_x pnew + a0)
       ((- a3 * rsq * rsq - a2 * rsq - a1) * vec2_y pnew + a0).

(** [void strip (vector<Target> &tgt, const vector<size_t> &remove,
    double time)], returning the new [tgt]. *)
Definition strip_step (tgt : list Target) (obs : list bool) (time : Q)
    (t2 : list Target) (i : nat) : list Target :=
  if negb (obs !!! i) then t2 ++ [tgt !!! i]
  else if Qlt_bool (time + 1e-7) (tgt_time (tgt !!! i))
       then t2 ++ [mkTarget (tgt_pos (tgt !!! i)) (tgt_time (tgt !!! i) - time)
                            (tgt_pri (tgt !!! i)) (tgt_id (tgt !!! i))]
       else t2.

Definition strip (tgt : list Target) (remove : list nat) (time : Q)
  : list Target :=
  let obs :=
    fold_left (λ obs r, <[r := true]> obs) remove
              (replicate (length tgt) false) in
  fold_left (strip_step tgt obs time) (seq 0 (length obs)) [].

(** [vector<size_t> select_observable (const vector<Target> &tgt,
    double safety)] *)
Definition select_observable (tgt : list Target) (safety : Q)
  : option (list nat) :=
  let fpos := (λ i, id2fiberpos (Z.of_nat i)) <$> seq 0 nfiber in
  raster ← fpraster_new fpos 100 100;
  Some (filter (λ i, anyIn raster (tgt_pos (tgt !!! i)) (rmax + safety))
               (seq 0 (length tgt))).

(** One line of the exposure report. *)
Record exposure := mkExposure {
  ex_time : Q;
  ex_center : pointing;
  ex_posang : Q;
  ex_tid : list nat;
  ex_fid : list nat
}.

(** The variables of the loop of [subprocess]. *)
Record driver_state := mkDriver {
  ds_tgt1 : list Target;
  ds_acc : Q;
  ds_time2 : Q;
  ds_cnt : nat
}.

(** The exposure time of [subprocess]: the smallest [time] of the assigned
    targets. *)
Definition exposure_time (tgt1 : list Target) (tidmax : list nat) : Q :=
  fold_left
    (λ time i,
       if Qlt_bool (tgt_time (tgt1 !!! i)) time
       then tgt_time (tgt1 !!! i) else time)
    tidmax (tgt_time (tgt1 !!! (tidmax !!! 0%nat))).

(** The body of the loop of [subprocess] after the call of
    [optimal_exposure], which returned [(center, posang, tidmax, fidmax)]:
    the exposure it reports, if any, whether the loop goes on ([false]
    after a [break]), and the variables at the end of the body. *)
Definition subprocess_step (fract ttime : Q) (s : driver_state)
    (opt : pointing * Q * list nat * list nat)
  : option exposure * bool * driver_state :=
  let '(center, posang, tidmax, fidmax) := opt in
  if is_empty tidmax then (None, false, s)
  else
    let time := exposure_time (ds_tgt1 s) tidmax in
    let time2 := ds_time2 s + time in
    let acc := ds_acc s + inject_Z (Z.of_nat (length tidmax)) * time in
    let e := mkExposure time center posang tidmax fidmax in
    if Qlt_bool fract (acc / ttime)
    then (Some e, false, mkDriver (ds_tgt1 s) acc time2 (ds_cnt s + 1)%nat)
    else (Some e, true,
          mkDriver (strip (ds_tgt1 s) tidmax time) acc time2
                   (ds_cnt s + 1)%nat).

Section exposures.
(** The mathematical library and the conversions between [pointing] and
    [vec3] of the support library. *)
Variables (cos sin : Q → Q) (atan2 : Q → Q → Q).
Variables (degr2rad rad2degr : Q).
Variable vec3_of_pointing : pointing → vec3.
Variable pointing_of_vec3 : vec3 → pointing.
Variable Norm : vec3 → vec3.

(** [inline pointing radec2ptg (double ra, double dec)] *)
Definition radec2ptg (ra dec : Q) : pointing :=
  mkPointing ((90 - dec) * degr2rad) (ra * degr2rad).

(** The tangent-plane angles [pnew] of a target before the rotation. *)
Definition tangent_angles (x y z : vec3) (t : Target) : vec2 :=
  let pos := vec3_of_pointing
               (radec2ptg (vec2_x (tgt_pos t)) (vec2_y (tgt_pos t))) in
  let xp := vec3_sub pos (vec3_scale y (dotprod pos y)) in
  let yp := vec3_sub pos (vec3_scale x (dotprod pos x)) in
  Vec2 (atan2 (dotprod xp x) (dotprod xp z) * rad2degr)
       (atan2 (dotprod yp y) (dotprod yp z) * rad2degr).

(** [void targetToPFI(vector<Target> &tgt, const pointing &los,
    double psi, double)], returning the new [tgt]. *)
Definition targetToPFI (tgt : list Target) (los : pointing) (psi : Q)
    (elevation : Q) : list Target :=
  let z := vec3_of_pointing los in
  let sky := Vec3 0 0 1 in
  let x := Norm (vec3_sub sky (vec3_scale z (dotprod z sky))) in
  let y := crossprod z x in
  let cpsi := cos psi in
  let spsi := sin psi in
  (λ t,
     let pnew := tangent_angles x y z t in
     let pnew := rotate pnew cpsi spsi in
     mkTarget (distort pnew) (tgt_time t) (tgt_pri t) (tgt_id t)) <$> tgt.

(** The strategy in use, [const FiberAssigner &ass]. *)
Variable ass : list Target → option (list nat * list nat).

(** [void single_exposure(...)], returning [(tid, fid)]. *)
Definition single_exposure (tgt : list Target) (center : pointing)
    (posang elevation : Q) : option (list nat * list nat) :=
  let tgt1 := targetToPFI tgt center posang elevation in
  match select_observable tgt1 r_kernel with
  | None => None
  | Some idx =>
    let tgt2 := (λ i, tgt1 !!! i) <$> idx in
    match (if is_empty tgt2 then Some ([], []) else ass tgt2) with
    | None => None
    | Some (tid, fid) => Some ((λ t, idx !!! t) <$> tid, fid)
    end
  end.






End exposures.

Local Close Scope Q_scope.

(** ** The top-level driver and the calendar helpers *)

Local Open Scope Q_scope.

Section process.
Variables (cos sin : Q → Q) (atan2 : Q → Q → Q).
Variables (degr2rad rad2degr : Q).
Variable vec3_of_pointing : pointing → vec3.
Variable pointing_of_vec3 : vec3 → pointing.
Variable Norm : vec3 → vec3.
Variable ass : list Target → option (list nat * list nat).

(** The block of [process] that keeps, with their sky coordinates, the
    targets whose projection is on the plate. *)
Definition on_plate (tgt : list Target) (center : pointing) (posang : Q)
  : list Target :=
  let elevation := 0 in
  let tmp := targetToPFI cos sin atan2 degr2rad rad2degr vec3_of_pointing
                         Norm tgt center posang elevation in
  (λ i, tgt !!! i)
    <$> filter (λ i, Qlt_bool (dsq (tgt_pos (tmp !!! i)) (Vec2 0 0))
                              (190 * 190))
               (seq 0 (length tmp)).

End process.

(** [double greg2julian (int y, int m, int d)] *)
Definition greg2julian (y m d : Z) : Q :=
  let '(y, m) := if (m <=? 2)%Z then (y - 1, m + 12)%Z else (y, m) in
  let a := (y ÷ 100)%Z in
  let b := (a ÷ 4)%Z in
  let c := (2 - a + b)%Z in
  let e := Qtrunc (365.25 * inject_Z (y + 4716)) in
  let f := Qtrunc (30.6001 * inject_Z (m + 1)) in
  inject_Z (c + d + e + f) - 1524.5.

(** [void julian2greg (double jd, int *year, int *month, int *day)],
    returning [(year, month, day)].  For a month number above 12 the
    source moves the pointer [month] itself ([month-=12]) and reads through
    it afterwards, which is undefined. *)
Definition julian2greg (jd : Q) : option (Z * Z * Z) :=
  let q := jd + 0.5 in
  let z := Qtrunc q in
  let w := Qtrunc ((inject_Z z - 1867216.25) / 36524.25) in
  let x := (w ÷ 4)%Z in
  let a := (z + 1 + w - x)%Z in
  let b := (a + 1524)%Z in
  let c := Qtrunc ((inject_Z b - 122.1) / 365.25) in
  let d := Qtrunc (365.25 * inject_Z c) in
  let e := Qtrunc (inject_Z (b - d) / 30.6001) in
  let f := Qtrunc (30.6001 * inject_Z e) in
  let day := Qtrunc (inject_Z (b - d - f) + (q - inject_Z z)) in
  let month := (e - 1)%Z in
  if (12 <? month)%Z then None
  else
    let year := (c - 4716)%Z in
    let year := if (month <=? 2)%Z then (year + 1)%Z else year in
    Some (year, month, day).

(** [template<size_t n> double poly (double x, const array<double, n> &c)],
    with the loop state [(res, v)]. *)
Definition poly (x : Q) (c : list Q) : Q :=
  (fold_left (λ '(res, v) ci, (res + ci * v, v * x)) c (0, 1)).1.

Local Close Scope Q_scope.

(** * Specification predicates *)

(** ** Spatial index *)

(** What the constructor of [fpraster] establishes. *)
Record raster_ok (r : fpraster) : Prop := {
  rok_nx : 0 < fr_nx r;
  rok_ny : 0 < fr_ny r;
  rok_idx : (0 <= fr_idx r)%Q;
  rok_idy : (0 <= fr_idy r)%Q;
  rok_size : length (fr_data r) = fr_nx r * fr_ny r;
  rok_box : ∀ k, k < length (fr_loc r) →
    (fr_x0 r <= vec2_x (fr_loc r !!! k))%Q ∧
    (vec2_x (fr_loc r !!! k) <= fr_x1 r)%Q ∧
    (fr_y0 r <= vec2_y (fr_loc r !!! k))%Q ∧
    (vec2_y (fr_loc r !!! k) <= fr_y1 r)%Q;
  rok_data : ∀ c k,
    k ∈ fr_data r !!! c ↔ k < length (fr_loc r) ∧ index r (fr_loc r !!! k) = c;
  rok_nodup : ∀ c, NoDup (fr_data r !!! c)
}.

(** ** Reachability mappings *)

(** Invariant I1 of the mappings over [n] targets, together with the
    absence of duplicates that [stripout] relies on. *)
Record maps_ok (n : nat) (f2t t2f : list (list nat)) : Prop := {
  mok_f2t_len : length f2t = nfiber;
  mok_t2f_len : length t2f = n;
  mok_f2t_nodup : ∀ f, NoDup (f2t !!! f);
  mok_t2f_nodup : ∀ t, NoDup (t2f !!! t);
  mok_inv : ∀ f t, t ∈ f2t !!! f ↔ f ∈ t2f !!! t
}.

(** [stripout], made to fail unless it finds exactly one occurrence of
    the value it removes. *)
Definition stripout_once (v : list nat) (val : nat) : option (list nat) :=
  if decide (length (filter (λ x, x = val) v) = 1) then stripout v val
  else None.

(** The mappings that [calcMappings] and any number of [cleanup] calls
    produce. *)
Inductive reachable_maps (tgt : list Target) (raster : fpraster)
  : list (list nat) * list (list nat) → Prop :=
| reachable_init : reachable_maps tgt raster (calcMappings tgt raster)
| reachable_cleanup m fiber itgt m' :
    reachable_maps tgt raster m →
    cleanup tgt raster m.1 m.2 fiber itgt = Some m' →
    reachable_maps tgt raster m'.

(** ** Mutable priority queue *)

Section pqueue_spec.
Context {T : Type} `{!Inhabited T}.
Variable comp : T → T → bool.

(** The comparator is a strict weak order. *)
Record strict_weak : Prop := {
  sw_irrefl : ∀ x, comp x x = false;
  sw_trans : ∀ x y z, comp x y = true → comp y z = true → comp x z = true;
  sw_negtrans : ∀ x y z,
    comp x y = false → comp y z = false → comp x z = false
}.

(** [idx] and the [pos] fields are inverse to each other. *)
Record pq_wf (q : pqueue T) : Prop := {
  wf_len : length (pq_idx q) = S (length (pq_nodes q));
  wf_idx : ∀ k, 1 ≤ k ≤ length (pq_nodes q) →
    pq_idx q !!! k < length (pq_nodes q)
    ∧ node_pos (pq_nodes q !!! (pq_idx q !!! k)) = k;
  wf_pos : ∀ i, i < length (pq_nodes q) →
    1 ≤ node_pos (pq_nodes q !!! i) ≤ length (pq_nodes q)
    ∧ pq_idx q !!! (node_pos (pq_nodes q !!! i)) = i
}.

(** The heap order between each position [k] and its parent [k / 2],
    for the parents from [b] on. *)
Definition heap_from (b : nat) (q : pqueue T) : Prop :=
  ∀ k, 2 ≤ k ≤ length (pq_nodes q) → b ≤ k / 2 →
       comp (key q (k / 2)) (key q k) = false.

Definition pq_ok (q : pqueue T) : Prop := pq_wf q ∧ heap_from 1 q.

(** The queue inside a sift: position [i] is a hole that waits for the
    node [m]. *)
Record hole_wf (q : pqueue T) (i m : nat) : Prop := {
  hw_len : length (pq_idx q) = S (length (pq_nodes q));
  hw_i : 1 ≤ i ≤ length (pq_nodes q);
  hw_m : m < length (pq_nodes q);
  hw_idx : ∀ k, 1 ≤ k ≤ length (pq_nodes q) → k ≠ i →
    pq_idx q !!! k < length (pq_nodes q)
    ∧ pq_idx q !!! k ≠ m
    ∧ node_pos (pq_nodes q !!! (pq_idx q !!! k)) = k;
  hw_pos : ∀ j, j < length (pq_nodes q) → j ≠ m →
    1 ≤ node_pos (pq_nodes q !!! j) ≤ length (pq_nodes q)
    ∧ node_pos (pq_nodes q !!! j) ≠ i
    ∧ pq_idx q !!! (node_pos (pq_nodes q !!! j)) = j
}.

(** The priority at position [k] once the hole [i] holds priority [p]. *)
Definition vkey (p : T) (q : pqueue T) (i k : nat) : T :=
  if decide (k = i) then p else key q k.

(** The order that [sift_down] at the hole [i] relies on. *)
Definition down_pre (b : nat) (p : T) (q : pqueue T) (i : nat) : Prop :=
  (∀ k, 2 ≤ k ≤ length (pq_nodes q) → b ≤ k / 2 → k / 2 ≠ i →
        comp (key q (k / 2)) (vkey p q i k) = false) ∧
  (∀ k, 2 ≤ k ≤ length (pq_nodes q) → k / 2 = i → b ≤ i / 2 → 2 ≤ i →
        comp (key q (i / 2)) (key q k) = false).

(** The order that [sift_up] at the hole [i] relies on. *)
Definition up_pre (p : T) (q : pqueue T) (i : nat) : Prop :=
  (∀ k, 2 ≤ k ≤ length (pq_nodes q) → k ≠ i →
        comp (vkey p q i (k / 2)) (key q k) = false) ∧
  (∀ k, 2 ≤ k ≤ length (pq_nodes q) → k / 2 = i → 2 ≤ i →
        comp (key q (i / 2)) (key q k) = false).
End pqueue_spec.

(** A sequence of [set_priority(p, pos)] calls, on a queue and on the
    vector of priorities it was built from. *)
Definition run_updates (q : pqueue pq_entry) (ups : list (pq_entry * nat))
  : pqueue pq_entry :=
  fold_left (λ q u, set_priority pq_entry_lt q u.1 u.2) ups q.

Definition apply_updates (pri : list pq_entry) (ups : list (pq_entry * nat))
  : list pq_entry :=
  fold_left (λ v u, <[u.2 := u.1]> v) ups pri.

(** ** Assignment strategies *)

(** Two targets closer than the collision distance. *)
Definition colliding (tgt : list Target) (t t' : nat) : Prop :=
  (dsq (tgt_pos (tgt !!! t)) (tgt_pos (tgt !!! t')) <= colldist * colldist)%Q.

(** The invariant of the loops of the three strategies. *)
Record assign_ok (tgt : list Target) (st : assign_state) : Prop := {
  aok_maps : maps_ok (length tgt) (as_f2t st) (as_t2f st);
  aok_len : length (as_tid st) = length (as_fid st);
  aok_fid_nodup : NoDup (as_fid st);
  aok_tid_nodup : NoDup (as_tid st);
  aok_fid : ∀ f, f ∈ as_fid st → f < nfiber ∧ as_f2t st !!! f = [];
  aok_tid : ∀ t, t ∈ as_tid st →
    t < length tgt ∧
    ∀ t', t' < length tgt → colliding tgt t t' → as_t2f st !!! t' = [];
  aok_coll : ∀ i j t t', i < j →
    as_tid st !! i = Some t → as_tid st !! j = Some t' → ¬ colliding tgt t t'
}.


(** ** Exposures and the driver *)

(** A list of indices in strictly increasing order. *)
Definition increasing (ks : list nat) : Prop :=
  ∀ a b ka kb, a < b → ks !! a = Some ka → ks !! b = Some kb → ka < kb.

(** Whether target [i] is in the vector that [strip] builds, and the
    record it has there. *)
Definition survives (tgt : list Target) (remove : list nat) (time : Q)
    (i : nat) : bool :=
  negb (bool_decide (i ∈ remove))
  || Qlt_bool (time + 1e-7) (tgt_time (tgt !!! i)).

Definition updated (tgt : list Target) (remove : list nat) (time : Q)
    (i : nat) : Target :=
  if bool_decide (i ∈ remove)
  then mkTarget (tgt_pos (tgt !!! i)) (tgt_time (tgt !!! i) - time)
                (tgt_pri (tgt !!! i)) (tgt_id (tgt !!! i))
  else tgt !!! i.

(** The centre of a fiber is within [rad] of the point [p]. *)
Definition near_fiber (p : vec2) (rad : Q) (f : nat) : Prop :=
  f < nfiber ∧ (dsq p (id2fiberpos (Z.of_nat f)) <= rad * rad)%Q.

(** Sample data on which the statements below are instantiated: three queue
    entries with one update, and a driver state holding one target. *)
Definition ex_entries : list pq_entry :=
  [mkEntry 1 5; mkEntry 2 5; mkEntry 0 3].

Definition ex_updates : list (pq_entry * nat) := [(mkEntry 0 10, 2)].

Definition ex_driver : driver_state :=
  mkDriver [mkTarget (Vec2 (-20) (-100)) 10 1 7] 0 0 0.

(** ** Further specification predicates *)

Section pqueue_updates.
Context {T : Type} `{!Inhabited T}.
Variable comp : T → T → bool.

(** A sequence of [set_priority(p, pos)] calls on a queue of any
    priority type, and the same writes on a plain vector. *)
Definition set_priorities (q : pqueue T) (ups : list (T * nat)) : pqueue T :=
  fold_left (λ q u, set_priority comp q u.1 u.2) ups q.

Definition write_all (pri : list T) (ups : list (T * nat)) : list T :=
  fold_left (λ v u, <[u.2 := u.1]> v) ups pri.
End pqueue_updates.

(** Fiber [f] reaches target [j]: the target is within the patrol radius
    of the fiber and not behind its dot. *)
Definition reaches (tgt : list Target) (f j : nat) : Prop :=
  (dsq (id2fiberpos (Z.of_nat f)) (tgt_pos (tgt !!! j)) <= rmax * rmax)%Q
  ∧ (dotdist * dotdist
     <= dsq (id2dotpos (Z.of_nat f)) (tgt_pos (tgt !!! j)))%Q.

(** The mapping [f2t] right after [calcMappings], from which every strategy
    starts. *)
Definition f2t_init (tgt : list Target) (raster : fpraster)
  : list (list nat) :=
  (calcMappings tgt raster).1.

(** How the state of a strategy relates to the mappings [f2t0] it started
    from: every committed pair was in them, nothing was added to them, and
    every pair that has left them has its fiber committed or its target
    within the collision distance of a committed target. *)
Record assign_trace (tgt : list Target) (f2t0 : list (list nat))
    (st : assign_state) : Prop := {
  atr_pairs : ∀ i t f,
    as_tid st !! i = Some t → as_fid st !! i = Some f → t ∈ f2t0 !!! f;
  atr_sub : ∀ f t, t ∈ as_f2t st !!! f → t ∈ f2t0 !!! f;
  atr_left : ∀ f t, t ∈ f2t0 !!! f →
    t ∈ as_f2t st !!! f ∨ f ∈ as_fid st
    ∨ ∃ t', t' ∈ as_tid st ∧ colliding tgt t' t
}.

(** The priorities of the queue of the New strategy: a target has its own
    [pri], or the mark [1<<30] once it was found without fibers. *)
Definition pri_marks (tgt : list Target) (pq : pqueue pq_entry)
    (st : assign_state) : Prop :=
  ∀ j, j < length tgt →
    pe_pri (priority pq j) = tgt_pri (tgt !!! j)
    ∨ (pe_pri (priority pq j) = sentinel ∧ as_t2f st !!! j = []).

(** The [pri] values along a vector of target indices never decrease. *)
Definition pri_sorted (tgt : list Target) (tid : list nat) : Prop :=
  ∀ i j t t', i < j → tid !! i = Some t → tid !! j = Some t' →
    (tgt_pri (tgt !!! t) ≤ tgt_pri (tgt !!! t'))%Z.

(** ** The Gregorian calendar *)

Definition leap_year (y : Z) : bool :=
  ((y mod 4 =? 0) && (negb (y mod 100 =? 0) || (y mod 400 =? 0)))%Z.

Definition days_in_month (y m : Z) : Z :=
  if (m =? 2)%Z then (if leap_year y then 29 else 28)%Z
  else if ((m =? 4) || (m =? 6) || (m =? 9) || (m =? 11))%Z then 30%Z
       else 31%Z.


(** The value of a polynomial by Horner's rule. *)
Definition horner (x : Q) (c : list Q) : Q :=
  foldr (λ ci acc, ci + x * acc)%Q 0%Q c.

(** ** The grid of the exposure optimizer *)

Section grid_points.
Variable vec3_of_pointing : pointing → vec3.
Variable pointing_of_vec3 : vec3 → pointing.
Variable Norm : vec3 → vec3.


End grid_points.


(** * Properties *)

(** ** Numbers *)

Lemma Qlt_bool_iff (a b : Q) : Qlt_bool a b = true ↔ (a < b)%Q.
Proof.
  unfold Qlt_bool. rewrite negb_true_iff. split.
  - intros H. apply Qnot_le_lt. intros Hle.
    apply Qle_bool_iff in Hle. congruence.
  - intros H. destruct (Qle_bool b a) eqn:E; [|done].
    apply Qle_bool_iff in E. by apply Qlt_not_le in H.
Qed.

Lemma Qlt_bool_false (a b : Q) : Qlt_bool a b = false ↔ (b <= a)%Q.
Proof.
  unfold Qlt_bool. rewrite negb_false_iff. apply Qle_bool_iff.
Qed.

Lemma Qtrunc_floor (d : Q) : (0 <= d)%Q → Qtrunc d = Qfloor d.
Proof.
  destruct d as [n m]. unfold Qle, Qtrunc, Qfloor. simpl. intros H.
  apply Z.quot_div_nonneg; lia.
Qed.

Lemma Qtrunc_neg (d : Q) : (d < 0)%Q → (Qtrunc d ≤ 0)%Z.
Proof.
  destruct d as [n m]. unfold Qlt, Qtrunc. simpl. intros H.
  assert (0 ≤ (- n) ÷ Z.pos m)%Z by (apply Z.quot_pos; lia).
  rewrite Z.quot_opp_l in H0 by lia. lia.
Qed.

Lemma Qtrunc_nonneg (d : Q) : (0 <= d)%Q → (0 ≤ Qtrunc d)%Z.
Proof.
  destruct d as [n m]. unfold Qle, Qtrunc. simpl. intros H.
  apply Z.quot_pos; lia.
Qed.

Lemma clamp_index_mono (n : nat) (a b : Q) :
  (a <= b)%Q → clamp_index n a ≤ clamp_index n b.
Proof.
  intros Hab. unfold clamp_index.
  destruct (Qlt_le_dec a 0) as [Ha|Ha].
  - pose proof (Qtrunc_neg a Ha). lia.
  - assert (0 <= b)%Q as Hb by (by eapply Qle_trans).
    rewrite (Qtrunc_floor a Ha), (Qtrunc_floor b Hb).
    pose proof (Qfloor_resp_le a b Hab). lia.
Qed.

Lemma clamp_index_lt (n : nat) (d : Q) : 0 < n → clamp_index n d < n.
Proof. unfold clamp_index. lia. Qed.


Lemma dsq_self (a : vec2) : (dsq a a == 0)%Q.
Proof. unfold dsq. ring. Qed.

Lemma sq_gt (d rad : Q) : (0 <= rad)%Q → (rad < d)%Q → (rad * rad < d * d)%Q.
Proof.
  intros H0 H.
  assert (0 < (d - rad) * (d + rad))%Q by (apply Qmult_lt_0_compat; lra).
  lra.
Qed.

Lemma sq_nonneg (e : Q) : (0 <= e * e)%Q.
Proof.
  destruct (Qlt_le_dec e 0) as [H|H].
  - assert (0 <= (- e) * (- e))%Q by (apply Qmult_le_0_compat; lra). lra.
  - apply Qmult_le_0_compat; lra.
Qed.

Lemma dsq_far_x (a b : vec2) (rad : Q) :
  (0 <= rad)%Q →
  (rad < vec2_x a - vec2_x b)%Q ∨ (rad < vec2_x b - vec2_x a)%Q →
  ¬ (dsq a b <= rad * rad)%Q.
Proof.
  unfold dsq. intros H0 H Hle.
  pose proof (sq_nonneg (vec2_y a - vec2_y b)) as Hy.
  destruct H as [H|H]; apply (sq_gt _ _ H0) in H; lra.
Qed.

Lemma dsq_far_y (a b : vec2) (rad : Q) :
  (0 <= rad)%Q →
  (rad < vec2_y a - vec2_y b)%Q ∨ (rad < vec2_y b - vec2_y a)%Q →
  ¬ (dsq a b <= rad * rad)%Q.
Proof.
  unfold dsq. intros H0 H Hle.
  pose proof (sq_nonneg (vec2_x a - vec2_x b)) as Hx.
  destruct H as [H|H]; apply (sq_gt _ _ H0) in H; lra.
Qed.

Lemma dsq_near (a b : vec2) (rad : Q) :
  (0 <= rad)%Q → (dsq a b <= rad * rad)%Q →
  (vec2_x a - rad <= vec2_x b)%Q ∧ (vec2_x b <= vec2_x a + rad)%Q ∧
  (vec2_y a - rad <= vec2_y b)%Q ∧ (vec2_y b <= vec2_y a + rad)%Q.
Proof.
  intros H0 Hle.
  repeat split; apply Qnot_lt_le; intros Hlt.
  - apply (dsq_far_x a b rad H0); [left; lra | done].
  - apply (dsq_far_x a b rad H0); [right; lra | done].
  - apply (dsq_far_y a b rad H0); [left; lra | done].
  - apply (dsq_far_y a b rad H0); [right; lra | done].
Qed.

(** ** Spatial index *)

Lemma bbox_fold (l : list vec2) (x0 x1 y0 y1 x0' x1' y0' y1' : Q) :
  fold_left bbox_step l (x0, x1, y0, y1) = (x0', x1', y0', y1') →
  ((x0' <= x0)%Q ∧ (x1 <= x1')%Q ∧ (y0' <= y0)%Q ∧ (y1 <= y1')%Q) ∧
  ∀ p, p ∈ l →
    (x0' <= vec2_x p)%Q ∧ (vec2_x p <= x1')%Q ∧
    (y0' <= vec2_y p)%Q ∧ (vec2_y p <= y1')%Q.
Proof.
  revert x0 x1 y0 y1. induction l as [|a l IH]; intros x0 x1 y0 y1 Hf.
  - simpl in Hf. injection Hf as <- <- <- <-.
    split; [repeat split; apply Qle_refl|]. intros p Hp. inversion Hp.
  - simpl in Hf. apply IH in Hf as [(Hx0 & Hx1 & Hy0 & Hy1) Hin].
    pose proof (Q.le_min_l x0 (vec2_x a)). pose proof (Q.le_min_r x0 (vec2_x a)).
    pose proof (Q.le_max_l x1 (vec2_x a)). pose proof (Q.le_max_r x1 (vec2_x a)).
    pose proof (Q.le_min_l y0 (vec2_y a)). pose proof (Q.le_min_r y0 (vec2_y a)).
    pose proof (Q.le_max_l y1 (vec2_y a)). pose proof (Q.le_max_r y1 (vec2_y a)).
    split; [repeat split; lra|].
    intros p [->|Hp]%elem_of_cons; [repeat split; lra | by apply Hin].
Qed.

Lemma index_lt (r : fpraster) (p : vec2) :
  0 < fr_nx r → 0 < fr_ny r → index r p < fr_nx r * fr_ny r.
Proof.
  intros Hx Hy. unfold index, indexx, indexy.
  pose proof (clamp_index_lt (fr_nx r) ((vec2_x p - fr_x0 r) * fr_idx r) Hx).
  pose proof (clamp_index_lt (fr_ny r) ((vec2_y p - fr_y0 r) * fr_idy r) Hy).
  nia.
Qed.

Lemma index_set_data (r : fpraster) (d : list (list nat)) (p : vec2) :
  index (set_data r d) p = index r p.
Proof. done. Qed.

(** The cells after the first [m] points have been sorted in. *)
Lemma bucket_fold_spec (r : fpraster) (n m : nat) :
  (∀ p, index r p < n) →
  let d := fold_left (bucket_step r) (seq 0 m) (replicate n []) in
  length d = n ∧
  (∀ c k, k ∈ d !!! c ↔ k < m ∧ index r (fr_loc r !!! k) = c) ∧
  (∀ c, NoDup (d !!! c)).
Proof.
  intros Hidx. cbv zeta. induction m as [|m IH].
  - simpl. split; [by rewrite length_replicate|]. split.
    + intros c k. destruct (decide (c < n)) as [Hc|Hc].
      * rewrite lookup_total_replicate_2 by done.
        split; [by intros ?%elem_of_nil | lia].
      * rewrite list_lookup_total_alt, lookup_ge_None_2
          by (rewrite length_replicate; lia).
        split; [by intros ?%elem_of_nil | lia].
    + intros c. destruct (decide (c < n)) as [Hc|Hc].
      * rewrite lookup_total_replicate_2 by done. constructor.
      * rewrite list_lookup_total_alt, lookup_ge_None_2
          by (rewrite length_replicate; lia).
        constructor.
  - rewrite seq_S, fold_left_app. cbn [fold_left Nat.add].
    destruct IH as (Hlen & Hmem & Hnd).
    set (d := fold_left (bucket_step r) (seq 0 m) (replicate n [])) in *.
    unfold bucket_step.
    set (ci := index r (fr_loc r !!! m)).
    assert (ci < length d) as Hci by (rewrite Hlen; apply Hidx).
    split; [by rewrite length_alter|]. split.
    + intros c k. rewrite list_lookup_total_alter.
      destruct (decide (ci = c ∧ ci < length d)) as [[<- _]|Hne].
      * rewrite elem_of_app, Hmem, list_elem_of_singleton. subst ci.
        split; [intros [[? ?]| ->]; split; (lia || done)|].
        intros [Hk Hc]. destruct (decide (k = m)); [by right|left; split; [lia|done]].
      * rewrite Hmem. split; [intros [? ?]; split; [lia|done]|].
        intros [Hk Hc]. split; [|done].
        destruct (decide (k = m)) as [->|]; [|lia].
        exfalso. apply Hne. by split.
    + intros c. rewrite list_lookup_total_alter.
      destruct (decide (ci = c ∧ ci < length d)) as [[<- _]|Hne]; [|done].
      apply list.NoDup_app. split; [done|]. split; [|apply NoDup_singleton].
      intros x [Hx _]%Hmem ->%list_elem_of_singleton. lia.
Qed.

Lemma Qdiv_nonneg (a b : Q) : (0 <= a)%Q → (0 <= b)%Q → (0 <= a / b)%Q.
Proof.
  intros Ha Hb. apply Qmult_le_0_compat; [done|].
  by apply Qinv_le_0_compat.
Qed.

Lemma inject_nat_nonneg (n : nat) : (0 <= inject_Z (Z.of_nat n))%Q.
Proof. change 0%Q with (inject_Z 0). rewrite <- Zle_Qle. lia. Qed.

(** The constructor succeeds exactly on a non-empty vector and positive
    cell counts, and establishes [raster_ok]. *)
Lemma fpraster_new_ok (loc_ : list vec2) (nx_ ny_ : nat) :
  loc_ ≠ [] → 0 < nx_ → 0 < ny_ →
  ∃ r, fpraster_new loc_ nx_ ny_ = Some r ∧ raster_ok r ∧ fr_loc r = loc_
       ∧ fr_nx r = nx_ ∧ fr_ny r = ny_.
Proof.
  intros Hne Hnx Hny. unfold fpraster_new.
  assert (negb ((0 <? nx_) && (0 <? ny_)) = false) as ->.
  { apply negb_false_iff, andb_true_iff. split; by apply Nat.ltb_lt. }
  destruct loc_ as [|p0 rest]; [done|].
  destruct (fold_left bbox_step rest
              (vec2_x p0, vec2_x p0, vec2_y p0, vec2_y p0))
    as [[[x0 x1] y0] y1] eqn:Hbox.
  apply bbox_fold in Hbox as [(Hx0 & Hx1 & Hy0 & Hy1) Hin].
  set (x1' := if Qeq_bool x0 x1 then (x1 + 1e-9)%Q else x1).
  set (y1' := if Qeq_bool y0 y1 then (y1 + 1e-9)%Q else y1).
  assert (x1 <= x1')%Q as Hx1'.
  { unfold x1'. destruct (Qeq_bool x0 x1); [|apply Qle_refl].
    assert (0 <= 1e-9)%Q by done. lra. }
  assert (y1 <= y1')%Q as Hy1'.
  { unfold y1'. destruct (Qeq_bool y0 y1); [|apply Qle_refl].
    assert (0 <= 1e-9)%Q by done. lra. }
  set (r0 := mkFpraster x0 y0 x1' y1' _ _ nx_ ny_ _ (p0 :: rest)).
  eexists. split; [done|].
  assert (∀ p, index r0 p < nx_ * ny_) as Hidx
    by (intros p; by apply (index_lt r0)).
  destruct (bucket_fold_spec r0 (nx_ * ny_) (length (p0 :: rest)) Hidx)
    as (Hlen & Hmem & Hnd).
  split; [|done].
  split; simpl; try done.
  - apply Qdiv_nonneg; [apply inject_nat_nonneg | lra].
  - apply Qdiv_nonneg; [apply inject_nat_nonneg | lra].
  - intros k Hk.
    assert ((p0 :: rest) !!! k ∈ p0 :: rest) as Hp.
    { apply list_elem_of_lookup_total_2. simpl. lia. }
    apply elem_of_cons in Hp as [->|Hp].
    + repeat split; lra.
    + destruct (Hin _ Hp) as (? & ? & ? & ?). repeat split; lra.
Qed.

Lemma elem_of_cells (r : fpraster) (center : vec2) (rad : Q) (c : nat) :
  c ∈ cells r center rad ↔
  ∃ i j, (indexx r (vec2_x center - rad) ≤ i ≤ indexx r (vec2_x center + rad))
       ∧ (indexy r (vec2_y center - rad) ≤ j ≤ indexy r (vec2_y center + rad))
       ∧ c = i + fr_nx r * j.
Proof.
  unfold cells. rewrite list_elem_of_bind. split.
  - intros (j & Hc & Hj). apply list_elem_of_bind in Hc as (i & Hc & Hi).
    apply list_elem_of_singleton in Hc.
    apply elem_of_seq in Hi, Hj. exists i, j. lia.
  - intros (i & j & Hi & Hj & ->). exists j. split.
    + apply list_elem_of_bind. exists i.
      split; [by apply list_elem_of_singleton|]. apply elem_of_seq. lia.
    + apply elem_of_seq. lia.
Qed.

Lemma NoDup_cells (r : fpraster) (center : vec2) (rad : Q) :
  0 < fr_nx r → NoDup (cells r center rad).
Proof.
  intros Hnx. unfold cells.
  pose proof (clamp_index_lt (fr_nx r)
                ((vec2_x center + rad - fr_x0 r) * fr_idx r) Hnx) as Hi1.
  fold (indexx r (vec2_x center + rad)) in Hi1.
  apply NoDup_bind; [| |apply NoDup_seq].
  - intros j1 j2 c _ _ (i1 & Hc1 & Hi1')%list_elem_of_bind
      (i2 & Hc2 & Hi2')%list_elem_of_bind.
    apply list_elem_of_singleton in Hc1, Hc2.
    apply elem_of_seq in Hi1', Hi2'. nia.
  - intros j _. apply NoDup_bind; [| |apply NoDup_seq].
    + intros i1 i2 c _ _ Hc1%list_elem_of_singleton Hc2%list_elem_of_singleton.
      lia.
    + intros i _. apply NoDup_singleton.
Qed.

Lemma indexx_mono (r : fpraster) (a b : Q) :
  (0 <= fr_idx r)%Q → (a <= b)%Q → indexx r a ≤ indexx r b.
Proof.
  intros Hidx Hab. apply clamp_index_mono.
  apply Qmult_le_compat_r; [lra | done].
Qed.

Lemma indexy_mono (r : fpraster) (a b : Q) :
  (0 <= fr_idy r)%Q → (a <= b)%Q → indexy r a ≤ indexy r b.
Proof.
  intros Hidy Hab. apply clamp_index_mono.
  apply Qmult_le_compat_r; [lra | done].
Qed.

Lemma in_circle_iff (r : fpraster) (center : vec2) (rsq : Q) (k : nat) :
  in_circle r center rsq k ↔ (dsq center (fr_loc r !!! k) <= rsq)%Q.
Proof. unfold in_circle. rewrite Is_true_true. apply Qle_bool_iff. Qed.

(** A point outside the inflated bounding box has no point of the index
    within [rad]. *)
Lemma outside_far (r : fpraster) (center : vec2) (rad : Q) (k : nat) :
  raster_ok r → (0 <= rad)%Q → outside r center rad = true →
  k < length (fr_loc r) →
  ¬ (dsq center (fr_loc r !!! k) <= rad * rad)%Q.
Proof.
  intros Hok Hrad Hout Hk.
  destruct (rok_box r Hok k Hk) as (Hx0 & Hx1 & Hy0 & Hy1).
  unfold outside in Hout.
  repeat (apply orb_true_iff in Hout as [Hout|Hout]);
    apply Qlt_bool_iff in Hout.
  - apply dsq_far_x; [done | right; lra].
  - apply dsq_far_x; [done | left; lra].
  - apply dsq_far_y; [done | right; lra].
  - apply dsq_far_y; [done | left; lra].
Qed.

Lemma query_elem_of (r : fpraster) (center : vec2) (rad : Q) (k : nat) :
  raster_ok r → (0 <= rad)%Q →
  k ∈ query r center rad ↔
  k < length (fr_loc r) ∧ (dsq center (fr_loc r !!! k) <= rad * rad)%Q.
Proof.
  intros Hok Hrad. unfold query.
  destruct (outside r center rad) eqn:Hout.
  - split; [by intros ?%elem_of_nil|]. intros [Hk Hd].
    by apply (outside_far r center rad k) in Hd.
  - rewrite list_elem_of_bind. split.
    + intros (c & [Hin Hc]%list_elem_of_filter & _).
      apply in_circle_iff in Hin. apply (rok_data r Hok) in Hc as [Hk _].
      done.
    + intros [Hk Hd]. exists (index r (fr_loc r !!! k)). split.
      * apply list_elem_of_filter. split; [by apply in_circle_iff|].
        by apply (rok_data r Hok).
      * apply elem_of_cells.
        destruct (dsq_near _ _ _ Hrad Hd) as (Hxa & Hxb & Hya & Hyb).
        eexists _, _. split; [|split; [|reflexivity]].
        -- split; apply indexx_mono; (apply Hok || done).
        -- split; apply indexy_mono; (apply Hok || done).
Qed.

Lemma query_NoDup (r : fpraster) (center : vec2) (rad : Q) :
  raster_ok r → NoDup (query r center rad).
Proof.
  intros Hok. unfold query.
  destruct (outside r center rad); [constructor|].
  apply NoDup_bind; [| |apply NoDup_cells, Hok].
  - intros c1 c2 k _ _ [_ H1]%list_elem_of_filter [_ H2]%list_elem_of_filter.
    apply (rok_data r Hok) in H1 as [_ <-], H2 as [_ <-]. done.
  - intros c _. apply list.NoDup_filter, (rok_nodup r Hok).
Qed.

Lemma anyIn_query (r : fpraster) (center : vec2) (rad : Q) :
  anyIn r center rad = true ↔ ∃ k, k ∈ query r center rad.
Proof.
  unfold anyIn, query. destruct (outside r center rad).
  - split; [done|]. by intros [k ?%elem_of_nil].
  - rewrite existsb_exists. split.
    + intros (c & Hc & (k & Hk & Hin)%existsb_exists).
      exists k. apply list_elem_of_bind. exists c.
      split; [|by apply list_elem_of_In].
      apply list_elem_of_filter. split; [by apply Is_true_true|].
      by apply list_elem_of_In.
    + intros (k & (c & [Hin Hk]%list_elem_of_filter & Hc)%list_elem_of_bind).
      exists c. split; [by apply list_elem_of_In|].
      apply existsb_exists. exists k.
      split; [by apply list_elem_of_In | by apply Is_true_true].
Qed.

Lemma anyIn_spec (r : fpraster) (center : vec2) (rad : Q) :
  raster_ok r → (0 <= rad)%Q →
  anyIn r center rad = true ↔
  ∃ k, k < length (fr_loc r) ∧ (dsq center (fr_loc r !!! k) <= rad * rad)%Q.
Proof.
  intros Hok Hrad. rewrite anyIn_query.
  split; intros [k Hk]; exists k; by apply query_elem_of.
Qed.



(** ** Reachability mappings *)

Lemma lookup_total_ge {A : Type} (l : list (list A)) (i : nat) :
  length l ≤ i → l !!! i = [].
Proof.
  intros Hi. by rewrite list_lookup_total_alt, lookup_ge_None_2.
Qed.

Lemma elem_of_lookup_total_lt {A : Type} (l : list (list A)) (i : nat) (x : A) :
  x ∈ l !!! i → i < length l.
Proof.
  intros Hx. destruct (decide (i < length l)); [done|].
  rewrite lookup_total_ge in Hx by lia. by apply elem_of_nil in Hx.
Qed.

(** [t2f[t].push_back(i)] for the targets [t] of a duplicate-free list. *)
Lemma push_all_spec (i : nat) (l : list nat) (m : list (list nat)) :
  NoDup l → (∀ t, t ∈ l → t < length m) →
  length (fold_left (λ m t, alter (λ v, v ++ [i]) t m) l m) = length m ∧
  ∀ t, fold_left (λ m t, alter (λ v, v ++ [i]) t m) l m !!! t
       = if decide (t ∈ l) then m !!! t ++ [i] else m !!! t.
Proof.
  revert m. induction l as [|a l IH]; intros m Hnd Hlt; cbn [fold_left].
  - split; [done|]. intros t.
    case_decide as Ht; [by apply elem_of_nil in Ht | done].
  - apply NoDup_cons in Hnd as [Ha Hnd].
    destruct (IH (alter (λ v, v ++ [i]) a m) Hnd) as [Hlen Hget].
    { intros t Ht. rewrite length_alter. apply Hlt. by right. }
    split; [by rewrite Hlen, length_alter|].
    intros t. rewrite Hget, list_lookup_total_alter.
    assert (a < length m) by (apply Hlt; by left).
    destruct (decide (t = a)) as [->|Hta].
    + destruct (decide (a ∈ l)); [done|].
      destruct (decide (a = a ∧ a < length m)) as [_|Hn];
        [|by exfalso; apply Hn].
      destruct (decide (a ∈ a :: l)) as [_|Hn]; [done|].
      exfalso; apply Hn; by left.
    + destruct (decide (a = t ∧ a < length m)) as [[? _]|_]; [congruence|].
      destruct (decide (t ∈ l)) as [Hin|Hin];
        destruct (decide (t ∈ a :: l)) as [Hin'|Hin']; try done.
      * exfalso; apply Hin'; by right.
      * by apply elem_of_cons in Hin' as [?|?].
Qed.

(** The inversion loop of [calcMappings] after the first [m] fibers. *)
Lemma invert_fold_spec (f2t : list (list nat)) (n m : nat) :
  (∀ f, NoDup (f2t !!! f)) → (∀ f t, t ∈ f2t !!! f → t < n) →
  let t2f := fold_left (invert_step f2t) (seq 0 m) (replicate n []) in
  length t2f = n ∧
  (∀ t, NoDup (t2f !!! t)) ∧
  (∀ t f, f ∈ t2f !!! t ↔ f < m ∧ t ∈ f2t !!! f).
Proof.
  intros Hnd Hlt. cbv zeta. induction m as [|m IH].
  - simpl. split; [by rewrite length_replicate|].
    assert (∀ t, replicate n ([] : list nat) !!! t = []) as Hnil.
    { intros t. destruct (decide (t < n)).
      - by rewrite lookup_total_replicate_2.
      - apply lookup_total_ge. rewrite length_replicate. lia. }
    split; intros t; rewrite Hnil; [constructor|].
    intros f. split; [by intros ?%elem_of_nil | lia].
  - rewrite seq_S, fold_left_app. cbn [fold_left Nat.add].
    destruct IH as (Hlen & Hnd' & Hmem).
    set (t2f := fold_left (invert_step f2t) (seq 0 m) (replicate n [])) in *.
    unfold invert_step.
    destruct (push_all_spec m (f2t !!! m) t2f (Hnd m)) as [Hlen2 Hget].
    { intros t Ht. rewrite Hlen. by eapply Hlt. }
    split; [by rewrite Hlen2|]. split.
    + intros t. rewrite Hget. destruct (decide (t ∈ f2t !!! m)); [|done].
      apply list.NoDup_app. split; [done|]. split; [|apply NoDup_singleton].
      intros f [Hf _]%Hmem ->%list_elem_of_singleton. lia.
    + intros t f. rewrite Hget. destruct (decide (t ∈ f2t !!! m)) as [Ht|Ht].
      * rewrite elem_of_app, Hmem, list_elem_of_singleton.
        split; [intros [[? ?]| ->]; split; (lia || done)|].
        intros [Hf Hin]. destruct (decide (f = m)); [by right|left].
        split; [lia|done].
      * rewrite Hmem. split; [intros [? ?]; split; [lia|done]|].
        intros [Hf Hin]. split; [|done].
        destruct (decide (f = m)) as [->|]; [done|lia].
Qed.

Lemma calcMappings_f2t (tgt : list Target) (raster : fpraster) (f : nat) :
  f < nfiber →
  (calcMappings tgt raster).1 !!! f = reachable_targets tgt raster f.
Proof.
  intros Hf. unfold calcMappings. cbn [fst].
  rewrite (list_lookup_total_fmap (reachable_targets tgt raster))
    by (by rewrite length_seq).
  by rewrite lookup_total_seq_lt.
Qed.

Lemma elem_of_reachable_targets (tgt : list Target) (raster : fpraster)
    (f t : nat) :
  raster_ok raster → fr_loc raster = tgt_pos <$> tgt →
  t ∈ reachable_targets tgt raster f ↔
  t < length tgt
  ∧ (dsq (id2fiberpos (Z.of_nat f)) (tgt_pos (tgt !!! t)) <= rmax * rmax)%Q
  ∧ (dotdist * dotdist <= dsq (id2dotpos (Z.of_nat f)) (tgt_pos (tgt !!! t)))%Q.
Proof.
  intros Hok Hloc. unfold reachable_targets.
  rewrite list_elem_of_filter, query_elem_of by done.
  rewrite Is_true_true, Qle_bool_iff, Hloc, length_fmap.
  split.
  - intros (Hdot & Ht & Hd). rewrite (list_lookup_total_fmap tgt_pos) in Hd by done.
    done.
  - intros (Ht & Hd & Hdot). rewrite (list_lookup_total_fmap tgt_pos) by done. done.
Qed.

Lemma calcMappings_ok (tgt : list Target) (raster : fpraster) :
  raster_ok raster → fr_loc raster = tgt_pos <$> tgt →
  maps_ok (length tgt) (calcMappings tgt raster).1 (calcMappings tgt raster).2.
Proof.
  intros Hok Hloc.
  assert (length (calcMappings tgt raster).1 = nfiber) as Hlen.
  { unfold calcMappings. cbn [fst]. by rewrite length_fmap, length_seq. }
  assert (∀ f, NoDup ((calcMappings tgt raster).1 !!! f)) as Hnd.
  { intros f. destruct (decide (f < nfiber)).
    - rewrite calcMappings_f2t by done.
      apply list.NoDup_filter. by apply query_NoDup.
    - rewrite lookup_total_ge by lia. constructor. }
  assert (∀ f t, t ∈ (calcMappings tgt raster).1 !!! f → t < length tgt)
    as Hlt.
  { intros f t Ht. pose proof (elem_of_lookup_total_lt _ _ _ Ht).
    rewrite calcMappings_f2t in Ht by lia.
    by apply elem_of_reachable_targets in Ht as [? _]. }
  destruct (invert_fold_spec (calcMappings tgt raster).1 (length tgt)
              (length (calcMappings tgt raster).1) Hnd Hlt)
    as (Hlen2 & Hnd2 & Hmem).
  split; [exact Hlen | exact Hlen2 | exact Hnd | exact Hnd2 |].
  intros f t. change (calcMappings tgt raster).2 with
    (fold_left (invert_step (calcMappings tgt raster).1)
       (seq 0 (length (calcMappings tgt raster).1))
       (replicate (length tgt) [])).
  rewrite Hmem. split; [|by intros [_ ?]].
  intros Ht. split; [|done]. by eapply elem_of_lookup_total_lt.
Qed.

Lemma tgt2raster_ok (tgt : list Target) (nx ny : nat) :
  tgt ≠ [] → 0 < nx → 0 < ny →
  ∃ raster, tgt2raster tgt nx ny = Some raster ∧ raster_ok raster
            ∧ fr_loc raster = tgt_pos <$> tgt.
Proof.
  intros Hne Hnx Hny. unfold tgt2raster.
  destruct (fpraster_new_ok (tgt_pos <$> tgt) nx ny) as (r & Hr & Hok & Hloc & _);
    [by destruct tgt | done | done |].
  by exists r.
Qed.



(** ** [stripout] and [cleanup] *)

Lemma filter_ne_length (v : list nat) (val : nat) :
  NoDup v → val ∈ v → length (filter (λ x, x ≠ val) v) + 1 = length v.
Proof.
  induction v as [|a v IH]; intros Hnd Hin; [by apply elem_of_nil in Hin|].
  apply NoDup_cons in Hnd as [Ha Hnd].
  destruct (decide (a = val)) as [->|Hne].
  - rewrite filter_cons_False by (intros ?; done).
    assert (filter (λ x, x ≠ val) v = v) as ->; [|simpl; lia].
    clear IH Hin Hnd. induction v as [|b v IH]; [done|].
    apply not_elem_of_cons in Ha as [Hb Hv].
    rewrite filter_cons_True by done. by rewrite IH.
  - rewrite filter_cons_True by done. simpl.
    apply elem_of_cons in Hin as [->|Hin]; [done|]. rewrite <- (IH Hnd Hin). lia.
Qed.

Lemma filter_eq_length (v : list nat) (val : nat) :
  NoDup v → val ∈ v → length (filter (λ x, x = val) v) = 1.
Proof.
  induction v as [|a v IH]; intros Hnd Hin; [by apply elem_of_nil in Hin|].
  apply NoDup_cons in Hnd as [Ha Hnd].
  destruct (decide (a = val)) as [->|Hne].
  - rewrite filter_cons_True by done. simpl. f_equal.
    clear IH Hin Hnd. induction v as [|b v IH]; [done|].
    apply not_elem_of_cons in Ha as [Hb Hv].
    rewrite filter_cons_False by congruence. by apply IH.
  - rewrite filter_cons_False by done.
    apply elem_of_cons in Hin as [->|Hin]; [done|]. by apply IH.
Qed.

(** With exactly one occurrence, [stripout] removes it and its assertion
    holds. *)
Lemma stripout_NoDup (v : list nat) (val : nat) :
  NoDup v → val ∈ v → stripout v val = Some (filter (λ x, x ≠ val) v).
Proof.
  intros Hnd Hin. unfold stripout.
  pose proof (filter_ne_length v val Hnd Hin) as Hlen.
  destruct (length (filter (λ x, x ≠ val) v) =? length v) eqn:E;
    [apply Nat.eqb_eq in E; lia|].
  rewrite drop_ge by lia. rewrite app_nil_r.
  by rewrite (proj2 (Nat.eqb_eq _ _) Hlen).
Qed.

Lemma stripout_once_NoDup (v : list nat) (val : nat) :
  NoDup v → val ∈ v → stripout_once v val = Some (filter (λ x, x ≠ val) v).
Proof.
  intros Hnd Hin. unfold stripout_once.
  rewrite decide_True by by apply filter_eq_length.
  by apply stripout_NoDup.
Qed.

(** The assertion of [stripout] cannot fail: whenever the erasure is
    defined the vector loses exactly one entry. *)
Lemma stripout_length (v v' : list nat) (val : nat) :
  stripout v val = Some v' → length v' + 1 = length v.
Proof.
  unfold stripout. intros H.
  destruct (length (filter (λ x, x ≠ val) v) =? length v); [done|].
  destruct (_ =? length v) eqn:E; [|done].
  injection H as <-. by apply Nat.eqb_eq in E.
Qed.

Lemma filter_ne_id (v : list nat) (val : nat) :
  val ∉ v → filter (λ x, x ≠ val) v = v.
Proof.
  induction v as [|b v IH]; [done|]. intros [Hb Hv]%not_elem_of_cons.
  rewrite filter_cons_True by done. by rewrite IH.
Qed.

Section cleanup_spec.
Variable remove_one : list nat → nat → option (list nat).
Hypothesis remove_one_NoDup : ∀ v val,
  NoDup v → val ∈ v → remove_one v val = Some (filter (λ x, x ≠ val) v).

(** [stripout(m[k], val)] over duplicate-free keys [k], each [m[k]]
    holding [val] once. *)
Lemma strip_from_spec (m : list (list nat)) (keys : list nat) (val : nat) :
  NoDup keys →
  (∀ k, k ∈ keys → NoDup (m !!! k) ∧ val ∈ m !!! k) →
  ∃ m', strip_from remove_one m keys val = Some m' ∧
        length m' = length m ∧
        ∀ k, m' !!! k = if decide (k ∈ keys)
                        then filter (λ x, x ≠ val) (m !!! k) else m !!! k.
Proof.
  unfold strip_from. revert m.
  induction keys as [|a keys IH]; intros m Hnd Hkeys; cbn [foldM].
  - exists m. split; [done|]. split; [done|]. intros k.
    destruct (decide (k ∈ [])) as [Hk|_]; [by apply elem_of_nil in Hk|done].
  - apply NoDup_cons in Hnd as [Ha Hnd].
    destruct (Hkeys a) as [Hnda Hvala]; [by left|].
    rewrite (remove_one_NoDup _ _ Hnda Hvala). cbn [mbind option_bind].
    assert (a < length m) as Halen by by eapply elem_of_lookup_total_lt.
    destruct (IH (<[a := filter (λ x, x ≠ val) (m !!! a)]> m) Hnd)
      as (m' & Hm' & Hlen & Hget).
    { intros k Hk. rewrite list_lookup_total_insert_ne by (by intros ->).
      apply Hkeys. by right. }
    exists m'. split; [done|]. split; [by rewrite Hlen, length_insert|].
    intros k. rewrite Hget, list_lookup_total_insert.
    destruct (decide (k = a)) as [->|Hka].
    + destruct (decide (a ∈ keys)); [done|].
      destruct (decide (a = a ∧ a < length m)) as [_|Hn];
        [|by exfalso; apply Hn].
      destruct (decide (a ∈ a :: keys)) as [_|Hn]; [done|].
      exfalso; apply Hn; by left.
    + destruct (decide (a = k ∧ a < length m)) as [[? _]|_]; [congruence|].
      destruct (decide (k ∈ keys)) as [Hin|Hin];
        destruct (decide (k ∈ a :: keys)) as [Hin'|Hin']; try done.
      * exfalso; apply Hin'; by right.
      * by apply elem_of_cons in Hin' as [?|?].
Qed.

Lemma strip_from_filter (m : list (list nat)) (keys : list nat) (val : nat) :
  NoDup keys →
  (∀ k, NoDup (m !!! k)) →
  (∀ k, k ∈ keys ↔ val ∈ m !!! k) →
  ∃ m', strip_from remove_one m keys val = Some m' ∧
        length m' = length m ∧
        ∀ k, m' !!! k = filter (λ x, x ≠ val) (m !!! k).
Proof.
  intros Hnd Hndm Hkeys.
  destruct (strip_from_spec m keys val Hnd) as (m' & Hm' & Hlen & Hget).
  { intros k Hk. split; [done|]. by apply Hkeys. }
  exists m'. split; [done|]. split; [done|]. intros k. rewrite Hget.
  destruct (decide (k ∈ keys)) as [Hk|Hk]; [done|].
  symmetry. apply filter_ne_id. by rewrite <- Hkeys.
Qed.

Lemma block_target_spec (n : nat) (f2t t2f : list (list nat)) (i : nat) :
  maps_ok n f2t t2f →
  ∃ f2t' t2f', block_target remove_one (f2t, t2f) i = Some (f2t', t2f') ∧
               maps_ok n f2t' t2f' ∧
               ∀ f t, t ∈ f2t' !!! f ↔ t ∈ f2t !!! f ∧ t ≠ i.
Proof.
  intros Hok. unfold block_target.
  destruct (strip_from_filter f2t (t2f !!! i) i) as (f2t' & Hs & Hlen & Hget).
  { apply Hok. } { apply Hok. } { intros f. symmetry. apply Hok. }
  rewrite Hs. cbn [mbind option_bind]. eexists _, _. split; [done|].
  assert (∀ t, <[i := []]> t2f !!! t
               = if decide (t = i) then [] else t2f !!! t) as Ht2f.
  { intros t. rewrite list_lookup_total_insert.
    destruct (decide (t = i)) as [->|Hne].
    - destruct (decide (i = i ∧ i < length t2f)) as [_|Hn]; [done|].
      apply lookup_total_ge. apply not_and_l in Hn as [?|?]; [done|lia].
    - destruct (decide (i = t ∧ _)) as [[? _]|_]; [congruence|done]. }
  assert (∀ f t, t ∈ f2t' !!! f ↔ t ∈ f2t !!! f ∧ t ≠ i) as Hmem.
  { intros f t. rewrite Hget, list_elem_of_filter. tauto. }
  split; [|done]. split.
  - rewrite Hlen. apply Hok.
  - rewrite length_insert. apply Hok.
  - intros f. rewrite Hget. apply NoDup_filter, Hok.
  - intros t. rewrite Ht2f. destruct (decide (t = i)); [constructor|apply Hok].
  - intros f t. rewrite Hmem, Ht2f, (mok_inv n f2t t2f Hok).
    destruct (decide (t = i)) as [->|Hne].
    + split; [by intros [_ ?] | by intros ?%elem_of_nil].
    + tauto.
Qed.

Lemma block_targets_spec (n : nat) (f2t t2f : list (list nat))
    (tmp : list nat) :
  maps_ok n f2t t2f →
  ∃ f2t' t2f',
    foldM (block_target remove_one) tmp (f2t, t2f) = Some (f2t', t2f') ∧
    maps_ok n f2t' t2f' ∧
    ∀ f t, t ∈ f2t' !!! f ↔ t ∈ f2t !!! f ∧ t ∉ tmp.
Proof.
  revert f2t t2f. induction tmp as [|i tmp IH]; intros f2t t2f Hok.
  - exists f2t, t2f. split; [done|]. split; [done|]. intros f t.
    split; [intros ?; split; [done|apply not_elem_of_nil] | by intros [? _]].
  - cbn [foldM].
    destruct (block_target_spec n f2t t2f i Hok)
      as (f2t1 & t2f1 & -> & Hok1 & Hmem1).
    destruct (IH f2t1 t2f1 Hok1) as (f2t' & t2f' & Hf & Hok' & Hmem').
    exists f2t', t2f'. split; [done|]. split; [done|].
    intros f t. rewrite Hmem', Hmem1, not_elem_of_cons. tauto.
Qed.

(** [cleanup] keeps the mappings consistent and removes exactly the
    fiber and the targets in the blocking area. *)
Lemma cleanup_with_spec (n : nat) (tgt : list Target) (raster : fpraster)
    (f2t t2f : list (list nat)) (fiber itgt : nat) :
  maps_ok n f2t t2f →
  ∃ f2t' t2f',
    cleanup_with remove_one tgt raster f2t t2f fiber itgt
      = Some (f2t', t2f') ∧
    maps_ok n f2t' t2f' ∧
    ∀ f t, t ∈ f2t' !!! f ↔
           t ∈ f2t !!! f ∧ f ≠ fiber
           ∧ t ∉ query raster (tgt_pos (tgt !!! itgt)) colldist.
Proof.
  intros Hok. unfold cleanup_with.
  destruct (strip_from_filter t2f (f2t !!! fiber) fiber)
    as (t2f1 & Hs & Hlen & Hget).
  { apply Hok. } { apply Hok. } { intros t. apply Hok. }
  rewrite Hs. cbn [mbind option_bind].
  assert (∀ f, <[fiber := []]> f2t !!! f
               = if decide (f = fiber) then [] else f2t !!! f) as Hf2t.
  { intros f. rewrite list_lookup_total_insert.
    destruct (decide (f = fiber)) as [->|Hne].
    - destruct (decide (fiber = fiber ∧ fiber < length f2t)) as [_|Hn];
        [done|].
      apply lookup_total_ge. apply not_and_l in Hn as [?|?]; [done|lia].
    - destruct (decide (fiber = f ∧ _)) as [[? _]|_]; [congruence|done]. }
  assert (maps_ok n (<[fiber := []]> f2t) t2f1) as Hok1.
  { split.
    - rewrite length_insert. apply Hok.
    - rewrite Hlen. apply Hok.
    - intros f. rewrite Hf2t. destruct (decide (f = fiber)); [constructor|].
      apply Hok.
    - intros t. rewrite Hget. apply NoDup_filter, Hok.
    - intros f t. rewrite Hf2t, Hget, list_elem_of_filter.
      rewrite <- (mok_inv n f2t t2f Hok).
      destruct (decide (f = fiber)) as [->|Hne].
      + split; [by intros ?%elem_of_nil | by intros [? _]].
      + tauto. }
  destruct (block_targets_spec n _ _
              (query raster (tgt_pos (tgt !!! itgt)) colldist) Hok1)
    as (f2t' & t2f' & Hf & Hok' & Hmem').
  exists f2t', t2f'. split; [done|]. split; [done|].
  intros f t. rewrite Hmem', Hf2t.
  destruct (decide (f = fiber)) as [->|Hne].
  - split; [by intros [?%elem_of_nil _] | by intros (_ & ? & _)].
  - tauto.
Qed.
End cleanup_spec.

Lemma cleanup_spec (n : nat) (tgt : list Target) (raster : fpraster)
    (f2t t2f : list (list nat)) (fiber itgt : nat) :
  maps_ok n f2t t2f →
  ∃ f2t' t2f',
    cleanup tgt raster f2t t2f fiber itgt = Some (f2t', t2f') ∧
    maps_ok n f2t' t2f' ∧
    ∀ f t, t ∈ f2t' !!! f ↔
           t ∈ f2t !!! f ∧ f ≠ fiber
           ∧ t ∉ query raster (tgt_pos (tgt !!! itgt)) colldist.
Proof. apply cleanup_with_spec, stripout_NoDup. Qed.

(** Every [stripout] of a [cleanup] on consistent mappings finds exactly
    one occurrence. *)
Lemma cleanup_once (n : nat) (tgt : list Target) (raster : fpraster)
    (f2t t2f : list (list nat)) (fiber itgt : nat) :
  maps_ok n f2t t2f →
  cleanup_with stripout_once tgt raster f2t t2f fiber itgt
  = cleanup tgt raster f2t t2f fiber itgt.
Proof.
  intros Hok. unfold cleanup, cleanup_with.
  destruct (strip_from_filter stripout stripout_NoDup
              t2f (f2t !!! fiber) fiber) as (t2f1 & Hs & Hlen & Hget).
  { apply Hok. } { apply Hok. } { intros t. apply Hok. }
  destruct (strip_from_filter stripout_once stripout_once_NoDup
              t2f (f2t !!! fiber) fiber) as (t2f1' & Hs' & Hlen' & Hget').
  { apply Hok. } { apply Hok. } { intros t. apply Hok. }
  rewrite Hs, Hs'. cbn [mbind option_bind].
  assert (t2f1' = t2f1) as ->.
  { apply list_eq_same_length with (length t2f); [done..|].
    intros i x y Hi Hx Hy.
    apply list_lookup_total_correct in Hx, Hy. rewrite Hget' in Hx.
    rewrite Hget in Hy. congruence. }
  assert (maps_ok n (<[fiber := []]> f2t) t2f1) as Hok1.
  { split.
    - rewrite length_insert. apply Hok.
    - rewrite Hlen. apply Hok.
    - intros f. rewrite list_lookup_total_insert.
      destruct (decide (fiber = f ∧ _)); [constructor|apply Hok].
    - intros t. rewrite Hget. apply NoDup_filter, Hok.
    - intros f t. rewrite Hget, list_elem_of_filter.
      rewrite <- (mok_inv n f2t t2f Hok), list_lookup_total_insert.
      destruct (decide (fiber = f ∧ _)) as [[-> ?]|Hn].
      + split; [by intros ?%elem_of_nil | by intros [? _]].
      + split; [|tauto]. intros Ht. split; [|done]. intros ->.
        apply Hn. split; [done|]. by eapply elem_of_lookup_total_lt. }
  generalize (query raster (tgt_pos (tgt !!! itgt)) colldist).
  generalize dependent (<[fiber := []]> f2t). clear dependent t2f.
  intros f2t1 Hok1 tmp. revert f2t1 t2f1 Hok1.
  induction tmp as [|i tmp IH]; intros f2t1 t2f1 Hok1; [done|].
  cbn [foldM].
  assert (block_target stripout_once (f2t1, t2f1) i
          = block_target stripout (f2t1, t2f1) i) as ->.
  { unfold block_target.
    destruct (strip_from_filter stripout stripout_NoDup
                f2t1 (t2f1 !!! i) i) as (a & Ha & Hla & Hga).
    { apply Hok1. } { apply Hok1. } { intros f. symmetry. apply Hok1. }
    destruct (strip_from_filter stripout_once stripout_once_NoDup
                f2t1 (t2f1 !!! i) i) as (b & Hb & Hlb & Hgb).
    { apply Hok1. } { apply Hok1. } { intros f. symmetry. apply Hok1. }
    rewrite Ha, Hb. cbn [mbind option_bind]. do 2 f_equal.
    apply list_eq_same_length with (length f2t1); [done..|].
    intros j x y Hj Hx Hy.
    apply list_lookup_total_correct in Hx, Hy. rewrite Hgb in Hx.
    rewrite Hga in Hy. congruence. }
  destruct (block_target_spec stripout stripout_NoDup n f2t1 t2f1 i Hok1)
    as (f2t2 & t2f2 & -> & Hok2 & _).
  by apply IH.
Qed.

Lemma reachable_maps_ok (tgt : list Target) (raster : fpraster)
    (m : list (list nat) * list (list nat)) :
  raster_ok raster → fr_loc raster = tgt_pos <$> tgt →
  reachable_maps tgt raster m → maps_ok (length tgt) m.1 m.2.
Proof.
  intros Hok Hloc Hm. induction Hm as [|m fiber itgt m' _ IH Hc].
  - by apply calcMappings_ok.
  - destruct (cleanup_spec (length tgt) tgt raster m.1 m.2 fiber itgt IH)
      as (f2t' & t2f' & Hc' & Hok' & _).
    rewrite Hc in Hc'. by injection Hc' as ->.
Qed.

(** C8 (property P1).  On the mappings that [calcMappings] builds and that
    only [cleanup] calls change, every [stripout] invocation of a further
    [cleanup] finds exactly one occurrence of the value it removes, so
    neither its erasure nor its assertion fails; and invariant I1
    ([j ∈ F2T[i]] iff [i ∈ T2F[j]]) holds after [calcMappings] and after
    every [cleanup]. *)
Theorem stripout_finds_one (tgt : list Target) :
  tgt ≠ [] →
  ∃ raster, tgt2raster tgt 100 100 = Some raster ∧
    ∀ m, reachable_maps tgt raster m →
      (∀ i j, j ∈ m.1 !!! i ↔ i ∈ m.2 !!! j) ∧
      ∀ fiber itgt, ∃ m',
        cleanup_with stripout_once tgt raster m.1 m.2 fiber itgt = Some m' ∧
        cleanup tgt raster m.1 m.2 fiber itgt = Some m'.
Proof.
  intros Hne.
  destruct (tgt2raster_ok tgt 100 100 Hne) as (raster & Hr & Hok & Hloc);
    [lia | lia |].
  exists raster. split; [done|]. intros m Hm.
  pose proof (reachable_maps_ok tgt raster m Hok Hloc Hm) as Hmok.
  split; [apply Hmok|]. intros fiber itgt.
  destruct (cleanup_spec (length tgt) tgt raster m.1 m.2 fiber itgt Hmok)
    as (f2t' & t2f' & Hc & _).
  exists (f2t', t2f'). split; [|done].
  by rewrite (cleanup_once (length tgt)).
Qed.

Lemma stripout_finds_one_witness :
  [mkTarget (Vec2 (-20) (-100)) 10 1 7] ≠ [] ∧
  ∃ raster,
    tgt2raster [mkTarget (Vec2 (-20) (-100)) 10 1 7] 100 100 = Some raster ∧
    ∀ m, reachable_maps [mkTarget (Vec2 (-20) (-100)) 10 1 7] raster m →
      (∀ i j, j ∈ m.1 !!! i ↔ i ∈ m.2 !!! j) ∧
      ∀ fiber itgt, ∃ m',
        cleanup_with stripout_once [mkTarget (Vec2 (-20) (-100)) 10 1 7]
          raster m.1 m.2 fiber itgt = Some m' ∧
        cleanup [mkTarget (Vec2 (-20) (-100)) 10 1 7] raster m.1 m.2
          fiber itgt = Some m'.
Proof.
  split; [discriminate|].
  apply (stripout_finds_one [mkTarget (Vec2 (-20) (-100)) 10 1 7]).
  discriminate.
Defined.

(** ** Mutable priority queue *)

(** [lia] on [k / 2]. *)
Ltac Zify.zify_post_hook ::= Z.to_euclidean_division_equations.

Section pqueue_props.
Context {T : Type} `{!Inhabited T}.
Variable comp : T → T → bool.
Implicit Types (q : pqueue T) (p : T).

Lemma place_len_idx q i node :
  length (pq_idx (place q i node)) = length (pq_idx q).
Proof. unfold place. simpl. by rewrite length_insert. Qed.

Lemma place_len_nodes q i node :
  length (pq_nodes (place q i node)) = length (pq_nodes q).
Proof. unfold place. simpl. by rewrite length_alter. Qed.

Lemma place_idx q i node k :
  i < length (pq_idx q) →
  pq_idx (place q i node) !!! k
  = if decide (k = i) then node else pq_idx q !!! k.
Proof.
  intros Hi. unfold place. simpl. rewrite list_lookup_total_insert.
  destruct (decide (k = i)) as [->|Hne].
  - by rewrite decide_True.
  - rewrite decide_False; [done|]. by intros [-> _].
Qed.

Lemma place_pri q i node j :
  node_pri (pq_nodes (place q i node) !!! j) = node_pri (pq_nodes q !!! j).
Proof.
  unfold place. simpl. rewrite list_lookup_total_alter.
  destruct (decide _) as [[<- _]|_]; done.
Qed.

Lemma place_pos q i node j :
  i < length (pq_idx q) → node < length (pq_nodes q) →
  node_pos (pq_nodes (place q i node) !!! j)
  = if decide (j = node) then i else node_pos (pq_nodes q !!! j).
Proof.
  intros Hi Hnode. unfold place. simpl.
  rewrite list_lookup_total_insert_eq by done.
  rewrite list_lookup_total_alter.
  destruct (decide (j = node)) as [->|Hne].
  - by rewrite decide_True.
  - rewrite decide_False; [done|]. by intros [-> _].
Qed.

Lemma place_key q i node k :
  i < length (pq_idx q) →
  key (place q i node) k
  = if decide (k = i) then node_pri (pq_nodes q !!! node) else key q k.
Proof.
  intros Hi. unfold key. rewrite place_pri, place_idx by done.
  by destruct (decide (k = i)).
Qed.

(** *** The structure of the queue during a sift *)

Lemma wf_hole q i :
  pq_wf q → 1 ≤ i ≤ length (pq_nodes q) → hole_wf q i (pq_idx q !!! i).
Proof.
  intros [Hlen Hidx Hpos] Hi. split; [done | done | by apply Hidx | |].
  - intros k Hk Hne. destruct (Hidx k Hk) as [Hlt Hp].
    split; [done|]. split; [|done]. intros Heq.
    destruct (Hidx i Hi) as [_ Hp']. rewrite Heq in Hp. congruence.
  - intros j Hj Hne. destruct (Hpos j Hj) as [Hr Hp].
    split; [done|]. split; [|done]. intros Heq.
    rewrite Heq in Hp. congruence.
Qed.

Lemma hole_wf_fill q i m : hole_wf q i m → pq_wf (place q i m).
Proof.
  intros [Hlen Hi Hm Hidx Hpos].
  assert (i < length (pq_idx q)) as Hi' by lia.
  split.
  - by rewrite place_len_idx, place_len_nodes.
  - intros k. rewrite place_len_nodes. intros Hk.
    rewrite place_idx, place_pos by done.
    destruct (decide (k = i)) as [->|Hne].
    + by rewrite decide_True.
    + destruct (Hidx k Hk Hne) as (? & ? & ?). by rewrite decide_False.
  - intros j. rewrite place_len_nodes. intros Hj.
    rewrite place_pos by done.
    destruct (decide (j = m)) as [->|Hne].
    + rewrite place_idx by done. by rewrite decide_True.
    + destruct (Hpos j Hj Hne) as (? & ? & ?).
      rewrite place_idx by done. by rewrite decide_False.
Qed.

Lemma hole_wf_step q i m c :
  hole_wf q i m → 1 ≤ c ≤ length (pq_nodes q) → c ≠ i →
  hole_wf (place q i (pq_idx q !!! c)) c m.
Proof.
  intros [Hlen Hi Hm Hidx Hpos] Hc Hci.
  assert (i < length (pq_idx q)) as Hi' by lia.
  destruct (Hidx c Hc Hci) as (Hjc & Hjcm & Hjcp).
  split.
  - by rewrite place_len_idx, place_len_nodes.
  - by rewrite place_len_nodes.
  - by rewrite place_len_nodes.
  - intros k. rewrite place_len_nodes. intros Hk Hkc.
    rewrite place_idx, place_pos by done.
    destruct (decide (k = i)) as [->|Hne].
    + by rewrite decide_True.
    + destruct (Hidx k Hk Hne) as (? & ? & Hkp).
      split; [done|]. split; [done|].
      rewrite decide_False; [done|]. intros Heq. rewrite Heq in Hkp.
      congruence.
  - intros j. rewrite place_len_nodes. intros Hj Hjm.
    rewrite place_pos by done.
    destruct (decide (j = pq_idx q !!! c)) as [->|Hne].
    + rewrite place_idx by done. by rewrite decide_True.
    + destruct (Hpos j Hj Hjm) as (? & ? & Hjp).
      rewrite place_idx by done. rewrite decide_False by done.
      split; [done|]. split; [|done]. intros Heq. rewrite Heq in Hjp.
      congruence.
Qed.
End pqueue_props.

Section pqueue_order.
Context {T : Type} `{!Inhabited T}.
Variable comp : T → T → bool.
Hypothesis comp_sw : strict_weak comp.
Implicit Types (q : pqueue T) (p : T).

Lemma comp_asym (x y : T) : comp x y = true → comp y x = false.
Proof.
  intros Hxy. destruct (comp y x) eqn:Hyx; [|done].
  pose proof (sw_trans comp comp_sw x y x Hxy Hyx) as Hxx.
  by rewrite (sw_irrefl comp comp_sw) in Hxx.
Qed.

Lemma comp_lt_negtrans (x y z : T) :
  comp x y = true → comp x z = false → comp y z = false.
Proof.
  intros Hxy Hxz. destruct (comp y z) eqn:Hyz; [|done].
  pose proof (sw_trans comp comp_sw x y z Hxy Hyz). congruence.
Qed.

(** *** [maxchild] *)

Lemma maxchild_spec q i :
  length (pq_idx q) = S (length (pq_nodes q)) → 1 ≤ i →
  (maxchild comp q i = 0 ∧ length (pq_nodes q) < 2 * i) ∨
  (maxchild comp q i / 2 = i ∧ 2 ≤ maxchild comp q i ≤ length (pq_nodes q) ∧
   ∀ k, 2 ≤ k ≤ length (pq_nodes q) → k / 2 = i →
        comp (key q (maxchild comp q i)) (key q k) = false).
Proof.
  intros Hlen Hi. unfold maxchild. rewrite Hlen.
  destruct (S (length (pq_nodes q)) <=? 2 * i) eqn:E1.
  { apply Nat.leb_le in E1. left. lia. }
  apply Nat.leb_gt in E1. right.
  destruct (2 * i + 1 <? S (length (pq_nodes q))) eqn:E2; cbn [andb].
  - apply Nat.ltb_lt in E2.
    destruct (comp (key q (2 * i)) (key q (2 * i + 1))) eqn:E3.
    + split; [lia|]. split; [lia|]. intros k Hk Hk2.
      assert (k = 2 * i ∨ k = 2 * i + 1) as [->| ->] by lia.
      * by apply comp_asym.
      * apply (sw_irrefl comp comp_sw).
    + split; [lia|]. split; [lia|]. intros k Hk Hk2.
      assert (k = 2 * i ∨ k = 2 * i + 1) as [->| ->] by lia.
      * apply (sw_irrefl comp comp_sw).
      * done.
  - apply Nat.ltb_ge in E2.
    split; [lia|]. split; [lia|]. intros k Hk Hk2.
    assert (k = 2 * i) as -> by lia. apply (sw_irrefl comp comp_sw).
Qed.

(** *** [sift_down] *)

Lemma down_pre_step b p q i m :
  hole_wf q i m → down_pre comp b p q i → b ≤ i →
  maxchild comp q i ≠ 0 → comp p (key q (maxchild comp q i)) = true →
  down_pre comp b p (place q i (pq_idx q !!! maxchild comp q i))
           (maxchild comp q i).
Proof.
  intros Hw [Hd1 Hd2] Hb Hc0 Hlt.
  destruct (maxchild_spec q i (hw_len q i m Hw)) as [[? _]|(Hc2 & Hc & Hmax)];
    [apply Hw | done |].
  set (c := maxchild comp q i) in *.
  assert (i < length (pq_idx q)) as Hi'
    by (rewrite (hw_len q i m Hw); pose proof (hw_i q i m Hw); lia).
  assert (∀ k, key (place q i (pq_idx q !!! c)) k
               = if decide (k = i) then key q c else key q k) as Hkey.
  { intros k. by rewrite place_key. }
  pose proof (hw_i q i m Hw) as Hi.
  split; rewrite place_len_nodes.
  - intros k Hk Hbk Hkc. unfold vkey. rewrite Hkey.
    destruct (decide (k = c)) as [->|Hne].
    + rewrite decide_True by done. by apply comp_asym.
    + rewrite Hkey. destruct (decide (k / 2 = i)) as [Hk2|Hk2].
      * rewrite decide_False by lia. by apply Hmax.
      * destruct (decide (k = i)) as [->|Hki].
        -- apply Hd2; (done || lia).
        -- specialize (Hd1 k Hk Hbk Hk2). unfold vkey in Hd1.
           by rewrite decide_False in Hd1.
  - intros k Hk Hk2 Hbc Hc2'. rewrite !Hkey.
    rewrite decide_True by lia. rewrite decide_False by lia.
    assert (b ≤ k / 2) as Hbk by lia.
    assert (k / 2 ≠ i) as Hki by lia.
    specialize (Hd1 k Hk Hbk Hki). unfold vkey in Hd1.
    rewrite decide_False in Hd1 by lia. by rewrite Hk2 in Hd1.
Qed.

Lemma down_pre_exit b p q i m :
  hole_wf q i m → down_pre comp b p q i →
  node_pri (pq_nodes q !!! m) = p →
  negb (maxchild comp q i =? 0) && comp p (key q (maxchild comp q i))
  = false →
  heap_from comp b (place q i m).
Proof.
  intros Hw [Hd1 Hd2] Hp Hexit.
  pose proof (hw_i q i m Hw) as Hi.
  assert (i < length (pq_idx q)) as Hi' by (rewrite (hw_len q i m Hw); lia).
  assert (∀ k, key (place q i m) k = vkey p q i k) as Hkey.
  { intros k. rewrite place_key by done. unfold vkey. by rewrite Hp. }
  intros k. rewrite place_len_nodes. intros Hk Hbk. rewrite !Hkey.
  destruct (decide (k / 2 = i)) as [Hk2|Hk2].
  - unfold vkey. rewrite decide_True by done. rewrite decide_False by lia.
    destruct (maxchild_spec q i (hw_len q i m Hw))
      as [[? ?]|(Hc2 & Hc & Hmax)]; [lia | lia |].
    apply andb_false_iff in Hexit as [Hexit|Hexit].
    + apply negb_false_iff, Nat.eqb_eq in Hexit. lia.
    + eapply (sw_negtrans comp comp_sw); [exact Hexit|]. by apply Hmax.
  - unfold vkey at 1. rewrite decide_False by done. by apply Hd1.
Qed.

Lemma sift_down_loop_spec b m p fuel : ∀ q i q' i',
  hole_wf q i m → node_pri (pq_nodes q !!! m) = p →
  down_pre comp b p q i → b ≤ i →
  length (pq_nodes q) < i + fuel →
  sift_down_loop comp fuel p q i = (q', i') →
  hole_wf q' i' m
  ∧ (∀ j, node_pri (pq_nodes q' !!! j) = node_pri (pq_nodes q !!! j))
  ∧ length (pq_nodes q') = length (pq_nodes q)
  ∧ heap_from comp b (place q' i' m).
Proof.
  induction fuel as [|fuel IH]; intros q i q' i' Hw Hp Hd Hb Hfuel Hloop.
  { pose proof (hw_i q i m Hw). lia. }
  cbn [sift_down_loop] in Hloop.
  destruct (negb (maxchild comp q i =? 0)
            && comp p (key q (maxchild comp q i))) eqn:Hcond.
  - apply andb_true_iff in Hcond as [Hc0 Hlt].
    apply negb_true_iff, Nat.eqb_neq in Hc0.
    destruct (maxchild_spec q i (hw_len q i m Hw))
      as [[? _]|(Hc2 & Hc & _)]; [apply Hw | done |].
    apply IH in Hloop as (Hw' & Hpri & Hlen & Hheap).
    + split; [done|]. split; [|split; [|done]].
      * intros j. by rewrite Hpri, place_pri.
      * by rewrite Hlen, place_len_nodes.
    + apply hole_wf_step; [done | lia | lia].
    + by rewrite place_pri.
    + by apply (down_pre_step b p q i m).
    + lia.
    + rewrite place_len_nodes. lia.
  - injection Hloop as <- <-. split; [done|]. split; [done|]. split; [done|].
    by apply (down_pre_exit b p).
Qed.

Lemma sift_down_spec b q i :
  pq_wf q → 1 ≤ i ≤ length (pq_nodes q) → b ≤ i →
  down_pre comp b (key q i) q i →
  pq_wf (sift_down comp q i)
  ∧ heap_from comp b (sift_down comp q i)
  ∧ (∀ j, node_pri (pq_nodes (sift_down comp q i) !!! j)
          = node_pri (pq_nodes q !!! j))
  ∧ length (pq_nodes (sift_down comp q i)) = length (pq_nodes q).
Proof.
  intros Hwf Hi Hb Hd. unfold sift_down.
  destruct (sift_down_loop comp (length (pq_idx q))
              (node_pri (pq_nodes q !!! (pq_idx q !!! i))) q i)
    as [q' i'] eqn:Hloop.
  eapply (sift_down_loop_spec b) in Hloop as (Hw' & Hpri & Hlen & Hheap);
    [| by apply wf_hole | done | exact Hd | done
     | rewrite (wf_len q Hwf); lia].
  split; [by apply hole_wf_fill|]. split; [done|]. split.
  - intros j. by rewrite place_pri.
  - by rewrite place_len_nodes.
Qed.
(** *** [sift_up] *)

Lemma up_pre_step p q i m :
  hole_wf q i m → up_pre comp p q i → 1 < i →
  comp (key q (i / 2)) p = true →
  up_pre comp p (place q i (pq_idx q !!! (i / 2))) (i / 2).
Proof.
  intros Hw [Hu1 Hu2] Hi1 Hlt.
  pose proof (hw_i q i m Hw) as Hi.
  assert (i < length (pq_idx q)) as Hi' by (rewrite (hw_len q i m Hw); lia).
  assert (∀ k, key (place q i (pq_idx q !!! (i / 2))) k
               = if decide (k = i) then key q (i / 2) else key q k) as Hkey.
  { intros k. by rewrite place_key. }
  assert (∀ k, 2 ≤ k ≤ length (pq_nodes q) → k ≠ i → k / 2 ≠ i →
               comp (key q (k / 2)) (key q k) = false) as Hu1'.
  { intros k Hk Hki Hk2. specialize (Hu1 k Hk Hki). unfold vkey in Hu1.
    by rewrite decide_False in Hu1. }
  split; rewrite place_len_nodes.
  - intros k Hk Hkp. unfold vkey. rewrite !Hkey.
    destruct (decide (k = i)) as [->|Hki].
    + rewrite decide_True by done. by apply comp_asym.
    + destruct (decide (k / 2 = i / 2)) as [Hk2|Hk2].
      * eapply comp_lt_negtrans; [exact Hlt|]. rewrite <- Hk2.
        apply Hu1'; (done || lia).
      * destruct (decide (k / 2 = i)) as [Hk2i|Hk2i].
        -- apply Hu2; (done || lia).
        -- by apply Hu1'.
  - intros k Hk Hk2 Hp2. rewrite !Hkey. rewrite decide_False by lia.
    assert (comp (key q (i / 2 / 2)) (key q (i / 2)) = false) as Hpp
      by (apply Hu1'; lia).
    destruct (decide (k = i)) as [->|Hki]; [exact Hpp|].
    eapply (sw_negtrans comp comp_sw); [exact Hpp|]. rewrite <- Hk2.
    apply Hu1'; (done || lia).
Qed.

Lemma up_pre_exit p q i m :
  hole_wf q i m → up_pre comp p q i →
  node_pri (pq_nodes q !!! m) = p →
  (1 <? i) && comp (key q (i / 2)) p = false →
  heap_from comp 1 (place q i m).
Proof.
  intros Hw [Hu1 Hu2] Hp Hexit.
  pose proof (hw_i q i m Hw) as Hi.
  assert (i < length (pq_idx q)) as Hi' by (rewrite (hw_len q i m Hw); lia).
  assert (∀ k, key (place q i m) k = vkey p q i k) as Hkey.
  { intros k. rewrite place_key by done. unfold vkey. by rewrite Hp. }
  intros k. rewrite place_len_nodes. intros Hk _. rewrite !Hkey.
  destruct (decide (k = i)) as [->|Hki].
  - unfold vkey. rewrite decide_False by lia. rewrite decide_True by done.
    apply andb_false_iff in Hexit as [Hexit|Hexit]; [|done].
    apply Nat.ltb_ge in Hexit. lia.
  - unfold vkey at 2. rewrite decide_False by done. by apply Hu1.
Qed.

Lemma sift_up_loop_spec m p fuel : ∀ q i q' i',
  hole_wf q i m → node_pri (pq_nodes q !!! m) = p →
  up_pre comp p q i → i ≤ fuel →
  sift_up_loop comp fuel p q i = (q', i') →
  hole_wf q' i' m
  ∧ (∀ j, node_pri (pq_nodes q' !!! j) = node_pri (pq_nodes q !!! j))
  ∧ length (pq_nodes q') = length (pq_nodes q)
  ∧ heap_from comp 1 (place q' i' m).
Proof.
  induction fuel as [|fuel IH]; intros q i q' i' Hw Hp Hu Hfuel Hloop.
  { pose proof (hw_i q i m Hw). lia. }
  cbn [sift_up_loop] in Hloop.
  destruct ((1 <? i) && comp (key q (i / 2)) p) eqn:Hcond.
  - apply andb_true_iff in Hcond as [Hi1 Hlt]. apply Nat.ltb_lt in Hi1.
    pose proof (hw_i q i m Hw) as Hi.
    apply IH in Hloop as (Hw' & Hpri & Hlen & Hheap).
    + split; [done|]. split; [|split; [|done]].
      * intros j. by rewrite Hpri, place_pri.
      * by rewrite Hlen, place_len_nodes.
    + apply hole_wf_step; [done | lia | lia].
    + by rewrite place_pri.
    + by apply (up_pre_step p q i m).
    + lia.
  - injection Hloop as <- <-. split; [done|]. split; [done|]. split; [done|].
    by apply (up_pre_exit p).
Qed.

Lemma sift_up_spec q i :
  pq_wf q → 1 ≤ i ≤ length (pq_nodes q) →
  up_pre comp (key q i) q i →
  pq_wf (sift_up comp q i)
  ∧ heap_from comp 1 (sift_up comp q i)
  ∧ (∀ j, node_pri (pq_nodes (sift_up comp q i) !!! j)
          = node_pri (pq_nodes q !!! j))
  ∧ length (pq_nodes (sift_up comp q i)) = length (pq_nodes q).
Proof.
  intros Hwf Hi Hu. unfold sift_up.
  destruct (sift_up_loop comp i
              (node_pri (pq_nodes q !!! (pq_idx q !!! i))) q i)
    as [q' i'] eqn:Hloop.
  eapply sift_up_loop_spec in Hloop as (Hw' & Hpri & Hlen & Hheap);
    [| by apply wf_hole | done | exact Hu | done].
  split; [by apply hole_wf_fill|]. split; [done|]. split.
  - intros j. by rewrite place_pri.
  - by rewrite place_len_nodes.
Qed.
(** *** [heapify] and the constructor *)

Lemma heap_from_down_pre q i :
  heap_from comp (S i) q → 1 ≤ i → down_pre comp i (key q i) q i.
Proof.
  intros Hh Hi. split.
  - intros k Hk Hik Hne. unfold vkey.
    destruct (decide (k = i)) as [->|_]; apply Hh; (done || lia).
  - intros k Hk Hk2 Hi2 Hi'. lia.
Qed.

Lemma heapify_loop_spec j : ∀ q,
  pq_wf q → heap_from comp (S j) q → j ≤ length (pq_nodes q) →
  pq_wf (fold_left (sift_down comp) (rev (seq 1 j)) q)
  ∧ heap_from comp 1 (fold_left (sift_down comp) (rev (seq 1 j)) q)
  ∧ (∀ i, node_pri (pq_nodes (fold_left (sift_down comp) (rev (seq 1 j)) q)
                    !!! i)
          = node_pri (pq_nodes q !!! i))
  ∧ length (pq_nodes (fold_left (sift_down comp) (rev (seq 1 j)) q))
    = length (pq_nodes q).
Proof.
  induction j as [|j IH]; intros q Hwf Hh Hj; [done|].
  rewrite seq_S, rev_unit. cbn [fold_left].
  destruct (sift_down_spec (1 + j) q (1 + j)) as (Hwf1 & Hh1 & Hpri1 & Hlen1);
    [done | lia | done | by apply heap_from_down_pre; [|lia] |].
  destruct (IH (sift_down comp q (1 + j))) as (Hwf2 & Hh2 & Hpri2 & Hlen2);
    [done | done | lia |].
  split; [done|]. split; [done|]. split.
  - intros i. by rewrite Hpri2, Hpri1.
  - by rewrite Hlen2, Hlen1.
Qed.

Lemma heapify_spec q :
  pq_wf q →
  pq_wf (heapify comp q)
  ∧ heap_from comp 1 (heapify comp q)
  ∧ (∀ i, node_pri (pq_nodes (heapify comp q) !!! i)
          = node_pri (pq_nodes q !!! i))
  ∧ length (pq_nodes (heapify comp q)) = length (pq_nodes q).
Proof.
  intros Hwf. unfold heapify. pose proof (wf_len q Hwf) as Hlen.
  apply heapify_loop_spec; [done| |lia].
  intros k Hk Hk2. lia.
Qed.

Lemma pqueue_new_spec (pri : list T) :
  pq_wf (pqueue_new comp pri)
  ∧ heap_from comp 1 (pqueue_new comp pri)
  ∧ length (pq_nodes (pqueue_new comp pri)) = length pri
  ∧ ∀ i, i < length pri → priority (pqueue_new comp pri) i = pri !!! i.
Proof.
  unfold pqueue_new.
  set (q0 := mkPqueue (imap (λ i p, mkNode p (i + 1)) pri)
                      (0 :: seq 0 (length pri))).
  assert (length (pq_nodes q0) = length pri) as Hn
    by (simpl; by rewrite length_imap).
  assert (∀ i, i < length pri →
               pq_nodes q0 !!! i = mkNode (pri !!! i) (i + 1)) as Hnode.
  { intros i Hi. apply list_lookup_total_correct. simpl.
    rewrite list_lookup_imap.
    by rewrite (list_lookup_lookup_total_lt pri i Hi). }
  assert (∀ k, 1 ≤ k ≤ length pri → pq_idx q0 !!! k = k - 1) as Hidx.
  { intros k Hk. destruct k as [|k]; [lia|].
    apply list_lookup_total_correct. cbn [pq_idx q0].
    rewrite lookup_cons. rewrite lookup_seq_lt by lia. f_equal. lia. }
  assert (pq_wf q0) as Hwf.
  { split.
    - rewrite Hn. simpl. by rewrite length_seq.
    - intros k. rewrite Hn. intros Hk. rewrite Hidx by done.
      rewrite Hnode by lia. simpl. lia.
    - intros i. rewrite Hn. intros Hi. rewrite Hnode by done. simpl.
      rewrite Hidx by lia. lia. }
  destruct (heapify_spec q0 Hwf) as (Hwf' & Hh & Hpri & Hlen).
  split; [done|]. split; [done|]. split; [by rewrite Hlen|].
  intros i Hi. unfold priority. rewrite Hpri, Hnode by done. done.
Qed.

(** *** [set_priority] *)

Lemma set_priority_spec q (new_pri : T) (pos : nat) :
  pq_wf q → heap_from comp 1 q → pos < length (pq_nodes q) →
  pq_wf (set_priority comp q new_pri pos)
  ∧ heap_from comp 1 (set_priority comp q new_pri pos)
  ∧ length (pq_nodes (set_priority comp q new_pri pos))
    = length (pq_nodes q)
  ∧ ∀ j, priority (set_priority comp q new_pri pos) j
         = if decide (j = pos) then new_pri else priority q j.
Proof.
  intros Hwf Hh Hpos. unfold set_priority.
  set (q1 := mkPqueue (alter (set_pri new_pri) pos (pq_nodes q)) (pq_idx q)).
  set (old_pri := node_pri (pq_nodes q !!! pos)).
  assert (length (pq_nodes q1) = length (pq_nodes q)) as Hn
    by (simpl; by rewrite length_alter).
  assert (∀ j, node_pos (pq_nodes q1 !!! j) = node_pos (pq_nodes q !!! j))
    as Hposf.
  { intros j. simpl. rewrite list_lookup_total_alter.
    destruct (decide _) as [[<- _]|_]; done. }
  assert (∀ j, node_pri (pq_nodes q1 !!! j)
               = if decide (j = pos) then new_pri
                 else node_pri (pq_nodes q !!! j)) as Hprif.
  { intros j. simpl. rewrite list_lookup_total_alter.
    destruct (decide (j = pos)) as [->|Hne].
    - by rewrite decide_True.
    - rewrite decide_False; [done|]. by intros [-> _]. }
  assert (pq_wf q1) as Hwf1.
  { destruct Hwf as [Hlen Hidx Hp]. split.
    - by rewrite Hn.
    - intros k. rewrite Hn, Hposf. apply Hidx.
    - intros i. rewrite Hn, Hposf. apply Hp. }
  destruct (wf_pos q Hwf pos Hpos) as [Hposn Hidxn].
  set (posn := node_pos (pq_nodes q !!! pos)) in *.
  assert (∀ k, 1 ≤ k ≤ length (pq_nodes q) →
               key q1 k = if decide (k = posn) then new_pri else key q k)
    as Hkey.
  { intros k Hk. unfold key. rewrite Hprif. simpl.
    destruct (wf_idx q Hwf k Hk) as [_ Hkp].
    destruct (decide (k = posn)) as [->|Hne].
    - by rewrite decide_True.
    - rewrite decide_False; [done|]. intros Heq. rewrite Heq in Hkp.
      by apply Hne. }
  assert (key q posn = old_pri) as Hold
    by (unfold key; by rewrite Hidxn).
  assert (∀ k, 2 ≤ k ≤ length (pq_nodes q) →
               comp (key q (k / 2)) (key q k) = false) as Hh'
    by (intros k Hk; apply Hh; lia).
  assert (∀ k, 2 ≤ k ≤ length (pq_nodes q1) → k / 2 = posn → 2 ≤ posn →
               comp (key q1 (posn / 2)) (key q1 k) = false) as Hgrand.
  { intros k. rewrite Hn. intros Hk Hk2 Hp2. rewrite !Hkey by lia.
    rewrite !decide_False by lia.
    eapply (sw_negtrans comp comp_sw); [apply Hh'; lia|].
    rewrite <- Hk2. by apply Hh'. }
  assert (node_pos (pq_nodes q1 !!! pos) = posn) as -> by apply Hposf.
  assert (key q1 posn = new_pri) as Hnew
    by (rewrite Hkey by done; by rewrite decide_True).
  assert (∀ q', (∀ j, node_pri (pq_nodes q' !!! j)
                     = node_pri (pq_nodes q1 !!! j)) →
                ∀ j, priority q' j
                     = if decide (j = pos) then new_pri else priority q j)
    as Hfin.
  { intros q' Hq' j. unfold priority. by rewrite Hq', Hprif. }
  destruct (comp old_pri new_pri) eqn:Hcmp.
  - destruct (sift_up_spec q1 posn) as (Hwf2 & Hh2 & Hpri2 & Hlen2);
      [done | by rewrite Hn | |].
    { rewrite Hnew. split; [|exact Hgrand].
      intros k. rewrite Hn. intros Hk Hne. unfold vkey.
      rewrite (Hkey k) by lia. rewrite (decide_False (P := k = posn)) by done.
      destruct (decide (k / 2 = posn)) as [Hk2|Hk2].
      - eapply comp_lt_negtrans; [exact Hcmp|].
        rewrite <- Hold, <- Hk2. by apply Hh'.
      - rewrite Hkey by lia. rewrite decide_False by done. by apply Hh'. }
    split; [done|]. split; [done|]. split; [by rewrite Hlen2|].
    by apply Hfin.
  - destruct (sift_down_spec 1 q1 posn) as (Hwf2 & Hh2 & Hpri2 & Hlen2);
      [done | by rewrite Hn | lia | |].
    { rewrite Hnew. split; [|intros k Hk Hk2 _; by apply Hgrand].
      intros k. rewrite Hn. intros Hk _ Hk2. unfold vkey.
      rewrite Hkey by lia. rewrite decide_False by done.
      destruct (decide (k = posn)) as [->|Hne].
      - eapply (sw_negtrans comp comp_sw); [by apply Hh'|].
        by rewrite Hold.
      - rewrite Hkey by lia. rewrite decide_False by done. by apply Hh'. }
    split; [done|]. split; [done|]. split; [by rewrite Hlen2|].
    by apply Hfin.
Qed.

(** *** [top] *)

Lemma heap_root_max q :
  pq_wf q → heap_from comp 1 q →
  ∀ k, 1 ≤ k ≤ length (pq_nodes q) → comp (key q 1) (key q k) = false.
Proof.
  intros Hwf Hh k. induction (lt_wf k) as [k _ IH]. intros Hk.
  destruct (decide (k = 1)) as [->|Hne]; [apply (sw_irrefl comp comp_sw)|].
  eapply (sw_negtrans comp comp_sw); [apply (IH (k / 2)); lia|].
  apply Hh; lia.
Qed.

Lemma top_spec q :
  pq_wf q → heap_from comp 1 q → 0 < length (pq_nodes q) →
  top q < length (pq_nodes q)
  ∧ top_priority q = priority q (top q)
  ∧ ∀ j, j < length (pq_nodes q) →
         comp (priority q (top q)) (priority q j) = false.
Proof.
  intros Hwf Hh Hn. unfold top, top_priority, priority.
  destruct (wf_idx q Hwf 1) as [Htop _]; [lia|].
  split; [done|]. split; [done|]. intros j Hj.
  destruct (wf_pos q Hwf j Hj) as [Hr Hp].
  pose proof (heap_root_max q Hwf Hh _ Hr) as Hmax.
  unfold key in Hmax. by rewrite Hp in Hmax.
Qed.
End pqueue_order.

(** ** The comparator of [pq_entry] *)

Lemma pq_entry_lt_true (a b : pq_entry) :
  pq_entry_lt a b = true ↔
  (pe_pri b < pe_pri a)%Z ∨ (pe_pri a = pe_pri b ∧ (pe_prox a < pe_prox b)%Q).
Proof.
  unfold pq_entry_lt. destruct (pe_pri a =? pe_pri b)%Z eqn:E; simpl.
  - apply Z.eqb_eq in E. rewrite Qlt_bool_iff. split; [by right|].
    intros [?|[_ ?]]; [lia|done].
  - apply Z.eqb_neq in E. rewrite Z.ltb_lt. split; [by left|].
    intros [?|[? _]]; [done|lia].
Qed.

Lemma pq_entry_lt_false (a b : pq_entry) :
  pq_entry_lt a b = false ↔
  (pe_pri a < pe_pri b)%Z ∨ (pe_pri a = pe_pri b ∧ (pe_prox b <= pe_prox a)%Q).
Proof.
  unfold pq_entry_lt. destruct (pe_pri a =? pe_pri b)%Z eqn:E; simpl.
  - apply Z.eqb_eq in E. rewrite Qlt_bool_false. split; [by right|].
    intros [?|[_ ?]]; [lia|done].
  - apply Z.eqb_neq in E. rewrite Z.ltb_ge. split; [intros ?; left; lia|].
    intros [?|[? _]]; lia.
Qed.

Lemma pq_entry_lt_sw : strict_weak pq_entry_lt.
Proof.
  split.
  - intros x. apply pq_entry_lt_false. right. split; [done|apply Qle_refl].
  - intros x y z [H1|[H1 H1']]%pq_entry_lt_true [H2|[H2 H2']]%pq_entry_lt_true;
      apply pq_entry_lt_true; [left; lia | left; lia | left; lia |].
    right. split; [congruence|]. by eapply Qlt_trans.
  - intros x y z [H1|[H1 H1']]%pq_entry_lt_false
      [H2|[H2 H2']]%pq_entry_lt_false;
      apply pq_entry_lt_false; [left; lia | left; lia | left; lia |].
    right. split; [congruence|]. by eapply Qle_trans.
Qed.

Lemma run_updates_spec (ups : list (pq_entry * nat)) :
  ∀ (q : pqueue pq_entry) (cur : list pq_entry),
    pq_wf q → heap_from pq_entry_lt 1 q →
    length (pq_nodes q) = length cur →
    (∀ j, j < length cur → priority q j = cur !!! j) →
    Forall (λ u, u.2 < length cur) ups →
    pq_wf (run_updates q ups)
    ∧ heap_from pq_entry_lt 1 (run_updates q ups)
    ∧ length (pq_nodes (run_updates q ups)) = length cur
    ∧ length (apply_updates cur ups) = length cur
    ∧ ∀ j, j < length cur →
           priority (run_updates q ups) j = apply_updates cur ups !!! j.
Proof.
  induction ups as [|[p pos] ups IH]; intros q cur Hwf Hh Hlen Hpri Hups.
  - done.
  - apply Forall_cons in Hups as [Hpos Hups]. simpl in Hpos.
    unfold run_updates, apply_updates. cbn [fold_left fst snd].
    destruct (set_priority_spec pq_entry_lt pq_entry_lt_sw q p pos)
      as (Hwf1 & Hh1 & Hlen1 & Hpri1); [done | done | lia |].
    destruct (IH (set_priority pq_entry_lt q p pos) (<[pos := p]> cur))
      as (Hwf2 & Hh2 & Hlen2 & Hlen3 & Hpri2).
    + done.
    + done.
    + by rewrite Hlen1, length_insert.
    + intros j. rewrite length_insert. intros Hj.
      rewrite Hpri1, list_lookup_total_insert.
      destruct (decide (j = pos)) as [->|Hne].
      * by rewrite decide_True.
      * rewrite decide_False by (by intros [-> _]). by apply Hpri.
    + by rewrite length_insert.
    + rewrite length_insert in *. done.
Qed.

(** C5.  After building the queue from a non-empty vector of [(prox, pri)]
    entries and any sequence of [set_priority] calls on its positions,
    [top()] is a position whose current entry has the smallest [pri] of all
    current entries and, among those with that [pri], the largest [prox].
    Built from [[{prox=1,pri=5}, {prox=2,pri=5}, {prox=0,pri=3}]] the queue
    has [top() == 2], and after [set_priority({prox=0,pri=10}, 2)] it has
    [top() == 1]. *)
Theorem top_is_best (pri : list pq_entry) (ups : list (pq_entry * nat)) :
  pri ≠ [] → Forall (λ u, u.2 < length pri) ups →
  (top (run_updates (pqueue_new pq_entry_lt pri) ups) < length pri
   ∧ ∀ j, j < length pri →
       priority (run_updates (pqueue_new pq_entry_lt pri) ups) j
       = apply_updates pri ups !!! j
       ∧ (pe_pri (apply_updates pri ups
                  !!! top (run_updates (pqueue_new pq_entry_lt pri) ups))
          ≤ pe_pri (apply_updates pri ups !!! j))%Z
       ∧ (pe_pri (apply_updates pri ups !!! j)
          = pe_pri (apply_updates pri ups
                    !!! top (run_updates (pqueue_new pq_entry_lt pri) ups)) →
          (pe_prox (apply_updates pri ups !!! j)
           <= pe_prox (apply_updates pri ups
                       !!! top (run_updates (pqueue_new pq_entry_lt pri) ups))
          )%Q))
  ∧ top (pqueue_new pq_entry_lt [mkEntry 1 5; mkEntry 2 5; mkEntry 0 3]) = 2
  ∧ top (set_priority pq_entry_lt
           (pqueue_new pq_entry_lt [mkEntry 1 5; mkEntry 2 5; mkEntry 0 3])
           (mkEntry 0 10) 2) = 1.
Proof.
  intros Hne Hups. split; [|by vm_compute].
  destruct (pqueue_new_spec pq_entry_lt pq_entry_lt_sw pri)
    as (Hwf0 & Hh0 & Hlen0 & Hpri0).
  destruct (run_updates_spec ups (pqueue_new pq_entry_lt pri) pri)
    as (Hwf & Hh & Hlen & Hlen' & Hpri); [done..|].
  set (q := run_updates (pqueue_new pq_entry_lt pri) ups) in *.
  set (cur := apply_updates pri ups) in *.
  assert (0 < length pri) as Hpos by (destruct pri; [done|simpl; lia]).
  destruct (top_spec pq_entry_lt pq_entry_lt_sw q Hwf Hh)
    as (Htop & _ & Hmax); [lia|].
  rewrite Hlen in Htop. split; [done|]. intros j Hj.
  split; [by apply Hpri|].
  specialize (Hmax j). rewrite Hlen in Hmax. specialize (Hmax Hj).
  rewrite !Hpri in Hmax by done.
  apply pq_entry_lt_false in Hmax as [Hlt|[Heq Hle]].
  - split; [lia|]. intros Heq. lia.
  - split; [lia|]. done.
Qed.

Lemma top_is_best_witness :
  ex_entries ≠ [] ∧
  Forall (λ u : pq_entry * nat, u.2 < length ex_entries) ex_updates ∧
  (top (run_updates (pqueue_new pq_entry_lt ex_entries) ex_updates) < length ex_entries
   ∧ ∀ j, j < length ex_entries →
       priority (run_updates (pqueue_new pq_entry_lt ex_entries) ex_updates) j
       = apply_updates ex_entries ex_updates !!! j
       ∧ (pe_pri (apply_updates ex_entries ex_updates
                  !!! top (run_updates (pqueue_new pq_entry_lt ex_entries) ex_updates))
          ≤ pe_pri (apply_updates ex_entries ex_updates !!! j))%Z
       ∧ (pe_pri (apply_updates ex_entries ex_updates !!! j)
          = pe_pri (apply_updates ex_entries ex_updates
                    !!! top (run_updates (pqueue_new pq_entry_lt ex_entries) ex_updates)) →
          (pe_prox (apply_updates ex_entries ex_updates !!! j)
           <= pe_prox (apply_updates ex_entries ex_updates
                       !!! top (run_updates (pqueue_new pq_entry_lt ex_entries) ex_updates))
          )%Q))
  ∧ top (pqueue_new pq_entry_lt [mkEntry 1 5; mkEntry 2 5; mkEntry 0 3]) = 2
  ∧ top (set_priority pq_entry_lt
           (pqueue_new pq_entry_lt [mkEntry 1 5; mkEntry 2 5; mkEntry 0 3])
           (mkEntry 0 10) 2) = 1.
Proof.
  split; [discriminate|].
  split; [repeat constructor|].
  apply (top_is_best ex_entries ex_updates);
    [discriminate | repeat constructor].
Defined.

(** ** Assignment strategies *)

Lemma is_empty_true {A : Type} (v : list A) : is_empty v = true ↔ v = [].
Proof. by destruct v. Qed.

Lemma is_empty_false {A : Type} (v : list A) : is_empty v = false ↔ v ≠ [].
Proof. by destruct v. Qed.

Lemma nil_no_elem {A : Type} (l : list A) : l = [] ↔ ∀ x, x ∉ l.
Proof.
  split; [intros -> x; apply not_elem_of_nil | apply elem_of_nil_inv].
Qed.

Lemma maxpri_fold (tgt : list Target) (v : list nat) (js : list nat) :
  fold_left (maxpri_step tgt v) js (0, tgt_pri (tgt !!! (v !!! 0)))
  = (0, tgt_pri (tgt !!! (v !!! 0))).
Proof.
  induction js as [|j js IH]; [done|]. cbn [fold_left].
  unfold maxpri_step at 2. by rewrite Z.ltb_irrefl.
Qed.

(** The loop of [maxpri_in_fiber] never replaces its first candidate. *)
Lemma maxpri_in_fiber_first (fiber : nat) (tgt : list Target)
    (f2t : list (list nat)) :
  f2t !!! fiber ≠ [] →
  maxpri_in_fiber fiber tgt f2t = Some ((f2t !!! fiber) !!! 0).
Proof.
  intros Hne. unfold maxpri_in_fiber.
  rewrite (proj2 (is_empty_false _) Hne). by rewrite maxpri_fold.
Qed.

Lemma lookup_total_0_elem (v : list nat) : v ≠ [] → v !!! 0 ∈ v.
Proof. destruct v; [done|]. intros _. by left. Qed.

Section strategies.
Variables (tgt : list Target) (raster : fpraster).
Hypothesis raster_is_ok : raster_ok raster.
Hypothesis raster_loc : fr_loc raster = tgt_pos <$> tgt.

Lemma blocked_iff (itgt t' : nat) :
  t' ∈ query raster (tgt_pos (tgt !!! itgt)) colldist ↔
  t' < length tgt ∧ colliding tgt itgt t'.
Proof.
  rewrite query_elem_of by done. unfold colliding.
  rewrite raster_loc, length_fmap.
  split; intros [Ht Hd]; (split; [done|]).
  - by rewrite (list_lookup_total_fmap tgt_pos) in Hd.
  - by rewrite (list_lookup_total_fmap tgt_pos).
Qed.

Lemma colliding_self (t : nat) : colliding tgt t t.
Proof. unfold colliding. by rewrite dsq_self. Qed.

Lemma assign_init_ok : assign_ok tgt (assign_init tgt raster).
Proof.
  unfold assign_init.
  pose proof (calcMappings_ok tgt raster raster_is_ok raster_loc) as Hm.
  destruct (calcMappings tgt raster) as [f2t t2f]. simpl in *.
  split; simpl; try done; try constructor.
  all: intros; by match goal with H : _ ∈ [] |- _ => apply elem_of_nil in H
                  | H : [] !! _ = Some _ |- _ => rewrite lookup_nil in H end.
Qed.

(** Committing a pair that the mappings allow. *)
Lemma commit_ok (st : assign_state) (fiber itgt : nat) :
  assign_ok tgt st → itgt ∈ as_f2t st !!! fiber →
  ∃ st', commit tgt raster st fiber itgt = Some st' ∧
         assign_ok tgt st' ∧
         as_f2t st' !!! fiber = [] ∧
         as_t2f st' !!! itgt = [] ∧
         (∀ f, as_f2t st !!! f = [] → as_f2t st' !!! f = []) ∧
         (∀ t, as_t2f st !!! t = [] → as_t2f st' !!! t = []).
Proof.
  intros Hok Hin. unfold commit.
  pose proof (aok_maps tgt st Hok) as Hm.
  destruct (cleanup_spec (length tgt) tgt raster (as_f2t st) (as_t2f st)
              fiber itgt Hm) as (f2t' & t2f' & Hc & Hm' & Hmem).
  rewrite Hc. cbn [mbind option_bind]. eexists. split; [done|].
  assert (∀ f t, f ∈ t2f' !!! t ↔
                 f ∈ as_t2f st !!! t ∧ f ≠ fiber
                 ∧ t ∉ query raster (tgt_pos (tgt !!! itgt)) colldist)
    as Hmem2.
  { intros f t. rewrite <- (mok_inv _ _ _ Hm'), Hmem.
    by rewrite (mok_inv _ _ _ Hm). }
  assert (fiber ∈ as_t2f st !!! itgt) as Hin2 by by apply Hm.
  assert (fiber < nfiber) as Hfiber.
  { rewrite <- (mok_f2t_len _ _ _ Hm). by eapply elem_of_lookup_total_lt. }
  assert (itgt < length tgt) as Hitgt.
  { rewrite <- (mok_t2f_len _ _ _ Hm). by eapply elem_of_lookup_total_lt. }
  assert (∀ f, as_f2t st !!! f = [] → f2t' !!! f = []) as Hsub1.
  { intros f Hf. apply nil_no_elem. intros t [Ht _]%Hmem.
    rewrite Hf in Ht. by apply elem_of_nil in Ht. }
  assert (∀ t, as_t2f st !!! t = [] → t2f' !!! t = []) as Hsub2.
  { intros t Ht. apply nil_no_elem. intros f [Hf _]%Hmem2.
    rewrite Ht in Hf. by apply elem_of_nil in Hf. }
  assert (f2t' !!! fiber = []) as Hf0.
  { apply nil_no_elem. by intros t (_ & ? & _)%Hmem. }
  assert (∀ t', t' < length tgt → colliding tgt itgt t' → t2f' !!! t' = [])
    as Hblocked.
  { intros t' Ht' Hcol. apply nil_no_elem. intros f (_ & _ & Hn)%Hmem2.
    apply Hn. by apply blocked_iff. }
  assert (∀ t, t ∈ as_tid st → ¬ colliding tgt t itgt) as Hfar.
  { intros t Ht Hcol. destruct (aok_tid tgt st Hok t Ht) as [_ Hdead].
    rewrite (Hdead itgt Hitgt Hcol) in Hin2. by apply elem_of_nil in Hin2. }
  split; [|split; [done|]; split; [|done]].
  - split; simpl.
    + done.
    + rewrite !length_app. simpl. by rewrite (aok_len tgt st Hok).
    + apply NoDup_app. split; [apply Hok|]. split; [|apply NoDup_singleton].
      intros f Hf ->%list_elem_of_singleton.
      destruct (aok_fid tgt st Hok fiber Hf) as [_ Hnil].
      rewrite Hnil in Hin. by apply elem_of_nil in Hin.
    + apply NoDup_app. split; [apply Hok|]. split; [|apply NoDup_singleton].
      intros t Ht ->%list_elem_of_singleton.
      apply (Hfar itgt Ht), colliding_self.
    + intros f [Hf| ->%list_elem_of_singleton]%elem_of_app; [|done].
      destruct (aok_fid tgt st Hok f Hf) as [? Hnil]. split; [done|].
      by apply Hsub1.
    + intros t [Ht| ->%list_elem_of_singleton]%elem_of_app; [|done].
      destruct (aok_tid tgt st Hok t Ht) as [? Hdead]. split; [done|].
      intros t' Ht' Hcol. apply Hsub2. by apply Hdead.
    + intros i j t t' Hij Hi Hj.
      assert (i < length (as_tid st)) as Hil.
      { apply lookup_lt_Some in Hj. rewrite length_app in Hj. simpl in Hj.
        lia. }
      rewrite lookup_app_l in Hi by done.
      destruct (decide (j < length (as_tid st))) as [Hjl|Hjl].
      * rewrite lookup_app_l in Hj by done.
        by apply (aok_coll tgt st Hok i j).
      * rewrite lookup_app_r in Hj by lia.
        apply list_lookup_singleton_Some in Hj as [_ <-].
        apply Hfar. by eapply list_elem_of_lookup_2.
  - by apply Hblocked, colliding_self.
Qed.

(** *** Naive *)

Lemma naive_step_ok (st : assign_state) (fiber : nat) :
  assign_ok tgt st →
  ∃ st', naive_step tgt raster st fiber = Some st' ∧ assign_ok tgt st'.
Proof.
  intros Hok. unfold naive_step.
  destruct (is_empty (as_f2t st !!! fiber)) eqn:E; [by exists st|].
  apply is_empty_false in E. rewrite maxpri_in_fiber_first by done.
  cbn [mbind option_bind].
  destruct (commit_ok st fiber ((as_f2t st !!! fiber) !!! 0) Hok)
    as (st' & Hc & Hok' & _); [by apply lookup_total_0_elem|].
  by exists st'.
Qed.

Lemma naive_fold_ok (fibers : list nat) : ∀ st,
  assign_ok tgt st →
  ∃ st', foldM (naive_step tgt raster) fibers st = Some st'
         ∧ assign_ok tgt st'.
Proof.
  induction fibers as [|f fibers IH]; intros st Hok; [by exists st|].
  cbn [foldM]. destruct (naive_step_ok st f Hok) as (st1 & -> & Hok1).
  by apply IH.
Qed.

(** *** Draining *)

Lemma min_fiber_spec (f2t : list (list nat)) (maxtgt : nat) :
  (min_fiber f2t maxtgt).1 = (-1)%Z ∨
  ((0 ≤ (min_fiber f2t maxtgt).1)%Z
   ∧ f2t !!! Z.to_nat (min_fiber f2t maxtgt).1 ≠ []).
Proof.
  unfold min_fiber.
  set (P := λ s : Z * nat,
         s.1 = (-1)%Z ∨ ((0 ≤ s.1)%Z ∧ f2t !!! Z.to_nat s.1 ≠ [])).
  match goal with
  | |- context [fold_left ?f ?l ?s] =>
      change (P (fold_left f l s)); assert (P s) as Hinit by (by left);
      revert Hinit; generalize s; generalize l
  end.
  intros l. induction l as [|i l IH]; intros [fiber mintgt] Hinv; [done|].
  cbn [fold_left]. apply IH.
  destruct ((length (f2t !!! i) <? mintgt) && (0 <? length (f2t !!! i)))
    eqn:E; [|done].
  apply andb_true_iff in E as [_ E]. apply Nat.ltb_lt in E.
  right. simpl. split; [lia|]. rewrite Nat2Z.id. intros Hnil.
  rewrite Hnil in E. simpl in E. lia.
Qed.

Lemma draining_loop_ok (maxtgt fuel : nat) : ∀ st (l : list nat),
  assign_ok tgt st → NoDup l →
  (∀ f, as_f2t st !!! f ≠ [] → f ∈ l) → length l < fuel →
  ∃ st', draining_loop fuel tgt raster maxtgt st = Some st'
         ∧ assign_ok tgt st'.
Proof.
  induction fuel as [|fuel IH]; intros st l Hok Hnd Hcov Hfuel; [lia|].
  cbn [draining_loop].
  pose proof (min_fiber_spec (as_f2t st) maxtgt) as Hmin.
  destruct (min_fiber (as_f2t st) maxtgt) as [fiber mintgt]. simpl in Hmin.
  destruct (fiber =? -1)%Z eqn:E; [by exists st|].
  apply Z.eqb_neq in E. destruct Hmin as [?|[Hpos Hne]]; [done|].
  rewrite maxpri_in_fiber_first by done. cbn [mbind option_bind].
  destruct (commit_ok st (Z.to_nat fiber)
              ((as_f2t st !!! Z.to_nat fiber) !!! 0) Hok)
    as (st' & -> & Hok' & Hf0 & _ & Hsub & _);
    [by apply lookup_total_0_elem|].
  apply (IH st' (filter (λ x, x ≠ Z.to_nat fiber) l)).
  - done.
  - by apply NoDup_filter.
  - intros f Hf. apply list_elem_of_filter. split.
    + intros ->. done.
    + apply Hcov. intros Hnil. by apply Hf, Hsub.
  - pose proof (filter_ne_length l (Z.to_nat fiber) Hnd (Hcov _ Hne)). lia.
Qed.
(** *** New *)

Lemma min_fiber_of_spec (f2t : list (list nat)) (fibers : list nat) :
  fibers ≠ [] → (min_fiber_of f2t fibers).1 < length fibers.
Proof.
  intros Hne. unfold min_fiber_of.
  assert (∀ i, i ∈ seq 1 (length fibers - 1) → i < length fibers) as Hl
    by (intros i Hi%elem_of_seq; lia).
  revert Hl. generalize (seq 1 (length fibers - 1)).
  assert (0 < length fibers) as H0 by (destruct fibers; [done|simpl; lia]).
  set (P := λ s : nat * nat, s.1 < length fibers).
  match goal with
  | |- ∀ l, _ → (fold_left ?f l ?s).1 < _ =>
      enough (∀ l, (∀ i, i ∈ l → i < length fibers) →
                   ∀ s', P s' → P (fold_left f l s')) as Hfold
        by (intros l Hl; by apply (Hfold l Hl s))
  end.
  intros l. induction l as [|i l IH]; intros Hl [ifib mintgt] Hinv; [done|].
  cbn [fold_left]. apply IH; [intros j Hj; apply Hl; by right|].
  destruct (length (f2t !!! (fibers !!! i)) <? mintgt); [|done].
  apply Hl. by left.
Qed.

Lemma fold_left_length {A B : Type} (f : list A → B → list A) (l : list B) :
  (∀ a b, length (f a b) = length a) →
  ∀ a, length (fold_left f l a) = length a.
Proof.
  intros Hf. induction l as [|b l IH]; intros a; [done|].
  cbn [fold_left]. by rewrite IH, Hf.
Qed.

Lemma calc_pri_vec_length (t2f : list (list nat)) :
  length (calc_pri_vec tgt t2f raster) = length tgt.
Proof.
  unfold calc_pri_vec.
  rewrite fold_left_length by (intros; apply length_alter).
  rewrite fold_left_length; [by rewrite length_replicate|].
  intros a i. destruct (0 <? length (t2f !!! i)); [|done].
  apply fold_left_length. intros a' j. unfold calc_pri_ngb, add_prox.
  destruct (i =? j), (i <? j); by rewrite ?length_alter.
Qed.

Lemma fix_priority_spec (t2f : list (list nat)) (itgt : nat)
    (pq : pqueue pq_entry) :
  pq_wf pq → heap_from pq_entry_lt 1 pq →
  length (pq_nodes pq) = length tgt →
  pq_wf (fix_priority tgt t2f raster itgt pq)
  ∧ heap_from pq_entry_lt 1 (fix_priority tgt t2f raster itgt pq)
  ∧ length (pq_nodes (fix_priority tgt t2f raster itgt pq)) = length tgt
  ∧ ∀ j, pe_pri (priority (fix_priority tgt t2f raster itgt pq) j)
         = pe_pri (priority pq j).
Proof.
  unfold fix_priority.
  assert (∀ j, j ∈ query raster (tgt_pos (tgt !!! itgt)) r_kernel →
               j < length tgt) as Hngb.
  { intros j [Hj _]%query_elem_of; [|done|done].
    by rewrite raster_loc, length_fmap in Hj. }
  revert Hngb. generalize (query raster (tgt_pos (tgt !!! itgt)) r_kernel).
  intros ngb. revert pq.
  induction ngb as [|j ngb IH]; intros pq Hngb Hwf Hh Hlen; [done|].
  cbn [fold_left].
  assert (j < length (pq_nodes pq)) as Hj
    by (rewrite Hlen; apply Hngb; by left).
  match goal with
  | |- context [fold_left _ ngb ?pq1] => set (pq' := pq1)
  end.
  assert (pq_wf pq' ∧ heap_from pq_entry_lt 1 pq'
          ∧ length (pq_nodes pq') = length tgt
          ∧ ∀ i, pe_pri (priority pq' i) = pe_pri (priority pq i))
    as (Hwf' & Hh' & Hlen' & Hpri').
  { unfold pq'. destruct (_ || _); [|done].
    match goal with
    | |- context [set_priority _ pq ?e j] =>
        destruct (set_priority_spec pq_entry_lt pq_entry_lt_sw pq e j
                    Hwf Hh Hj) as (? & ? & Hl & Hp)
    end.
    split; [done|]. split; [done|]. split; [by rewrite Hl|].
    intros i. rewrite Hp. by destruct (decide (i = j)) as [->|]. }
  destruct (IH pq') as (Hwf2 & Hh2 & Hlen2 & Hpri2);
    [intros i Hi; apply Hngb; by right | done..|].
  split; [done|]. split; [done|]. split; [done|].
  intros i. by rewrite Hpri2, Hpri'.
Qed.

Hypothesis tgt_nonempty : 0 < length tgt.

Lemma new_loop_ok (fuel : nat) : ∀ pq st (la lb : list nat),
  assign_ok tgt st →
  pq_wf pq → heap_from pq_entry_lt 1 pq →
  length (pq_nodes pq) = length tgt →
  NoDup la → NoDup lb →
  (∀ j, j < length tgt → pe_pri (priority pq j) ≠ sentinel → j ∈ la) →
  (∀ t, as_t2f st !!! t ≠ [] → t ∈ lb) →
  length la + length lb < fuel →
  ∃ st', new_loop fuel tgt raster pq st = Some st' ∧ assign_ok tgt st'.
Proof.
  induction fuel as [|fuel IH];
    intros pq st la lb Hok Hwf Hh Hlen Hnda Hndb Hcova Hcovb Hfuel; [lia|].
  cbn [new_loop].
  destruct (top_spec pq_entry_lt pq_entry_lt_sw pq Hwf Hh)
    as (Htop & Htp & _); [lia|].
  rewrite Hlen in Htop. rewrite Htp.
  destruct (pe_pri (priority pq (top pq)) =? sentinel)%Z eqn:E;
    [by exists st|].
  apply Z.eqb_neq in E.
  destruct (is_empty (as_t2f st !!! top pq)) eqn:E2.
  - destruct (set_priority_spec pq_entry_lt pq_entry_lt_sw pq
                (mkEntry 0 sentinel) (top pq) Hwf Hh)
      as (Hwf' & Hh' & Hlen' & Hpri'); [by rewrite Hlen|].
    apply (IH _ st (filter (λ x, x ≠ top pq) la) lb); try done.
    + by rewrite Hlen'.
    + by apply NoDup_filter.
    + intros j Hj. rewrite Hpri'. destruct (decide (j = top pq)); [done|].
      intros Hs. apply list_elem_of_filter. split; [done|]. by apply Hcova.
    + pose proof (filter_ne_length la (top pq) Hnda (Hcova _ Htop E)). lia.
  - apply is_empty_false in E2.
    pose proof (min_fiber_of_spec (as_f2t st) (as_t2f st !!! top pq) E2)
      as Hifib.
    destruct (min_fiber_of (as_f2t st) (as_t2f st !!! top pq))
      as [ifib mintgt]. simpl in Hifib.
    assert ((as_t2f st !!! top pq) !!! ifib ∈ as_t2f st !!! top pq) as Hin
      by by apply list_elem_of_lookup_total_2.
    apply (mok_inv _ _ _ (aok_maps tgt st Hok)) in Hin.
    destruct (commit_ok st _ _ Hok Hin)
      as (st' & -> & Hok' & _ & Ht0 & _ & Hsub).
    cbn [mbind option_bind].
    destruct (fix_priority_spec (as_t2f st') (top pq) pq Hwf Hh Hlen)
      as (Hwf' & Hh' & Hlen' & Hpri').
    apply (IH _ st' la (filter (λ x, x ≠ top pq) lb)); try done.
    + by apply NoDup_filter.
    + intros j Hj. rewrite Hpri'. by apply Hcova.
    + intros t Ht. apply list_elem_of_filter. split.
      * by intros ->.
      * apply Hcovb. intros Hnil. by apply Ht, Hsub.
    + pose proof (filter_ne_length lb (top pq) Hndb (Hcovb _ E2)). lia.
Qed.
End strategies.





(** ** Target selection, projection and the driver *)

(** C1.  [maxpri_in_fiber] does not select by [pri]: its loop compares the
    first candidate with itself and always returns the first entry of
    [F2T[f]].  For the targets at [(-7, 1)] with [pri] 5, at [(-7, 2)] with
    [pri] 3 and at [(193, 201)] with [pri] 1, [calcMappings] gives
    [F2T[0] = [0, 1]] and [maxpri_in_fiber] returns target 0, of [pri] 5,
    although target 1 has the smaller [pri]. *)
Theorem maxpri_in_fiber_returns_first :
  (∀ fiber tgt f2t, f2t !!! fiber ≠ [] →
     maxpri_in_fiber fiber tgt f2t = Some ((f2t !!! fiber) !!! 0))
  ∧ ∃ raster,
      tgt2raster
        [mkTarget (Vec2 (-7) 1) 10 5 100; mkTarget (Vec2 (-7) 2) 10 3 101;
          mkTarget (Vec2 193 201) 10 1 102] 100 100
      = Some raster
      ∧ (calcMappings
           [mkTarget (Vec2 (-7) 1) 10 5 100; mkTarget (Vec2 (-7) 2) 10 3 101;
          mkTarget (Vec2 193 201) 10 1 102] raster).1 !!! 0
        = [0; 1]
      ∧ maxpri_in_fiber 0
          [mkTarget (Vec2 (-7) 1) 10 5 100; mkTarget (Vec2 (-7) 2) 10 3 101;
          mkTarget (Vec2 193 201) 10 1 102]
          (calcMappings
             [mkTarget (Vec2 (-7) 1) 10 5 100; mkTarget (Vec2 (-7) 2) 10 3 101;
          mkTarget (Vec2 193 201) 10 1 102] raster).1
        = Some 0.
Proof.
  split; [apply maxpri_in_fiber_first|].
  eexists. split; [vm_compute; reflexivity|].
  assert (0 < nfiber) as Hf by (unfold nfiber; lia).
  match goal with
  | |- ?P ∧ _ => assert P as H0
  end.
  { rewrite calcMappings_f2t by done. by vm_compute. }
  split; [exact H0|].
  rewrite maxpri_in_fiber_first by by rewrite H0.
  by rewrite H0.
Qed.

(** C2.  [targetToPFI] hands [cos psi] to [rotate] as the sine and
    [sin psi] as the cosine: the tangent-plane pair [(u, v)] becomes
    [(sin psi * u - cos psi * v, cos psi * u + sin psi * v)] before the
    distortion polynomial.  At [psi = 0], where [cos psi = 1] and
    [sin psi = 0], the pair [(1, 0)] becomes [(0, 1)] and not [(1, 0)]. *)
Theorem targetToPFI_rotation_swapped :
  (∀ (cos sin : Q → Q) (atan2 : Q → Q → Q) (degr2rad rad2degr : Q)
     (vec3_of_pointing : pointing → vec3) (Norm : vec3 → vec3)
     (t : Target) (los : pointing) (psi elevation : Q),
     let z := vec3_of_pointing los in
     let x := Norm (vec3_sub (Vec3 0 0 1)
                             (vec3_scale z (dotprod z (Vec3 0 0 1)))) in
     let y := crossprod z x in
     let uv := tangent_angles atan2 degr2rad rad2degr vec3_of_pointing
                              x y z t in
     targetToPFI cos sin atan2 degr2rad rad2degr vec3_of_pointing Norm
                 [t] los psi elevation
     = [mkTarget
          (distort (Vec2 (sin psi * vec2_x uv - cos psi * vec2_y uv)
                         (cos psi * vec2_x uv + sin psi * vec2_y uv)))
          (tgt_time t) (tgt_pri t) (tgt_id t)])
  ∧ (vec2_x (rotate (Vec2 1 0) 1 0) == 0)%Q
  ∧ (vec2_y (rotate (Vec2 1 0) 1 0) == 1)%Q.
Proof.
  split; [reflexivity|]. split; reflexivity.
Qed.

(** *** [select_observable] *)

Lemma increasing_snoc (ks : list nat) (k : nat) :
  increasing ks → (∀ x, x ∈ ks → x < k) → increasing (ks ++ [k]).
Proof.
  intros Hinc Hlt a b ka kb Hab Ha Hb.
  destruct (decide (b < length ks)) as [Hbl|Hbl].
  - rewrite lookup_app_l in Ha by lia. rewrite lookup_app_l in Hb by done.
    by apply (Hinc a b).
  - assert (a < length ks) as Hal.
    { apply lookup_lt_Some in Hb. rewrite length_app in Hb. simpl in Hb.
      lia. }
    rewrite lookup_app_l in Ha by done. rewrite lookup_app_r in Hb by lia.
    apply list_lookup_singleton_Some in Hb as [_ <-].
    apply Hlt. by eapply list_elem_of_lookup_2.
Qed.

Lemma filter_seq_increasing (P : nat → Prop) `{!∀ i, Decision (P i)}
    (n : nat) :
  increasing (filter P (seq 0 n)).
Proof.
  induction n as [|n IH].
  - intros a b ka kb _ Ha.
    change (filter P (seq 0 0)) with (@nil nat) in Ha.
    by rewrite lookup_nil in Ha.
  - rewrite seq_S, filter_app. cbn [Nat.add].
    destruct (decide (P n)) as [Hp|Hp].
    + rewrite filter_cons_True by done. rewrite filter_nil.
      apply increasing_snoc; [done|].
      intros x [_ Hx%elem_of_seq]%list_elem_of_filter. lia.
    + rewrite filter_cons_False by done. rewrite filter_nil.
      by rewrite app_nil_r.
Qed.

Lemma fiber_positions_nonempty :
  (λ i, id2fiberpos (Z.of_nat i)) <$> seq 0 nfiber ≠ [].
Proof.
  intros H. apply (f_equal length) in H.
  rewrite length_fmap, length_seq in H. unfold nfiber in H. simpl in H. lia.
Qed.

Lemma select_observable_spec (tgt : list Target) (safety : Q) :
  (0 <= rmax + safety)%Q →
  ∃ idx, select_observable tgt safety = Some idx ∧ increasing idx ∧
    ∀ i, i ∈ idx ↔
         i < length tgt
         ∧ ∃ f, near_fiber (tgt_pos (tgt !!! i)) (rmax + safety) f.
Proof.
  intros Hrad. unfold select_observable.
  destruct (fpraster_new_ok _ 100 100 fiber_positions_nonempty)
    as (raster & Hr & Hok & Hloc & _); [lia | lia |].
  eexists. split; [apply bind_Some; exists raster; split; [exact Hr|done]|].
  split; [apply filter_seq_increasing|].
  intros i. rewrite list_elem_of_filter, elem_of_seq, Is_true_true.
  rewrite anyIn_spec by done. rewrite Hloc, length_fmap, length_seq.
  unfold near_fiber. split.
  - intros [(k & Hk & Hd) Hi]. split; [lia|]. exists k. split; [done|].
    rewrite (list_lookup_total_fmap (λ i, id2fiberpos (Z.of_nat i))) in Hd
      by (by rewrite length_seq).
    by rewrite lookup_total_seq_lt in Hd.
  - intros [Hi (k & Hk & Hd)]. split; [|lia]. exists k. split; [done|].
    rewrite (list_lookup_total_fmap (λ i, id2fiberpos (Z.of_nat i)))
      by (by rewrite length_seq).
    by rewrite lookup_total_seq_lt.
Qed.

(** C3, as the code has it.  For every grid candidate, [single_exposure]
    keeps exactly the projected targets that have the centre of some fiber
    within [RMAX + RKERN] (9.5 mm), in their order, and hands all of them
    to the strategy (which is not invoked when none is left); the target
    indices that the strategy returns are mapped back through the kept
    indices. *)
Theorem single_exposure_selection
    (cos sin : Q → Q) (atan2 : Q → Q → Q) (degr2rad rad2degr : Q)
    (vec3_of_pointing : pointing → vec3) (Norm : vec3 → vec3)
    (ass : list Target → option (list nat * list nat))
    (tgt : list Target) (center : pointing) (posang elevation : Q) :
  ∃ idx,
    increasing idx
    ∧ (∀ i, i ∈ idx ↔
         i < length tgt
         ∧ ∃ f, near_fiber
                  (tgt_pos (targetToPFI cos sin atan2 degr2rad rad2degr
                              vec3_of_pointing Norm tgt center posang
                              elevation !!! i))
                  (rmax + r_kernel) f)
    ∧ single_exposure cos sin atan2 degr2rad rad2degr vec3_of_pointing Norm
        ass tgt center posang elevation
      = match (if is_empty idx then Some ([], [])
               else ass ((λ i, targetToPFI cos sin atan2 degr2rad rad2degr
                                 vec3_of_pointing Norm tgt center posang
                                 elevation !!! i) <$> idx)) with
        | None => None
        | Some (tid, fid) => Some ((λ t, idx !!! t) <$> tid, fid)
        end.
Proof.
  destruct (select_observable_spec
              (targetToPFI cos sin atan2 degr2rad rad2degr vec3_of_pointing
                 Norm tgt center posang elevation) r_kernel)
    as (idx & Hsel & Hinc & Hmem); [done|].
  exists idx. split; [done|]. split.
  - intros i. rewrite Hmem. unfold targetToPFI at 1.
    by rewrite length_fmap.
  - unfold single_exposure. rewrite Hsel. by destruct idx.
Qed.

(** C3, the counterexample.  The projected target at [(-7, -195)] lies
    farther than [RPLATE + RKERN = 194.75] from the origin of the focal
    plane, and [select_observable] keeps it: the centre of fiber 50 is
    about 1 mm away. *)
Lemma select_observable_keeps_beyond_plate :
  ∃ idx,
    select_observable [mkTarget (Vec2 (-7) (-195)) 10 1 7] r_kernel
    = Some idx
    ∧ 0 ∈ idx
    ∧ ((190 + r_kernel) * (190 + r_kernel)
       < dsq (tgt_pos (mkTarget (Vec2 (-7) (-195)) 10 1 7)) (Vec2 0 0))%Q.
Proof.
  destruct (select_observable_spec [mkTarget (Vec2 (-7) (-195)) 10 1 7]
              r_kernel) as (idx & Hsel & _ & Hmem); [done|].
  exists idx. split; [done|]. split; [|done].
  apply Hmem. split; [simpl; lia|]. exists 50. split.
  - unfold nfiber. lia.
  - by vm_compute.
Qed.

(** *** [strip] and the driver *)

Lemma obs_fold_spec (remove : list nat) : ∀ (obs : list bool) (i : nat),
  i < length obs →
  length (fold_left (λ obs r, <[r := true]> obs) remove obs) = length obs
  ∧ fold_left (λ obs r, <[r := true]> obs) remove obs !!! i
    = obs !!! i || bool_decide (i ∈ remove).
Proof.
  induction remove as [|r remove IH]; intros obs i Hi; cbn [fold_left].
  - split; [done|]. rewrite bool_decide_eq_false_2 by apply not_elem_of_nil.
    by rewrite orb_false_r.
  - destruct (IH (<[r := true]> obs) i) as [Hlen Hget];
      [by rewrite length_insert|].
    rewrite length_insert in Hlen. split; [done|].
    rewrite Hget, list_lookup_total_insert.
    destruct (decide (r = i)) as [->|Hne].
    + rewrite decide_True by done.
      rewrite (bool_decide_eq_true_2 (i ∈ i :: remove)) by by left.
      by rewrite orb_true_r.
    + rewrite decide_False by (by intros [? _]).
      destruct (decide (i ∈ remove)) as [Hin|Hin].
      * rewrite !bool_decide_eq_true_2; [done | by right | done].
      * rewrite !bool_decide_eq_false_2; [done | | done].
        by intros [?|?]%elem_of_cons.
Qed.

Lemma obs_fold_length (remove : list nat) : ∀ (obs : list bool),
  length (fold_left (λ obs r, <[r := true]> obs) remove obs) = length obs.
Proof.
  induction remove as [|r remove IH]; intros obs; cbn [fold_left]; [done|].
  by rewrite IH, length_insert.
Qed.

(** The vector that [strip] builds: the records [updated i] of the
    surviving indices [i], in their order. *)
Lemma strip_eq (tgt : list Target) (remove : list nat) (time : Q) :
  strip tgt remove time
  = updated tgt remove time
    <$> filter (λ i, survives tgt remove time i) (seq 0 (length tgt)).
Proof.
  unfold strip.
  set (obs := fold_left (λ obs r, <[r := true]> obs) remove
                        (replicate (length tgt) false)).
  assert (length obs = length tgt) as Hlen.
  { unfold obs. by rewrite obs_fold_length, length_replicate. }
  assert (∀ i, i < length tgt → obs !!! i = bool_decide (i ∈ remove)) as Hobs.
  { intros i Hi.
    destruct (obs_fold_spec remove (replicate (length tgt) false) i)
      as [_ Hg]; [by rewrite length_replicate|].
    unfold obs. rewrite Hg. by rewrite lookup_total_replicate_2. }
  rewrite Hlen.
  assert (∀ m, m ≤ length tgt →
            fold_left (strip_step tgt obs time) (seq 0 m) []
            = updated tgt remove time
              <$> filter (λ i, survives tgt remove time i) (seq 0 m))
    as Hpre; [|by apply Hpre].
  induction m as [|m IH]; intros Hm; [done|].
  rewrite seq_S, fold_left_app, filter_app, fmap_app. cbn [Nat.add fold_left].
  rewrite IH by lia. unfold strip_step at 1. rewrite Hobs by lia.
  destruct (bool_decide (m ∈ remove)) eqn:E; cbn [negb].
  - destruct (Qlt_bool (time + 1e-7) (tgt_time (tgt !!! m))) eqn:E2.
    + rewrite filter_cons_True by (unfold survives; by rewrite E, E2).
      rewrite filter_nil. cbn [fmap list_fmap]. unfold updated at 3.
      by rewrite E.
    + rewrite filter_cons_False
        by (unfold survives; rewrite E, E2; cbn; tauto).
      rewrite filter_nil. cbn [fmap list_fmap]. by rewrite app_nil_r.
  - rewrite filter_cons_True by (unfold survives; by rewrite E).
    rewrite filter_nil. cbn [fmap list_fmap]. unfold updated at 3.
    by rewrite E.
Qed.

Lemma exposure_time_fold (tgt1 : list Target) (tids : list nat) :
  ∀ (time : Q),
    let r := fold_left
               (λ time i,
                  if Qlt_bool (tgt_time (tgt1 !!! i)) time
                  then tgt_time (tgt1 !!! i) else time) tids time in
    (r <= time)%Q
    ∧ (∀ i, i ∈ tids → r <= tgt_time (tgt1 !!! i))%Q
    ∧ (r = time ∨ ∃ i, i ∈ tids ∧ r = tgt_time (tgt1 !!! i)).
Proof.
  induction tids as [|j tids IH]; intros time; cbn zeta; cbn [fold_left].
  - split; [apply Qle_refl|]. split; [by intros i ?%elem_of_nil | by left].
  - destruct (Qlt_bool (tgt_time (tgt1 !!! j)) time) eqn:E.
    + apply Qlt_bool_iff in E.
      destruct (IH (tgt_time (tgt1 !!! j))) as (Hle & Hall & Hex).
      split; [lra|]. split.
      * intros i [->|Hi]%elem_of_cons; [done | by apply Hall].
      * right. destruct Hex as [->|(i & Hi & ->)].
        -- exists j. split; [by left | done].
        -- exists i. split; [by right | done].
    + apply Qlt_bool_false in E.
      destruct (IH time) as (Hle & Hall & Hex).
      split; [done|]. split.
      * intros i [->|Hi]%elem_of_cons; [lra | by apply Hall].
      * destruct Hex as [->|(i & Hi & ->)]; [by left|].
        right. exists i. split; [by right | done].
Qed.

Lemma exposure_time_min (tgt1 : list Target) (tidmax : list nat) :
  tidmax ≠ [] →
  (∀ i, i ∈ tidmax → exposure_time tgt1 tidmax <= tgt_time (tgt1 !!! i))%Q
  ∧ ∃ i, i ∈ tidmax ∧ exposure_time tgt1 tidmax = tgt_time (tgt1 !!! i).
Proof.
  intros Hne. unfold exposure_time.
  destruct (exposure_time_fold tgt1 tidmax
              (tgt_time (tgt1 !!! (tidmax !!! 0)))) as (_ & Hall & Hex).
  split; [done|]. destruct Hex as [->|Hex]; [|done].
  exists (tidmax !!! 0). split; [by apply lookup_total_0_elem | done].
Qed.

(** C9, as the code has it.  In an iteration whose exposure assigns a
    non-empty target set, the duration [time] is the smallest remaining
    time of the assigned targets.  When the coverage test
    [acc / ttime > fract] ends the loop, the target vector stays as it is;
    otherwise the next iteration sees the surviving targets in their
    order, every assigned target with its time decreased by [time], an
    assigned target being kept exactly when the decreased time exceeds
    [1e-7]. *)
Theorem driver_iteration (fract ttime : Q) (s : driver_state)
    (center : pointing) (posang : Q) (tidmax fidmax : list nat) :
  tidmax ≠ [] →
  (∀ i, i ∈ tidmax →
        exposure_time (ds_tgt1 s) tidmax <= tgt_time (ds_tgt1 s !!! i))%Q
  ∧ (∃ i, i ∈ tidmax
          ∧ exposure_time (ds_tgt1 s) tidmax = tgt_time (ds_tgt1 s !!! i))
  ∧ ∃ continue s',
      subprocess_step fract ttime s (center, posang, tidmax, fidmax)
      = (Some (mkExposure (exposure_time (ds_tgt1 s) tidmax) center posang
                          tidmax fidmax), continue, s')
      ∧ (continue = false ↔
         (fract < (ds_acc s + inject_Z (Z.of_nat (length tidmax))
                              * exposure_time (ds_tgt1 s) tidmax) / ttime)%Q)
      ∧ (continue = false → ds_tgt1 s' = ds_tgt1 s)
      ∧ (continue = true →
         ∃ ks, increasing ks
          ∧ ds_tgt1 s'
            = updated (ds_tgt1 s) tidmax (exposure_time (ds_tgt1 s) tidmax)
              <$> ks
          ∧ ∀ i, i ∈ tidmax → i < length (ds_tgt1 s) →
              (i ∈ ks ↔
               (1e-7 < tgt_time (ds_tgt1 s !!! i)
                       - exposure_time (ds_tgt1 s) tidmax)%Q)
              ∧ tgt_time (updated (ds_tgt1 s) tidmax
                            (exposure_time (ds_tgt1 s) tidmax) i)
                = (tgt_time (ds_tgt1 s !!! i)
                   - exposure_time (ds_tgt1 s) tidmax)%Q).
Proof.
  intros Hne. destruct (exposure_time_min (ds_tgt1 s) tidmax Hne) as [Hmin Hex].
  split; [done|]. split; [done|].
  unfold subprocess_step. rewrite (proj2 (is_empty_false _) Hne).
  set (τ := exposure_time (ds_tgt1 s) tidmax).
  set (acc := (ds_acc s + inject_Z (Z.of_nat (length tidmax)) * τ)%Q).
  destruct (Qlt_bool fract (acc / ttime)) eqn:E.
  - eexists _, _. split; [done|]. apply Qlt_bool_iff in E.
    split; [done|]. split; [done|]. done.
  - eexists _, _. split; [done|]. apply Qlt_bool_false in E.
    split; [split; [done | intros Hlt; lra]|]. split; [done|].
    intros _. exists (filter (λ i, survives (ds_tgt1 s) tidmax τ i)
                             (seq 0 (length (ds_tgt1 s)))).
    split; [apply filter_seq_increasing|]. split; [apply strip_eq|].
    intros i Hi Hlen. split.
    + rewrite list_elem_of_filter, elem_of_seq. unfold survives.
      rewrite bool_decide_eq_true_2 by done. cbn [negb orb].
      rewrite Is_true_true, Qlt_bool_iff. split.
      * intros [Hlt _]. lra.
      * intros Hlt. split; [lra | lia].
    + unfold updated. by rewrite bool_decide_eq_true_2.
Qed.

Lemma driver_iteration_witness :
  [0] ≠ [] ∧
  (∀ i, i ∈ [0%nat] →
        exposure_time (ds_tgt1 ex_driver) [0%nat] <= tgt_time (ds_tgt1 ex_driver !!! i))%Q
  ∧ (∃ i, i ∈ [0%nat]
          ∧ exposure_time (ds_tgt1 ex_driver) [0%nat] = tgt_time (ds_tgt1 ex_driver !!! i))
  ∧ ∃ continue s',
      subprocess_step 2 10 ex_driver ((mkPointing 0 0), 0%Q, [0%nat], [85%nat])
      = (Some (mkExposure (exposure_time (ds_tgt1 ex_driver) [0%nat]) (mkPointing 0 0) 0%Q
                          [0%nat] [85%nat]), continue, s')
      ∧ (continue = false ↔
         (2 < (ds_acc ex_driver + inject_Z (Z.of_nat (length [0%nat]))
                              * exposure_time (ds_tgt1 ex_driver) [0%nat]) / 10)%Q)
      ∧ (continue = false → ds_tgt1 s' = ds_tgt1 ex_driver)
      ∧ (continue = true →
         ∃ ks, increasing ks
          ∧ ds_tgt1 s'
            = updated (ds_tgt1 ex_driver) [0%nat] (exposure_time (ds_tgt1 ex_driver) [0%nat])
              <$> ks
          ∧ ∀ i, i ∈ [0%nat] → i < length (ds_tgt1 ex_driver) →
              (i ∈ ks ↔
               (1e-7 < tgt_time (ds_tgt1 ex_driver !!! i)
                       - exposure_time (ds_tgt1 ex_driver) [0%nat])%Q)
              ∧ tgt_time (updated (ds_tgt1 ex_driver) [0%nat]
                            (exposure_time (ds_tgt1 ex_driver) [0%nat]) i)
                = (tgt_time (ds_tgt1 ex_driver !!! i)
                   - exposure_time (ds_tgt1 ex_driver) [0%nat])%Q).
Proof.
  split; [discriminate|].
  apply (driver_iteration 2 10 ex_driver (mkPointing 0 0) 0 [0] [85]).
  discriminate.
Defined.

(** C9, the counterexample.  With [fract = 0] and a single target of time
    10 that the exposure assigns, the iteration computes the duration 10
    and then ends the loop at the coverage test: the target keeps its time
    10 and stays in the vector, although its time less the duration does
    not exceed [1e-7]. *)
Lemma coverage_break_skips_strip :
  subprocess_step 0 10
    (mkDriver [mkTarget (Vec2 (-20) (-100)) 10 1 7] 0 0 0)
    (mkPointing 0 0, 0%Q, [0], [85])
  = (Some (mkExposure 10 (mkPointing 0 0) 0 [0] [85]), false,
     mkDriver [mkTarget (Vec2 (-20) (-100)) 10 1 7] (0 + 1 * 10) (0 + 10) 1)
  ∧ ¬ (1e-7 < 10 - 10)%Q.
Proof. split; [reflexivity | by vm_compute]. Qed.

(** C10.  [strip] keeps the targets in their order: the new vector holds,
    for an increasing list [ks] of indices of the old one, the targets
    [tgt[k]], each with its [id], [pri] and [pos] and, when [k] is not in
    [remove], with all its fields; every target not in [remove] is among
    them. *)
Theorem strip_frame (tgt : list Target) (remove : list nat) (time : Q) :
  ∃ ks,
    increasing ks
    ∧ (∀ k, k ∈ ks → k < length tgt)
    ∧ (∀ i, i < length tgt → i ∉ remove → i ∈ ks)
    ∧ length (strip tgt remove time) = length ks
    ∧ ∀ m k, ks !! m = Some k →
        ∃ t, strip tgt remove time !! m = Some t
             ∧ tgt_id t = tgt_id (tgt !!! k)
             ∧ tgt_pri t = tgt_pri (tgt !!! k)
             ∧ tgt_pos t = tgt_pos (tgt !!! k)
             ∧ (k ∉ remove → t = tgt !!! k).
Proof.
  exists (filter (λ i, survives tgt remove time i) (seq 0 (length tgt))).
  split; [apply filter_seq_increasing|]. split.
  { intros k [_ Hk%elem_of_seq]%list_elem_of_filter. lia. }
  split.
  { intros i Hi Hin. apply list_elem_of_filter. split.
    - unfold survives. by rewrite bool_decide_eq_false_2.
    - apply elem_of_seq. lia. }
  rewrite strip_eq. split; [by rewrite length_fmap|].
  intros m k Hk. exists (updated tgt remove time k).
  split; [by rewrite list_lookup_fmap, Hk|].
  unfold updated. destruct (bool_decide (k ∈ remove)) eqn:E; [|done].
  split; [done|]. split; [done|]. split; [done|].
  intros Hn. by rewrite bool_decide_eq_false_2 in E.
Qed.
(** * Further properties of the kernel *)

(** ** Geometry primitives and the spatial index *)

(** [rotate] is a similarity of the plane: it multiplies squared distances
    by [sa*sa + ca*ca], and rotating back with [(-sa, ca)] returns the
    point scaled by the same factor.  With a pair [(sa, ca)] of unit length
    it is an isometry with [rotate (-sa) ca] as its inverse. *)
Theorem rotate_similarity (p q : vec2) (sa ca : Q) :
  (dsq (rotate p sa ca) (rotate q sa ca) == (sa * sa + ca * ca) * dsq p q)%Q
  ∧ (vec2_x (rotate (rotate p sa ca) (- sa) ca)
     == (sa * sa + ca * ca) * vec2_x p)%Q
  ∧ (vec2_y (rotate (rotate p sa ca) (- sa) ca)
     == (sa * sa + ca * ca) * vec2_y p)%Q.
Proof.
  unfold dsq, rotate. cbn [vec2_x vec2_y]. split; [ring|]. split; ring.
Qed.


Lemma fpraster_new_box (loc : list vec2) (nx ny : nat) (r : fpraster) :
  fpraster_new loc nx ny = Some r →
  (fr_x0 r < fr_x1 r)%Q ∧ (fr_y0 r < fr_y1 r)%Q
  ∧ (fr_idx r == inject_Z (Z.of_nat nx) / (fr_x1 r - fr_x0 r))%Q
  ∧ (fr_idy r == inject_Z (Z.of_nat ny) / (fr_y1 r - fr_y0 r))%Q.
Proof.
  unfold fpraster_new. destruct (negb _); [done|].
  destruct loc as [|p0 rest]; [done|].
  destruct (fold_left bbox_step rest
              (vec2_x p0, vec2_x p0, vec2_y p0, vec2_y p0))
    as [[[x0 x1] y0] y1] eqn:Hbox.
  apply bbox_fold in Hbox as [(Hx0 & Hx1 & Hy0 & Hy1) _].
  intros [= <-]. cbn [set_data fr_x0 fr_x1 fr_y0 fr_y1 fr_idx fr_idy].
  assert (0 < 1e-9)%Q as Heps by done.
  split; [|split; [|split; reflexivity]].
  - destruct (Qeq_bool x0 x1) eqn:E.
    + apply Qeq_bool_iff in E. lra.
    + apply Qeq_bool_neq in E. lra.
  - destruct (Qeq_bool y0 y1) eqn:E.
    + apply Qeq_bool_iff in E. lra.
    + apply Qeq_bool_neq in E. lra.
Qed.

(** What the constructor of [fpraster] builds from a non-empty vector and
    positive cell counts: a bounding box that holds every point and has a
    positive extent in both directions (also for a single point), [nx * ny]
    cells, and every point index in exactly one cell, the one that [index]
    computes for the point, with no index stored twice. *)
Theorem fpraster_new_cells (loc : list vec2) (nx ny : nat) :
  loc ≠ [] → 0 < nx → 0 < ny →
  ∃ r, fpraster_new loc nx ny = Some r
    ∧ fr_loc r = loc
    ∧ length (fr_data r) = nx * ny
    ∧ (fr_x0 r < fr_x1 r)%Q ∧ (fr_y0 r < fr_y1 r)%Q
    ∧ (∀ k, k < length loc →
         (fr_x0 r <= vec2_x (loc !!! k) <= fr_x1 r)%Q
         ∧ (fr_y0 r <= vec2_y (loc !!! k) <= fr_y1 r)%Q)
    ∧ (∀ c k, k ∈ fr_data r !!! c ↔ k < length loc ∧ index r (loc !!! k) = c)
    ∧ (∀ c, NoDup (fr_data r !!! c)).
Proof.
  intros Hne Hnx Hny.
  destruct (fpraster_new_ok loc nx ny Hne Hnx Hny)
    as (r & Hr & Hok & Hloc & Hnx' & Hny').
  destruct (fpraster_new_box loc nx ny r Hr) as (Hx & Hy & _).
  exists r. split; [done|]. split; [done|].
  split; [by rewrite (rok_size r Hok), Hnx', Hny'|].
  split; [done|]. split; [done|].
  split; [|split].
  - intros k Hk. rewrite <- Hloc in Hk.
    destruct (rok_box r Hok k Hk) as (? & ? & ? & ?).
    rewrite <- Hloc. done.
  - intros c k. rewrite (rok_data r Hok). by rewrite Hloc.
  - apply Hok.
Qed.

Lemma fpraster_new_cells_witness :
  [Vec2 0 0; Vec2 3 1] ≠ [] ∧ 0 < 2 ∧ 0 < 2 ∧
  ∃ r, fpraster_new [Vec2 0 0; Vec2 3 1] 2 2 = Some r
    ∧ fr_loc r = [Vec2 0 0; Vec2 3 1]
    ∧ length (fr_data r) = 2 * 2
    ∧ (fr_x0 r < fr_x1 r)%Q ∧ (fr_y0 r < fr_y1 r)%Q
    ∧ (∀ k, k < length [Vec2 0 0; Vec2 3 1] →
         (fr_x0 r <= vec2_x ([Vec2 0 0; Vec2 3 1] !!! k) <= fr_x1 r)%Q
         ∧ (fr_y0 r <= vec2_y ([Vec2 0 0; Vec2 3 1] !!! k) <= fr_y1 r)%Q)
    ∧ (∀ c k, k ∈ fr_data r !!! c ↔
              k < length [Vec2 0 0; Vec2 3 1]
              ∧ index r ([Vec2 0 0; Vec2 3 1] !!! k) = c)
    ∧ (∀ c, NoDup (fr_data r !!! c)).
Proof.
  split; [discriminate|]. split; [lia|]. split; [lia|].
  apply (fpraster_new_cells [Vec2 0 0; Vec2 3 1] 2 2); [discriminate|lia|lia].
Defined.

(** No access of [query] or [anyIn] to the cells is out of range: for any
    centre and any radius, also far outside the bounding box, [index] and
    every cell number of the two loops is below [data.size()]. *)
Theorem raster_access_in_range (loc : list vec2) (nx ny : nat) :
  loc ≠ [] → 0 < nx → 0 < ny →
  ∃ r, fpraster_new loc nx ny = Some r ∧
    ∀ (p : vec2) (rad : Q),
      index r p < length (fr_data r)
      ∧ ∀ c, c ∈ cells r p rad → c < length (fr_data r).
Proof.
  intros Hne Hnx Hny.
  destruct (fpraster_new_ok loc nx ny Hne Hnx Hny)
    as (r & Hr & Hok & Hloc & Hnx' & Hny').
  exists r. split; [done|]. intros p rad.
  rewrite (rok_size r Hok). split.
  - apply index_lt; lia.
  - intros c (i & j & Hi & Hj & ->)%elem_of_cells.
    assert (indexx r (vec2_x p + rad) < fr_nx r) as Hi1
      by (apply clamp_index_lt; lia).
    assert (indexy r (vec2_y p + rad) < fr_ny r) as Hj1
      by (apply clamp_index_lt; lia).
    nia.
Qed.

Lemma raster_access_in_range_witness :
  [Vec2 0 0; Vec2 3 1] ≠ [] ∧ 0 < 2 ∧ 0 < 2 ∧
  ∃ r, fpraster_new [Vec2 0 0; Vec2 3 1] 2 2 = Some r ∧
    ∀ (p : vec2) (rad : Q),
      index r p < length (fr_data r)
      ∧ ∀ c, c ∈ cells r p rad → c < length (fr_data r).
Proof.
  split; [discriminate|]. split; [lia|]. split; [lia|].
  apply (raster_access_in_range [Vec2 0 0; Vec2 3 1] 2 2);
    [discriminate|lia|lia].
Defined.

(** [anyIn] answers whether [query] would return anything: on every
    raster, centre and radius, [anyIn] is true exactly when the result of
    [query] is not empty. *)
Theorem anyIn_is_query_nonempty (r : fpraster) (center : vec2) (rad : Q) :
  anyIn r center rad = negb (is_empty (query r center rad)).
Proof.
  destruct (anyIn r center rad) eqn:E.
  - apply anyIn_query in E as [k Hk].
    destruct (query r center rad); [by apply elem_of_nil in Hk|done].
  - destruct (query r center rad) as [|k l] eqn:Eq; [done|].
    assert (anyIn r center rad = true) as Ht.
    { apply anyIn_query. exists k. rewrite Eq. by left. }
    congruence.
Qed.

(** [kernelfunc] is never negative and never above [r_kernel^2], it
    vanishes exactly from the squared distance [r_kernel^2] on, and it does
    not increase with the distance. *)
Theorem kernelfunc_shape (rsq : Q) :
  (0 <= kernelfunc rsq)%Q
  ∧ ((0 <= rsq)%Q → (kernelfunc rsq <= r_kernel * r_kernel)%Q)
  ∧ ((kernelfunc rsq == 0)%Q ↔ (r_kernel * r_kernel <= rsq)%Q)
  ∧ ∀ rsq', (rsq <= rsq')%Q → (kernelfunc rsq' <= kernelfunc rsq)%Q.
Proof.
  unfold kernelfunc.
  split; [apply Q.le_max_l|].
  split.
  { intros H0. apply Q.max_lub; [|lra].
    unfold r_kernel. by vm_compute. }
  split.
  - split.
    + intros Hz. pose proof (Q.le_max_r 0 (r_kernel * r_kernel - rsq)). lra.
    + intros Hle. apply Qle_antisym; [|apply Q.le_max_l].
      apply Q.max_lub; lra.
  - intros rsq' Hle. apply Q.max_lub; [apply Q.le_max_l|].
    pose proof (Q.le_max_r 0 (r_kernel * r_kernel - rsq)). lra.
Qed.

(** The dot of a fiber is 1.19 mm from the centre of the fiber, closer
    than [dotdist]: a target that lies exactly at the centre of a fiber is
    hidden by the dot and is not reached by that fiber. *)
Theorem fiber_centre_unreachable (tgt : list Target) (f j : nat) :
  tgt_pos (tgt !!! j) = id2fiberpos (Z.of_nat f) →
  (dsq (id2dotpos (Z.of_nat f)) (id2fiberpos (Z.of_nat f)) == 1.19 * 1.19)%Q
  ∧ ¬ reaches tgt f j.
Proof.
  intros Hpos.
  assert (dsq (id2dotpos (Z.of_nat f)) (id2fiberpos (Z.of_nat f))
          == 1.19 * 1.19)%Q as Hdot.
  { unfold id2dotpos, dsq. cbn [vec2_x vec2_y]. ring. }
  split; [exact Hdot|]. unfold reaches. rewrite Hpos. intros [_ Hfar].
  rewrite Hdot in Hfar. by vm_compute in Hfar.
Qed.

Lemma fiber_centre_unreachable_witness :
  tgt_pos ([mkTarget (id2fiberpos 0) 10 1 7] !!! 0)
  = id2fiberpos (Z.of_nat 0) ∧
  (dsq (id2dotpos (Z.of_nat 0)) (id2fiberpos (Z.of_nat 0)) == 1.19 * 1.19)%Q
  ∧ ¬ reaches [mkTarget (id2fiberpos 0) 10 1 7] 0 0.
Proof.
  split; [reflexivity|].
  apply (fiber_centre_unreachable [mkTarget (id2fiberpos 0) 10 1 7] 0 0).
  reflexivity.
Defined.



(** ** The priority queue with any comparator *)

Section pqueue_any.
Context {T : Type} `{!Inhabited T}.
Variable comp : T → T → bool.
Hypothesis comp_sw : strict_weak comp.

Lemma set_priorities_spec (ups : list (T * nat)) :
  ∀ (q : pqueue T) (cur : list T),
    pq_wf q → heap_from comp 1 q →
    length (pq_nodes q) = length cur →
    (∀ j, j < length cur → priority q j = cur !!! j) →
    Forall (λ u, u.2 < length cur) ups →
    pq_wf (set_priorities comp q ups)
    ∧ heap_from comp 1 (set_priorities comp q ups)
    ∧ length (pq_nodes (set_priorities comp q ups)) = length cur
    ∧ length (write_all cur ups) = length cur
    ∧ ∀ j, j < length cur →
           priority (set_priorities comp q ups) j = write_all cur ups !!! j.
Proof.
  induction ups as [|[p pos] ups IH]; intros q cur Hwf Hh Hlen Hpri Hups.
  - done.
  - apply Forall_cons in Hups as [Hpos Hups]. simpl in Hpos.
    unfold set_priorities, write_all. cbn [fold_left fst snd].
    destruct (set_priority_spec comp comp_sw q p pos Hwf Hh)
      as (Hwf' & Hh' & Hlen' & Hpri'); [by rewrite Hlen|].
    destruct (IH (set_priority comp q p pos) (<[pos := p]> cur))
      as (H1 & H2 & H3 & H4 & H5).
    + done.
    + done.
    + by rewrite Hlen', length_insert.
    + intros j Hj. rewrite length_insert in Hj. rewrite Hpri'.
      rewrite list_lookup_total_insert.
      destruct (decide (j = pos)) as [->|Hne].
      * by rewrite decide_True.
      * rewrite decide_False by (by intros [? _]). by apply Hpri.
    + by rewrite length_insert.
    + rewrite length_insert in *. done.
Qed.
End pqueue_any.

(** With any comparator that is a strict weak order, the queue built from
    a non-empty vector and changed by any [set_priority] calls at valid
    positions has at [top()] a position whose priority no other priority
    exceeds, and [top_priority()] is the priority stored there. *)
Theorem pqueue_top_maximal {T : Type} `{!Inhabited T} (comp : T → T → bool)
    (pri : list T) (ups : list (T * nat)) :
  strict_weak comp → pri ≠ [] → Forall (λ u, u.2 < length pri) ups →
  top (set_priorities comp (pqueue_new comp pri) ups) < length pri
  ∧ top_priority (set_priorities comp (pqueue_new comp pri) ups)
    = write_all pri ups
      !!! top (set_priorities comp (pqueue_new comp pri) ups)
  ∧ ∀ j, j < length pri →
      comp (top_priority (set_priorities comp (pqueue_new comp pri) ups))
           (write_all pri ups !!! j) = false.
Proof.
  intros Hsw Hne Hups.
  destruct (pqueue_new_spec comp Hsw pri) as (Hwf0 & Hh0 & Hlen0 & Hpri0).
  destruct (set_priorities_spec comp Hsw ups (pqueue_new comp pri) pri)
    as (Hwf & Hh & Hlen & Hlen' & Hpri); [done..|].
  set (q := set_priorities comp (pqueue_new comp pri) ups) in *.
  assert (0 < length pri) as Hpos by (destruct pri; [done|simpl; lia]).
  destruct (top_spec comp Hsw q Hwf Hh) as (Htop & Htp & Hmax); [lia|].
  rewrite Hlen in Htop, Hmax. split; [done|].
  rewrite Htp. split; [by apply Hpri|].
  intros j Hj. rewrite <- Hpri by done. by apply Hmax.
Qed.

Lemma pqueue_top_maximal_witness :
  strict_weak pq_entry_lt ∧ ex_entries ≠ [] ∧
  Forall (λ u : pq_entry * nat, u.2 < length ex_entries) ex_updates ∧
  top (set_priorities pq_entry_lt (pqueue_new pq_entry_lt ex_entries)
         ex_updates) < length ex_entries
  ∧ top_priority (set_priorities pq_entry_lt
                    (pqueue_new pq_entry_lt ex_entries) ex_updates)
    = write_all ex_entries ex_updates
      !!! top (set_priorities pq_entry_lt
                 (pqueue_new pq_entry_lt ex_entries) ex_updates)
  ∧ ∀ j, j < length ex_entries →
      pq_entry_lt
        (top_priority (set_priorities pq_entry_lt
                         (pqueue_new pq_entry_lt ex_entries) ex_updates))
        (write_all ex_entries ex_updates !!! j) = false.
Proof.
  split; [apply pq_entry_lt_sw|].
  split; [discriminate|].
  split; [repeat constructor|].
  apply (pqueue_top_maximal pq_entry_lt ex_entries ex_updates);
    [apply pq_entry_lt_sw | discriminate | repeat constructor].
Defined.

(** The queue keeps its books through construction and updates:
    [priority(pos)] is the value last written at [pos] (the constructor's
    if none was), the number of nodes does not change, and [idx] and the
    [pos] fields stay inverse to each other, with every heap position
    between 1 and the number of nodes. *)
Theorem pqueue_priority_tracks {T : Type} `{!Inhabited T}
    (comp : T → T → bool) (pri : list T) (ups : list (T * nat)) :
  strict_weak comp → Forall (λ u, u.2 < length pri) ups →
  length (pq_nodes (set_priorities comp (pqueue_new comp pri) ups))
  = length pri
  ∧ length (pq_idx (set_priorities comp (pqueue_new comp pri) ups))
    = S (length pri)
  ∧ ∀ j, j < length pri →
      priority (set_priorities comp (pqueue_new comp pri) ups) j
      = write_all pri ups !!! j
      ∧ 1 ≤ node_pos (pq_nodes (set_priorities comp (pqueue_new comp pri) ups)
                      !!! j) ≤ length pri
      ∧ pq_idx (set_priorities comp (pqueue_new comp pri) ups)
        !!! node_pos (pq_nodes (set_priorities comp (pqueue_new comp pri) ups)
                      !!! j)
        = j.
Proof.
  intros Hsw Hups.
  destruct (pqueue_new_spec comp Hsw pri) as (Hwf0 & Hh0 & Hlen0 & Hpri0).
  destruct (set_priorities_spec comp Hsw ups (pqueue_new comp pri) pri)
    as (Hwf & Hh & Hlen & Hlen' & Hpri); [done..|].
  set (q := set_priorities comp (pqueue_new comp pri) ups) in *.
  split; [done|]. split; [by rewrite (wf_len q Hwf), Hlen|].
  intros j Hj. split; [by apply Hpri|].
  destruct (wf_pos q Hwf j) as [Hrange Hinv]; [by rewrite Hlen|].
  rewrite Hlen in Hrange. done.
Qed.

Lemma pqueue_priority_tracks_witness :
  strict_weak pq_entry_lt ∧
  Forall (λ u : pq_entry * nat, u.2 < length ex_entries) ex_updates ∧
  length (pq_nodes (set_priorities pq_entry_lt
                      (pqueue_new pq_entry_lt ex_entries) ex_updates))
  = length ex_entries
  ∧ length (pq_idx (set_priorities pq_entry_lt
                      (pqueue_new pq_entry_lt ex_entries) ex_updates))
    = S (length ex_entries)
  ∧ ∀ j, j < length ex_entries →
      priority (set_priorities pq_entry_lt
                  (pqueue_new pq_entry_lt ex_entries) ex_updates) j
      = write_all ex_entries ex_updates !!! j
      ∧ 1 ≤ node_pos (pq_nodes (set_priorities pq_entry_lt
                                  (pqueue_new pq_entry_lt ex_entries)
                                  ex_updates) !!! j) ≤ length ex_entries
      ∧ pq_idx (set_priorities pq_entry_lt
                  (pqueue_new pq_entry_lt ex_entries) ex_updates)
        !!! node_pos (pq_nodes (set_priorities pq_entry_lt
                                  (pqueue_new pq_entry_lt ex_entries)
                                  ex_updates) !!! j)
        = j.
Proof.
  split; [apply pq_entry_lt_sw|].
  split; [repeat constructor|].
  apply (pqueue_priority_tracks pq_entry_lt ex_entries ex_updates);
    [apply pq_entry_lt_sw | repeat constructor].
Defined.

(** [pq_entry::operator<] is a strict weak order, as the queue needs: an
    entry is below another when its [pri] is larger or, at equal [pri],
    its [prox] is smaller; no entry is below itself, the relation is
    transitive, and so is being not below. *)
Theorem pq_entry_order (a b c : pq_entry) :
  (pq_entry_lt a b = true ↔
   (pe_pri b < pe_pri a)%Z
   ∨ (pe_pri a = pe_pri b ∧ (pe_prox a < pe_prox b)%Q))
  ∧ pq_entry_lt a a = false
  ∧ (pq_entry_lt a b = true → pq_entry_lt b c = true →
     pq_entry_lt a c = true)
  ∧ (pq_entry_lt a b = false → pq_entry_lt b c = false →
     pq_entry_lt a c = false).
Proof.
  split; [apply pq_entry_lt_true|].
  split; [apply (sw_irrefl _ pq_entry_lt_sw)|].
  split; [apply (sw_trans _ pq_entry_lt_sw)|].
  apply (sw_negtrans _ pq_entry_lt_sw).
Qed.

(** ** The reachability mappings *)

Lemma filter_eq_ne_length (v : list nat) (val : nat) :
  length (filter (λ x, x = val) v) + length (filter (λ x, x ≠ val) v)
  = length v.
Proof.
  induction v as [|x v IH]; [done|].
  destruct (decide (x = val)) as [Hx|Hx].
  - rewrite (filter_cons_True (λ x, x = val)) by done.
    rewrite (filter_cons_False (λ x, x ≠ val)) by (by intros ?).
    simpl. lia.
  - rewrite (filter_cons_False (λ x, x = val)) by done.
    rewrite (filter_cons_True (λ x, x ≠ val)) by done.
    simpl. lia.
Qed.

Lemma filter_ne_full (v : list nat) (val : nat) :
  length (filter (λ x, x ≠ val) v) = length v ↔ val ∉ v.
Proof.
  split.
  - intros Hlen Hin.
    assert (val ∈ filter (λ x, x = val) v) as Hf
      by (by apply list_elem_of_filter).
    pose proof (filter_eq_ne_length v val).
    destruct (filter (λ x, x = val) v); [by apply elem_of_nil in Hf|].
    simpl in *. lia.
  - intros Hin. by rewrite filter_ne_id.
Qed.

(** [stripout(v, val)] is undefined exactly when [val] does not occur in
    [v].  Whenever it is defined the vector has lost exactly one entry, so
    the assertion on the size holds however often [val] occurred; with
    exactly one occurrence the result is [v] without it, the other
    entries in their order. *)
Theorem stripout_behaviour (v : list nat) (val : nat) :
  (stripout v val = None ↔ val ∉ v)
  ∧ (∀ v', stripout v val = Some v' → length v' + 1 = length v)
  ∧ (length (filter (λ x, x = val) v) = 1 →
     stripout v val = Some (filter (λ x, x ≠ val) v)).
Proof.
  pose proof (filter_eq_ne_length v val) as Hsum.
  split; [|split].
  - rewrite <- filter_ne_full. unfold stripout.
    destruct (length (filter (λ x, x ≠ val) v) =? length v) eqn:E.
    + apply Nat.eqb_eq in E. done.
    + apply Nat.eqb_neq in E.
      assert (length (filter (λ x, x ≠ val) v) < length v) as Hlt.
      { pose proof (length_filter (λ x, x ≠ val) v). lia. }
      rewrite length_app, length_drop.
      rewrite (proj2 (Nat.eqb_eq _ _)) by lia.
      split; [done | by intros ?].
  - intros v'. apply stripout_length.
  - intros Hone. unfold stripout.
    destruct (length (filter (λ x, x ≠ val) v) =? length v) eqn:E;
      [apply Nat.eqb_eq in E; lia|].
    rewrite drop_ge by lia. rewrite app_nil_r.
    rewrite (proj2 (Nat.eqb_eq _ _)) by lia. done.
Qed.

Lemma push_all_increasing (i : nat) (l : list nat) (m : list (list nat)) :
  NoDup l → (∀ t, t ∈ l → t < length m) →
  (∀ t, increasing (m !!! t)) → (∀ t f, f ∈ m !!! t → f < i) →
  ∀ t, increasing (fold_left (λ m t, alter (λ v, v ++ [i]) t m) l m !!! t).
Proof.
  intros Hnd Hlt Hinc Hbound t.
  destruct (push_all_spec i l m Hnd Hlt) as [_ Hget]. rewrite Hget.
  destruct (decide (t ∈ l)); [|done].
  apply increasing_snoc; [done|]. intros f Hf. by eapply Hbound.
Qed.

Lemma invert_fold_increasing (f2t : list (list nat)) (n m : nat) :
  (∀ f, NoDup (f2t !!! f)) → (∀ f t, t ∈ f2t !!! f → t < n) →
  ∀ t, increasing
         (fold_left (invert_step f2t) (seq 0 m) (replicate n []) !!! t).
Proof.
  intros Hnd Hlt. induction m as [|m IH]; intros t.
  - simpl. intros a b ka kb _ Ha.
    destruct (decide (t < n)).
    + rewrite lookup_total_replicate_2 in Ha by done.
      by rewrite lookup_nil in Ha.
    + rewrite lookup_total_ge in Ha by (rewrite length_replicate; lia).
      by rewrite lookup_nil in Ha.
  - rewrite seq_S, fold_left_app. cbn [fold_left Nat.add].
    destruct (invert_fold_spec f2t n m Hnd Hlt) as (Hlen & _ & Hmem).
    unfold invert_step at 1. apply push_all_increasing.
    + apply Hnd.
    + intros t' Ht'. rewrite Hlen. by eapply Hlt.
    + apply IH.
    + intros t' f [Hf _]%Hmem. done.
Qed.

(** The shape of the mappings that [calcMappings] builds: one list per
    fiber and one per target, all entries in range, no entry twice in a
    list, and every list of [t2f] in increasing order of the fiber
    numbers. *)
Theorem calcMappings_shape (tgt : list Target) :
  tgt ≠ [] →
  ∃ raster, tgt2raster tgt 100 100 = Some raster ∧
    length (calcMappings tgt raster).1 = nfiber
    ∧ length (calcMappings tgt raster).2 = length tgt
    ∧ (∀ f t, t ∈ (calcMappings tgt raster).1 !!! f →
         f < nfiber ∧ t < length tgt)
    ∧ (∀ t f, f ∈ (calcMappings tgt raster).2 !!! t →
         f < nfiber ∧ t < length tgt)
    ∧ (∀ f, NoDup ((calcMappings tgt raster).1 !!! f))
    ∧ (∀ t, NoDup ((calcMappings tgt raster).2 !!! t))
    ∧ ∀ t, increasing ((calcMappings tgt raster).2 !!! t).
Proof.
  intros Hne.
  destruct (tgt2raster_ok tgt 100 100 Hne) as (raster & Hr & Hok & Hloc);
    [lia | lia |].
  exists raster. split; [done|].
  pose proof (calcMappings_ok tgt raster Hok Hloc) as Hm.
  pose proof (mok_f2t_len _ _ _ Hm) as Hl1.
  pose proof (mok_t2f_len _ _ _ Hm) as Hl2.
  assert (∀ f t, t ∈ (calcMappings tgt raster).1 !!! f →
                 f < nfiber ∧ t < length tgt) as Hrange.
  { intros f t Hin. split.
    - rewrite <- Hl1. by eapply elem_of_lookup_total_lt.
    - apply (mok_inv _ _ _ Hm) in Hin. rewrite <- Hl2.
      by eapply elem_of_lookup_total_lt. }
  split; [done|]. split; [done|]. split; [done|].
  split; [intros t f Hin; by apply Hrange, (mok_inv _ _ _ Hm)|].
  split; [apply Hm|]. split; [apply Hm|].
  intros t. unfold calcMappings. cbn [snd].
  apply invert_fold_increasing.
  - apply (mok_f2t_nodup _ _ _ Hm).
  - intros f t' Hin. by apply (Hrange f t').
Qed.

Lemma calcMappings_shape_witness :
  [mkTarget (Vec2 (-20) (-100)) 10 1 7] ≠ [] ∧
  ∃ raster,
    tgt2raster [mkTarget (Vec2 (-20) (-100)) 10 1 7] 100 100 = Some raster ∧
    length (calcMappings [mkTarget (Vec2 (-20) (-100)) 10 1 7] raster).1
    = nfiber
    ∧ length (calcMappings [mkTarget (Vec2 (-20) (-100)) 10 1 7] raster).2
      = length [mkTarget (Vec2 (-20) (-100)) 10 1 7]
    ∧ (∀ f t,
         t ∈ (calcMappings [mkTarget (Vec2 (-20) (-100)) 10 1 7] raster).1
             !!! f →
         f < nfiber ∧ t < length [mkTarget (Vec2 (-20) (-100)) 10 1 7])
    ∧ (∀ t f,
         f ∈ (calcMappings [mkTarget (Vec2 (-20) (-100)) 10 1 7] raster).2
             !!! t →
         f < nfiber ∧ t < length [mkTarget (Vec2 (-20) (-100)) 10 1 7])
    ∧ (∀ f, NoDup ((calcMappings [mkTarget (Vec2 (-20) (-100)) 10 1 7]
                      raster).1 !!! f))
    ∧ (∀ t, NoDup ((calcMappings [mkTarget (Vec2 (-20) (-100)) 10 1 7]
                      raster).2 !!! t))
    ∧ ∀ t, increasing ((calcMappings [mkTarget (Vec2 (-20) (-100)) 10 1 7]
                          raster).2 !!! t).
Proof.
  split; [discriminate|].
  apply (calcMappings_shape [mkTarget (Vec2 (-20) (-100)) 10 1 7]).
  discriminate.
Defined.



(** ** What the strategies assign *)

Lemma increasing_nil : increasing [].
Proof. intros a b ka kb _ Ha. by rewrite lookup_nil in Ha. Qed.

Lemma max_length_bound (l : list (list nat)) : ∀ (m : nat) (f : nat),
  length (l !!! f) ≤ fold_left (λ m v, Nat.max m (length v)) l m
  ∧ m ≤ fold_left (λ m v, Nat.max m (length v)) l m.
Proof.
  induction l as [|v l IH]; intros m f; cbn [fold_left].
  - rewrite lookup_total_ge by (simpl; lia). simpl. lia.
  - destruct f as [|f].
    + destruct (IH (Nat.max m (length v)) 0) as [_ H]. simpl. lia.
    + destruct (IH (Nat.max m (length v)) f) as [H1 H2]. simpl.
      split; [done | lia].
Qed.

Lemma min_fiber_fold (f2t : list (list nat)) (l : list nat) :
  ∀ (s : Z * nat),
    (s.1 = (-1)%Z ∨ ∃ i, s.1 = Z.of_nat i ∧ s.2 = length (f2t !!! i)
                         ∧ 0 < s.2) →
    let s' :=
      fold_left
        (λ '(fiber, mintgt) i,
           if (length (f2t !!! i) <? mintgt) && (0 <? length (f2t !!! i))
           then (Z.of_nat i, length (f2t !!! i))
           else (fiber, mintgt)) l s in
    s'.2 ≤ s.2
    ∧ (∀ i, i ∈ l → 0 < length (f2t !!! i) →
         s'.2 ≤ length (f2t !!! i))
    ∧ (s'.1 = (-1)%Z → s.1 = (-1)%Z ∧ s'.2 = s.2)
    ∧ (s'.1 ≠ (-1)%Z →
       ∃ i, s'.1 = Z.of_nat i ∧ s'.2 = length (f2t !!! i) ∧ 0 < s'.2)
    ∧ (s.1 = (-1)%Z → s'.1 ≠ (-1)%Z → s'.2 < s.2).
Proof.
  induction l as [|i l IH]; intros [fiber mintgt] Hs; cbn [fold_left].
  - cbv zeta. simpl in *. split; [done|].
    split; [by intros i ?%elem_of_nil|]. split; [done|].
    split; [|done]. intros Hne. by destruct Hs.
  - cbv zeta.
    destruct ((length (f2t !!! i) <? mintgt) && (0 <? length (f2t !!! i)))
      eqn:E.
    + apply andb_true_iff in E as [E1 E2].
      apply Nat.ltb_lt in E1, E2.
      destruct (IH (Z.of_nat i, length (f2t !!! i)))
        as (H1 & H2 & H3 & H4 & _).
      { right. exists i. done. }
      cbv zeta in *. simpl in *.
      split; [lia|]. split.
      * intros j [->|Hj]%elem_of_cons Hpos; [done|by apply H2].
      * split; [|split; [done|]].
        -- intros Hm. apply H3 in Hm as [Hm _]. lia.
        -- intros _ _. lia.
    + destruct (IH (fiber, mintgt) Hs) as (H1 & H2 & H3 & H4).
      cbv zeta in *. simpl in *.
      split; [done|]. split; [|done].
      intros j [->|Hj]%elem_of_cons Hpos; [|by apply H2].
      apply andb_false_iff in E as [E|E].
      * apply Nat.ltb_ge in E. lia.
      * apply Nat.ltb_ge in E. lia.
Qed.

(** The search of [DrainingAssigner::assign]: it finds no fiber exactly
    when no fiber has between 1 and [maxtgt] targets, and otherwise a
    fiber with the fewest targets among those. *)
Theorem min_fiber_fewest (f2t : list (list nat)) (maxtgt : nat) :
  ((min_fiber f2t maxtgt).1 = (-1)%Z ↔
   ∀ i, i < length f2t → ¬ 0 < length (f2t !!! i) ≤ maxtgt)
  ∧ ((min_fiber f2t maxtgt).1 ≠ (-1)%Z →
     ∃ i, (min_fiber f2t maxtgt).1 = Z.of_nat i
          ∧ (min_fiber f2t maxtgt).2 = length (f2t !!! i)
          ∧ i < length f2t
          ∧ 0 < length (f2t !!! i) ≤ maxtgt
          ∧ ∀ j, j < length f2t → 0 < length (f2t !!! j) →
                 length (f2t !!! i) ≤ length (f2t !!! j)).
Proof.
  unfold min_fiber.
  destruct (min_fiber_fold f2t (seq 0 (length f2t)) ((-1)%Z, maxtgt + 1))
    as (H1 & H2 & H3 & H4 & H5); [by left|].
  cbv zeta in *. cbn [fst snd] in H1, H2, H3, H4, H5.
  match goal with
  | |- context [fold_left ?f ?l ?s] => set (r := fold_left f l s) in *
  end.
  split; [split|].
  - intros Hm i Hi [Hpos Hle]. apply H3 in Hm as [_ Hm].
    assert (r.2 ≤ length (f2t !!! i)); [|lia].
    apply H2; [apply elem_of_seq; lia | done].
  - intros Hall. destruct (decide (r.1 = (-1)%Z)) as [|Hne]; [done|].
    pose proof (H5 eq_refl Hne) as Hlt.
    apply H4 in Hne as (i & Hi & Hlen & Hpos). exfalso.
    assert (i < length f2t) as Hil.
    { destruct (decide (i < length f2t)); [done|].
      rewrite lookup_total_ge in Hlen by lia. simpl in Hlen. lia. }
    apply (Hall i Hil). lia.
  - intros Hne. pose proof (H5 eq_refl Hne) as Hlt.
    apply H4 in Hne as (i & Hi & Hlen & Hpos).
    exists i. split; [done|]. split; [done|].
    assert (i < length f2t) as Hil.
    { destruct (decide (i < length f2t)); [done|].
      rewrite lookup_total_ge in Hlen by lia. simpl in Hlen. lia. }
    split; [done|]. split; [lia|].
    intros j Hj Hposj. rewrite <- Hlen. apply H2; [|done].
    apply elem_of_seq. lia.
Qed.

Lemma min_fiber_of_fold (f2t : list (list nat)) (fibers : list nat)
    (l : list nat) :
  ∀ (s : nat * nat),
    s.2 = length (f2t !!! (fibers !!! s.1)) →
    let s' :=
      fold_left
        (λ '(ifib, mintgt) i,
           if length (f2t !!! (fibers !!! i)) <? mintgt
           then (i, length (f2t !!! (fibers !!! i)))
           else (ifib, mintgt)) l s in
    s'.2 = length (f2t !!! (fibers !!! s'.1))
    ∧ s'.2 ≤ s.2
    ∧ (s'.1 = s.1 ∨ s'.1 ∈ l)
    ∧ ∀ i, i ∈ l → s'.2 ≤ length (f2t !!! (fibers !!! i)).
Proof.
  induction l as [|i l IH]; intros [ifib mintgt] Hs; cbn [fold_left].
  - cbv zeta. simpl in *. split; [done|]. split; [done|].
    split; [by left|]. by intros i ?%elem_of_nil.
  - cbv zeta.
    destruct (length (f2t !!! (fibers !!! i)) <? mintgt) eqn:E.
    + apply Nat.ltb_lt in E.
      destruct (IH (i, length (f2t !!! (fibers !!! i)))) as (H1 & H2 & H3 & H4);
        [done|].
      cbv zeta in *. simpl in *.
      split; [done|]. split; [lia|]. split.
      * right. destruct H3 as [->|H3]; [by left | by right].
      * intros j [->|Hj]%elem_of_cons; [done | by apply H4].
    + apply Nat.ltb_ge in E.
      destruct (IH (ifib, mintgt) Hs) as (H1 & H2 & H3 & H4).
      cbv zeta in *. simpl in *.
      split; [done|]. split; [done|]. split.
      * destruct H3 as [->|H3]; [by left | by right; right].
      * intros j [->|Hj]%elem_of_cons; [lia | by apply H4].
Qed.

(** The search of [NewAssigner::assign] among the fibers of a target: it
    returns a position of the non-empty vector [fibers] whose fiber has
    the fewest targets of all fibers in it. *)
Theorem min_fiber_of_fewest (f2t : list (list nat)) (fibers : list nat) :
  fibers ≠ [] →
  (min_fiber_of f2t fibers).1 < length fibers
  ∧ (min_fiber_of f2t fibers).2
    = length (f2t !!! (fibers !!! (min_fiber_of f2t fibers).1))
  ∧ ∀ i, i < length fibers →
      length (f2t !!! (fibers !!! (min_fiber_of f2t fibers).1))
      ≤ length (f2t !!! (fibers !!! i)).
Proof.
  intros Hne. unfold min_fiber_of.
  assert (0 < length fibers) as H0 by (destruct fibers; [done|simpl; lia]).
  destruct (min_fiber_of_fold f2t fibers (seq 1 (length fibers - 1))
              (0, length (f2t !!! (fibers !!! 0))))
    as (H1 & H2 & H3 & H4); [done|].
  cbv zeta in *. cbn [fst snd] in H1, H2, H3, H4.
  match goal with
  | |- context [fold_left ?f ?l ?s] => set (r := fold_left f l s) in *
  end.
  split; [|split; [done|]].
  - destruct H3 as [->|H3%elem_of_seq]; lia.
  - intros i Hi. rewrite <- H1. destruct i as [|i]; [done|].
    apply H4, elem_of_seq. lia.
Qed.

Lemma min_fiber_of_fewest_witness :
  [7; 3] ≠ [] ∧
  (min_fiber_of [[]; []; []; [0]; []; []; []; [0; 1]] [7; 3]).1
  < length [7; 3]
  ∧ (min_fiber_of [[]; []; []; [0]; []; []; []; [0; 1]] [7; 3]).2
    = length ([[]; []; []; [0]; []; []; []; [0; 1]]
              !!! ([7; 3]
                   !!! (min_fiber_of [[]; []; []; [0]; []; []; []; [0; 1]]
                          [7; 3]).1))
  ∧ ∀ i, i < length [7; 3] →
      length ([[]; []; []; [0]; []; []; []; [0; 1]]
              !!! ([7; 3]
                   !!! (min_fiber_of [[]; []; []; [0]; []; []; []; [0; 1]]
                          [7; 3]).1))
      ≤ length ([[]; []; []; [0]; []; []; []; [0; 1]] !!! ([7; 3] !!! i)).
Proof.
  split; [discriminate|].
  apply (min_fiber_of_fewest [[]; []; []; [0]; []; []; []; [0; 1]] [7; 3]).
  discriminate.
Defined.

Section traces.
Variables (tgt : list Target) (raster : fpraster).
Hypothesis raster_is_ok : raster_ok raster.
Hypothesis raster_loc : fr_loc raster = tgt_pos <$> tgt.




Lemma assign_init_f2t : as_f2t (assign_init tgt raster) = f2t_init tgt raster.
Proof.
  unfold assign_init, f2t_init. by destruct (calcMappings tgt raster).
Qed.

Lemma assign_init_out :
  as_tid (assign_init tgt raster) = []
  ∧ as_fid (assign_init tgt raster) = [].
Proof. unfold assign_init. by destruct (calcMappings tgt raster). Qed.

Lemma assign_init_trace :
  assign_trace tgt (f2t_init tgt raster) (assign_init tgt raster).
Proof.
  destruct assign_init_out as [Ht Hf].
  split.
  - intros i t f Hi. rewrite Ht in Hi. by rewrite lookup_nil in Hi.
  - intros f t. by rewrite assign_init_f2t.
  - intros f t Hin. left. by rewrite assign_init_f2t.
Qed.

(** What [commit] changes. *)
Lemma commit_step (st : assign_state) (fiber itgt : nat) :
  assign_ok tgt st → itgt ∈ as_f2t st !!! fiber →
  ∃ st', commit tgt raster st fiber itgt = Some st'
    ∧ assign_ok tgt st'
    ∧ as_tid st' = as_tid st ++ [itgt]
    ∧ as_fid st' = as_fid st ++ [fiber]
    ∧ (∀ f t, t ∈ as_f2t st' !!! f ↔
         t ∈ as_f2t st !!! f ∧ f ≠ fiber ∧ ¬ colliding tgt itgt t)
    ∧ (∀ t, as_t2f st !!! t = [] → as_t2f st' !!! t = []).
Proof.
  intros Hok Hin.
  destruct (commit_ok tgt raster raster_is_ok raster_loc st fiber itgt
              Hok Hin) as (st' & Hc & Hok' & _ & _ & _ & Hsub2).
  exists st'. split; [done|]. split; [done|].
  pose proof (aok_maps tgt st Hok) as Hm.
  destruct (cleanup_spec (length tgt) tgt raster (as_f2t st) (as_t2f st)
              fiber itgt Hm) as (f2t' & t2f' & Hcl & Hm' & Hmem).
  unfold commit in Hc. rewrite Hcl in Hc. simpl in Hc.
  injection Hc as <-. cbn [as_tid as_fid as_f2t as_t2f] in *.
  split; [done|]. split; [done|]. split; [|done].
  intros f t. rewrite Hmem, (blocked_iff tgt raster raster_is_ok raster_loc).
  split.
  - intros (Ht & Hf & Hn). split; [done|]. split; [done|].
    intros Hcol. apply Hn. split; [|done].
    apply (mok_inv _ _ _ Hm) in Ht.
    rewrite <- (mok_t2f_len _ _ _ Hm). by eapply elem_of_lookup_total_lt.
  - intros (Ht & Hf & Hn). split; [done|]. split; [done|].
    by intros [_ Hcol].
Qed.

Lemma commit_trace (st st' : assign_state) (fiber itgt : nat) :
  assign_ok tgt st → assign_trace tgt (f2t_init tgt raster) st →
  itgt ∈ as_f2t st !!! fiber →
  as_tid st' = as_tid st ++ [itgt] →
  as_fid st' = as_fid st ++ [fiber] →
  (∀ f t, t ∈ as_f2t st' !!! f ↔
     t ∈ as_f2t st !!! f ∧ f ≠ fiber ∧ ¬ colliding tgt itgt t) →
  assign_trace tgt (f2t_init tgt raster) st'.
Proof.
  intros Hok Htr Hin Htid Hfid Hmem.
  pose proof (aok_len tgt st Hok) as Hlen.
  split.
  - intros i t f. rewrite Htid, Hfid. intros Hi Hf.
    destruct (decide (i < length (as_tid st))) as [Hlt|Hge].
    + rewrite lookup_app_l in Hi by done.
      rewrite lookup_app_l in Hf by lia.
      by apply (atr_pairs _ _ _ Htr i).
    + rewrite lookup_app_r in Hi by lia.
      rewrite lookup_app_r in Hf by lia.
      apply list_lookup_singleton_Some in Hi as [_ <-].
      apply list_lookup_singleton_Some in Hf as [_ <-].
      by apply (atr_sub _ _ _ Htr).
  - intros f t [Ht _]%Hmem. by apply (atr_sub _ _ _ Htr).
  - intros f t Hin0. rewrite Htid, Hfid.
    destruct (atr_left _ _ _ Htr f t Hin0) as [Ht|[Hf|(t' & Ht' & Hcol)]].
    + destruct (decide (f = fiber)) as [->|Hne].
      { right; left. apply elem_of_app. right. by left. }
      destruct (Qlt_le_dec (colldist * colldist)
                  (dsq (tgt_pos (tgt !!! itgt)) (tgt_pos (tgt !!! t))))
        as [Hfar|Hcol].
      { left. apply Hmem. split; [done|]. split; [done|].
        unfold colliding. by apply Qlt_not_le. }
      right; right. exists itgt. split; [|done].
      apply elem_of_app. right. by left.
    + right; left. apply elem_of_app. by left.
    + right; right. exists t'. split; [|done]. apply elem_of_app. by left.
Qed.


Lemma shrink_length (st st' : assign_state) (f : nat) :
  assign_ok tgt st' →
  (∀ t, t ∈ as_f2t st' !!! f → t ∈ as_f2t st !!! f) →
  length (as_f2t st' !!! f) ≤ length (as_f2t st !!! f).
Proof.
  intros Hok' Hsub. apply submseteq_length, NoDup_submseteq; [|done].
  apply (mok_f2t_nodup _ _ _ (aok_maps _ _ Hok')).
Qed.

(** *** Naive *)

Lemma naive_seq_trace (n : nat) : ∀ (a : nat) (st st' : assign_state),
  assign_ok tgt st → assign_trace tgt (f2t_init tgt raster) st →
  (∀ f, f < a → as_f2t st !!! f = []) →
  (∀ f, f ∈ as_fid st → f < a) → increasing (as_fid st) →
  foldM (naive_step tgt raster) (seq a n) st = Some st' →
  assign_ok tgt st' ∧ assign_trace tgt (f2t_init tgt raster) st'
  ∧ (∀ f, f < a + n → as_f2t st' !!! f = [])
  ∧ increasing (as_fid st').
Proof.
  induction n as [|n IH]; intros a st st' Hok Htr Hdone Hfid Hinc Hrun.
  - simpl in Hrun. injection Hrun as <-.
    split; [done|]. split; [done|]. split; [|done].
    intros f Hf. apply Hdone. lia.
  - cbn [seq foldM] in Hrun.
    destruct (naive_step tgt raster st a) as [st1|] eqn:Hstep; [|done].
    assert (assign_ok tgt st1 ∧ assign_trace tgt (f2t_init tgt raster) st1
            ∧ (∀ f, f < S a → as_f2t st1 !!! f = [])
            ∧ (∀ f, f ∈ as_fid st1 → f < S a)
            ∧ increasing (as_fid st1)) as (Hok1 & Htr1 & Hd1 & Hf1 & Hi1).
    { unfold naive_step in Hstep.
      destruct (is_empty (as_f2t st !!! a)) eqn:E.
      - injection Hstep as <-. apply is_empty_true in E.
        split; [done|]. split; [done|]. split; [|split; [|done]].
        + intros f Hf. destruct (decide (f = a)) as [->|]; [done|].
          apply Hdone. lia.
        + intros f Hf. apply Hfid in Hf. lia.
      - apply is_empty_false in E.
        rewrite maxpri_in_fiber_first in Hstep by done.
        cbn [mbind option_bind] in Hstep.
        destruct (commit_step st a ((as_f2t st !!! a) !!! 0) Hok)
          as (st1' & Hc & Hok1 & Htid & Hfid1 & Hmem & _);
          [by apply lookup_total_0_elem|].
        rewrite Hc in Hstep. injection Hstep as <-.
        split; [done|]. split.
        { eapply commit_trace; [exact Hok | exact Htr | | done..].
          by apply lookup_total_0_elem. }
        split; [|split].
        + intros f Hf. apply nil_no_elem. intros t (Ht & Hne & _)%Hmem.
          assert (f < a) as Hlt by lia.
          rewrite (Hdone f Hlt) in Ht. by apply elem_of_nil in Ht.
        + intros f. rewrite Hfid1.
          intros [Hf| ->%list_elem_of_singleton]%elem_of_app; [|lia].
          apply Hfid in Hf. lia.
        + rewrite Hfid1. by apply increasing_snoc. }
    destruct (IH (S a) st1 st' Hok1 Htr1 Hd1 Hf1 Hi1 Hrun)
      as (H1 & H2 & H3 & H4).
    split; [done|]. split; [done|]. split; [|done].
    intros f Hf. apply H3. lia.
Qed.

(** *** Draining *)

Lemma draining_loop_trace (maxtgt fuel : nat) : ∀ st st',
  assign_ok tgt st → assign_trace tgt (f2t_init tgt raster) st →
  (∀ f, length (as_f2t st !!! f) ≤ maxtgt) →
  draining_loop fuel tgt raster maxtgt st = Some st' →
  assign_ok tgt st' ∧ assign_trace tgt (f2t_init tgt raster) st'
  ∧ ∀ f, as_f2t st' !!! f = [].
Proof.
  induction fuel as [|fuel IH]; intros st st' Hok Htr Hmax Hrun; [done|].
  cbn [draining_loop] in Hrun.
  destruct (min_fiber_fewest (as_f2t st) maxtgt) as [Hnone Hsome].
  destruct (min_fiber (as_f2t st) maxtgt) as [fiber mintgt] eqn:Hmin.
  cbn [fst snd] in Hnone, Hsome.
  destruct (fiber =? -1)%Z eqn:E.
  - apply Z.eqb_eq in E. injection Hrun as <-.
    split; [done|]. split; [done|].
    intros f. destruct (decide (f < length (as_f2t st))) as [Hf|Hf].
    + pose proof (proj1 Hnone E f Hf) as Hn. specialize (Hmax f).
      destruct (as_f2t st !!! f); [done|]. simpl in *. lia.
    + apply lookup_total_ge. lia.
  - apply Z.eqb_neq in E.
    destruct (Hsome E) as (i & -> & _ & Hi & [Hpos _] & _).
    rewrite Nat2Z.id in Hrun.
    assert (as_f2t st !!! i ≠ []) as Hne
      by (intros Hnil; rewrite Hnil in Hpos; simpl in Hpos; lia).
    rewrite maxpri_in_fiber_first in Hrun by done.
    cbn [mbind option_bind] in Hrun.
    destruct (commit_step st i ((as_f2t st !!! i) !!! 0) Hok)
      as (st1 & Hc & Hok1 & Htid & Hfid & Hmem & _);
      [by apply lookup_total_0_elem|].
    rewrite Hc in Hrun. cbn [mbind option_bind] in Hrun.
    apply (IH st1 st'); [done| | |done].
    + eapply commit_trace; [exact Hok | exact Htr | | done..].
      by apply lookup_total_0_elem.
    + intros f. etrans; [|apply (Hmax f)].
      apply shrink_length; [done|]. by intros t [? _]%Hmem.
Qed.

(** *** New *)

Hypothesis tgt_nonempty : 0 < length tgt.

Lemma new_loop_reach (fuel : nat) : ∀ pq st st',
  assign_ok tgt st → assign_trace tgt (f2t_init tgt raster) st →
  pq_wf pq → heap_from pq_entry_lt 1 pq →
  length (pq_nodes pq) = length tgt →
  new_loop fuel tgt raster pq st = Some st' →
  assign_ok tgt st' ∧ assign_trace tgt (f2t_init tgt raster) st'.
Proof.
  induction fuel as [|fuel IH];
    intros pq st st' Hok Htr Hwf Hh Hlen Hrun; [done|].
  cbn [new_loop] in Hrun.
  destruct (top_spec pq_entry_lt pq_entry_lt_sw pq Hwf Hh)
    as (Htop & Htp & _); [lia|].
  rewrite Hlen in Htop. rewrite Htp in Hrun.
  destruct (pe_pri (priority pq (top pq)) =? sentinel)%Z.
  { by injection Hrun as <-. }
  destruct (is_empty (as_t2f st !!! top pq)) eqn:E2.
  - destruct (set_priority_spec pq_entry_lt pq_entry_lt_sw pq
                (mkEntry 0 sentinel) (top pq) Hwf Hh)
      as (Hwf' & Hh' & Hlen' & _); [by rewrite Hlen|].
    apply (IH (set_priority pq_entry_lt pq (mkEntry 0 sentinel) (top pq))
              st st'); try done.
    by rewrite Hlen'.
  - apply is_empty_false in E2.
    pose proof (min_fiber_of_spec (as_f2t st) (as_t2f st !!! top pq) E2)
      as Hifib.
    destruct (min_fiber_of (as_f2t st) (as_t2f st !!! top pq))
      as [ifib mintgt]. simpl in Hifib.
    assert ((as_t2f st !!! top pq) !!! ifib ∈ as_t2f st !!! top pq)
      as Hin by by apply list_elem_of_lookup_total_2.
    apply (mok_inv _ _ _ (aok_maps tgt st Hok)) in Hin.
    destruct (commit_step st _ _ Hok Hin)
      as (st1 & Hc & Hok1 & Htid & Hfid & Hmem & Hsub).
    rewrite Hc in Hrun. cbn [mbind option_bind] in Hrun.
    destruct (fix_priority_spec tgt raster raster_is_ok raster_loc
                (as_t2f st1) (top pq) pq Hwf Hh Hlen)
      as (Hwf' & Hh' & Hlen' & _).
    apply (IH (fix_priority tgt (as_t2f st1) raster (top pq) pq) st1 st');
      try done.
    eapply commit_trace; [exact Hok | exact Htr | exact Hin | done..].
Qed.

Hypothesis pri_below_mark :
  ∀ j, j < length tgt → (tgt_pri (tgt !!! j) < sentinel)%Z.

Lemma calc_pri_vec_pri (t2f : list (list nat)) (j : nat) :
  j < length tgt →
  pe_pri (calc_pri_vec tgt t2f raster !!! j) = tgt_pri (tgt !!! j).
Proof.
  intros Hj. unfold calc_pri_vec.
  match goal with
  | |- context [fold_left ?f (seq 0 (length tgt)) ?v] =>
      assert (length v = length tgt) as Hlen; [|generalize dependent v]
  end.
  { rewrite fold_left_length; [by rewrite length_replicate|].
    intros a i. destruct (0 <? length (t2f !!! i)); [|done].
    apply fold_left_length. intros a' k. unfold calc_pri_ngb, add_prox.
    destruct (i =? k), (i <? k); by rewrite ?length_alter. }
  assert (j ∈ seq 0 (length tgt)) as Hin by (apply elem_of_seq; lia).
  revert Hin. generalize (seq 0 (length tgt)). intros l.
  induction l as [|i l IH] using rev_ind; intros Hin v Hlen.
  - by apply elem_of_nil in Hin.
  - rewrite fold_left_app. cbn [fold_left].
    set (v' := fold_left _ l v).
    assert (length v' = length v) as Hlen'.
    { unfold v'. apply fold_left_length. intros; apply length_alter. }
    destruct (decide (j = i)) as [->|Hne].
    + rewrite list_lookup_total_alter.
      rewrite decide_True by (split; [done | lia]). done.
    + rewrite list_lookup_total_alter_ne by (by intros ->).
      apply IH; [|done].
      apply elem_of_app in Hin as [|Hin%list_elem_of_singleton]; done.
Qed.

Lemma new_loop_trace (fuel : nat) : ∀ pq st st',
  assign_ok tgt st → assign_trace tgt (f2t_init tgt raster) st →
  pq_wf pq → heap_from pq_entry_lt 1 pq →
  length (pq_nodes pq) = length tgt →
  pri_marks tgt pq st →
  (∀ t j, t ∈ as_tid st → j < length tgt →
     (tgt_pri (tgt !!! t) ≤ pe_pri (priority pq j))%Z) →
  pri_sorted tgt (as_tid st) →
  new_loop fuel tgt raster pq st = Some st' →
  assign_ok tgt st' ∧ assign_trace tgt (f2t_init tgt raster) st'
  ∧ pri_sorted tgt (as_tid st')
  ∧ ∀ f, as_f2t st' !!! f = [].
Proof.
  induction fuel as [|fuel IH];
    intros pq st st' Hok Htr Hwf Hh Hlen Hmarks Hlow Hsorted Hrun; [done|].
  cbn [new_loop] in Hrun.
  destruct (top_spec pq_entry_lt pq_entry_lt_sw pq Hwf Hh)
    as (Htop & Htp & Hmax); [lia|].
  rewrite Hlen in Htop, Hmax. rewrite Htp in Hrun.
  assert (∀ j, j < length tgt →
               (pe_pri (priority pq (top pq)) ≤ pe_pri (priority pq j))%Z)
    as Hleast.
  { intros j Hj. specialize (Hmax j Hj).
    apply pq_entry_lt_false in Hmax as [?|[? _]]; lia. }
  destruct (pe_pri (priority pq (top pq)) =? sentinel)%Z eqn:E.
  - apply Z.eqb_eq in E. injection Hrun as <-.
    split; [done|]. split; [done|]. split; [done|].
    intros f. apply nil_no_elem. intros t Ht.
    pose proof (aok_maps tgt st Hok) as Hm.
    apply (mok_inv _ _ _ Hm) in Ht.
    assert (t < length tgt) as Hlt.
    { rewrite <- (mok_t2f_len _ _ _ Hm).
      by eapply elem_of_lookup_total_lt. }
    destruct (Hmarks t Hlt) as [Hp|[_ Hnil]].
    + specialize (Hleast t Hlt). specialize (pri_below_mark t Hlt). lia.
    + rewrite Hnil in Ht. by apply elem_of_nil in Ht.
  - apply Z.eqb_neq in E.
    assert (pe_pri (priority pq (top pq)) = tgt_pri (tgt !!! top pq))
      as Htoppri.
    { destruct (Hmarks (top pq) Htop) as [?|[? _]]; done. }
    destruct (is_empty (as_t2f st !!! top pq)) eqn:E2.
    + apply is_empty_true in E2.
      destruct (set_priority_spec pq_entry_lt pq_entry_lt_sw pq
                  (mkEntry 0 sentinel) (top pq) Hwf Hh)
        as (Hwf' & Hh' & Hlen' & Hpri'); [by rewrite Hlen|].
      apply (IH (set_priority pq_entry_lt pq (mkEntry 0 sentinel) (top pq))
                st st'); try done.
      * by rewrite Hlen'.
      * intros j Hj. rewrite Hpri'.
        destruct (decide (j = top pq)) as [->|]; [by right|].
        by apply Hmarks.
      * intros t j Ht Hj. rewrite Hpri'.
        destruct (decide (j = top pq)) as [->|]; [|by apply Hlow].
        simpl. destruct (aok_tid tgt st Hok t Ht) as [Hlt _].
        specialize (pri_below_mark t Hlt). lia.
    + apply is_empty_false in E2.
      pose proof (min_fiber_of_spec (as_f2t st) (as_t2f st !!! top pq) E2)
        as Hifib.
      destruct (min_fiber_of (as_f2t st) (as_t2f st !!! top pq))
        as [ifib mintgt]. simpl in Hifib.
      assert ((as_t2f st !!! top pq) !!! ifib ∈ as_t2f st !!! top pq)
        as Hin by by apply list_elem_of_lookup_total_2.
      apply (mok_inv _ _ _ (aok_maps tgt st Hok)) in Hin.
      destruct (commit_step st _ _ Hok Hin)
        as (st1 & Hc & Hok1 & Htid & Hfid & Hmem & Hsub).
      rewrite Hc in Hrun. cbn [mbind option_bind] in Hrun.
      destruct (fix_priority_spec tgt raster raster_is_ok raster_loc
                  (as_t2f st1) (top pq) pq Hwf Hh Hlen)
        as (Hwf' & Hh' & Hlen' & Hpri').
      apply (IH (fix_priority tgt (as_t2f st1) raster (top pq) pq) st1 st');
        try done.
      * eapply commit_trace; [exact Hok | exact Htr | exact Hin | done..].
      * intros j Hj. rewrite Hpri'.
        destruct (Hmarks j Hj) as [?|[? Hnil]]; [by left|].
        right. split; [done|]. by apply Hsub.
      * intros t j. rewrite Htid, Hpri'.
        intros [Ht| ->%list_elem_of_singleton]%elem_of_app Hj.
        -- by apply Hlow.
        -- rewrite <- Htoppri. by apply Hleast.
      * rewrite Htid. intros i j t t' Hij Hi Hj.
        assert (i < length (as_tid st)) as Hil.
        { apply lookup_lt_Some in Hj. rewrite length_app in Hj.
          simpl in Hj. lia. }
        rewrite lookup_app_l in Hi by done.
        destruct (decide (j < length (as_tid st))) as [Hjl|Hjl].
        -- rewrite lookup_app_l in Hj by done.
           by apply (Hsorted i j).
        -- rewrite lookup_app_r in Hj by lia.
           apply list_lookup_singleton_Some in Hj as [_ <-].
           rewrite <- Htoppri. apply Hlow; [|done].
           by eapply list_elem_of_lookup_2.
Qed.
End traces.

Lemma all_empty_lists (l : list (list nat)) (n : nat) :
  length l = n → (∀ f, f < n → l !!! f = []) → ∀ f, l !!! f = [].
Proof.
  intros Hlen Hlt f. destruct (decide (f < n)); [by apply Hlt|].
  apply lookup_total_ge. lia.
Qed.

(** The run of each strategy on a non-empty target list: the raster, and
    the state at the end of [assign]. *)
Lemma naive_run (tgt : list Target) :
  tgt ≠ [] →
  ∃ raster st',
    tgt2raster tgt 100 100 = Some raster
    ∧ raster_ok raster ∧ fr_loc raster = tgt_pos <$> tgt
    ∧ NaiveAssigner_assign tgt = Some (as_tid st', as_fid st')
    ∧ assign_ok tgt st'
    ∧ assign_trace tgt (f2t_init tgt raster) st'
    ∧ (∀ f, as_f2t st' !!! f = [])
    ∧ increasing (as_fid st').
Proof.
  intros Hne.
  destruct (tgt2raster_ok tgt 100 100 Hne) as (raster & Hr & Hok & Hloc);
    [lia | lia |].
  pose proof (assign_init_ok tgt raster Hok Hloc) as Hinit.
  pose proof (mok_f2t_len _ _ _ (aok_maps _ _ Hinit)) as Hlen.
  destruct (naive_fold_ok tgt raster Hok Hloc
              (seq 0 (length (as_f2t (assign_init tgt raster))))
              (assign_init tgt raster) Hinit) as (st' & Hf & Hok').
  destruct (assign_init_out tgt raster) as [Htid0 Hfid0].
  destruct (naive_seq_trace tgt raster Hok Hloc
              (length (as_f2t (assign_init tgt raster))) 0
              (assign_init tgt raster) st' Hinit
              (assign_init_trace tgt raster))
    as (_ & Htr & Hnil & Hinc).
  { intros f Hf0. lia. }
  { intros f. rewrite Hfid0. by intros ?%elem_of_nil. }
  { rewrite Hfid0. apply increasing_nil. }
  { exact Hf. }
  exists raster, st'.
  split; [exact Hr|]. split; [exact Hok|]. split; [exact Hloc|].
  split.
  { unfold NaiveAssigner_assign.
    apply bind_Some. exists raster. split; [exact Hr|].
    apply bind_Some. exists st'. split; [exact Hf | reflexivity]. }
  split; [exact Hok'|]. split; [exact Htr|]. split; [|exact Hinc].
  apply (all_empty_lists _ nfiber).
  - apply (mok_f2t_len _ _ _ (aok_maps _ _ Hok')).
  - intros f Hlt. apply Hnil. rewrite Hlen. lia.
Qed.

Lemma draining_run (tgt : list Target) :
  tgt ≠ [] →
  ∃ raster st',
    tgt2raster tgt 100 100 = Some raster
    ∧ raster_ok raster ∧ fr_loc raster = tgt_pos <$> tgt
    ∧ DrainingAssigner_assign tgt = Some (as_tid st', as_fid st')
    ∧ assign_ok tgt st'
    ∧ assign_trace tgt (f2t_init tgt raster) st'
    ∧ (∀ f, as_f2t st' !!! f = []).
Proof.
  intros Hne.
  destruct (tgt2raster_ok tgt 100 100 Hne) as (raster & Hr & Hok & Hloc);
    [lia | lia |].
  pose proof (assign_init_ok tgt raster Hok Hloc) as Hinit.
  assert (∀ f, as_f2t (assign_init tgt raster) !!! f ≠ [] →
               f ∈ seq 0 nfiber) as Hcov.
  { intros f Hf. apply elem_of_seq.
    rewrite <- (mok_f2t_len _ _ _ (aok_maps _ _ Hinit)).
    destruct (decide (f < length (as_f2t (assign_init tgt raster))));
      [lia|].
    exfalso. apply Hf. apply lookup_total_ge. lia. }
  assert (length (seq 0 nfiber) < nfiber + 1) as Hfuel
    by (rewrite length_seq; lia).
  destruct (draining_loop_ok tgt raster Hok Hloc
              (fold_left (λ m f, Nat.max m (length f))
                         (as_f2t (assign_init tgt raster)) 0)
              (nfiber + 1) (assign_init tgt raster) (seq 0 nfiber) Hinit
              (NoDup_seq _ _) Hcov Hfuel) as (st' & Hd & Hok').
  destruct (draining_loop_trace tgt raster Hok Hloc
              (fold_left (λ m f, Nat.max m (length f))
                         (as_f2t (assign_init tgt raster)) 0)
              (nfiber + 1) (assign_init tgt raster) st' Hinit
              (assign_init_trace tgt raster)
              (λ f, proj1 (max_length_bound _ 0 f)) Hd)
    as (_ & Htr & Hnil).
  exists raster, st'.
  split; [exact Hr|]. split; [exact Hok|]. split; [exact Hloc|].
  split; [|split; [exact Hok'|split; [exact Htr|exact Hnil]]].
  unfold DrainingAssigner_assign.
  apply bind_Some. exists raster. split; [exact Hr|].
  apply bind_Some. exists st'. split; [exact Hd | reflexivity].
Qed.

Lemma new_run (tgt : list Target) :
  tgt ≠ [] →
  ∃ raster st',
    tgt2raster tgt 100 100 = Some raster
    ∧ raster_ok raster ∧ fr_loc raster = tgt_pos <$> tgt
    ∧ NewAssigner_assign tgt = Some (as_tid st', as_fid st')
    ∧ assign_ok tgt st'
    ∧ assign_trace tgt (f2t_init tgt raster) st'
    ∧ ((∀ j, j < length tgt → (tgt_pri (tgt !!! j) < sentinel)%Z) →
       pri_sorted tgt (as_tid st') ∧ ∀ f, as_f2t st' !!! f = []).
Proof.
  intros Hne.
  destruct (tgt2raster_ok tgt 100 100 Hne) as (raster & Hr & Hok & Hloc);
    [lia | lia |].
  pose proof (assign_init_ok tgt raster Hok Hloc) as Hinit.
  assert (0 < length tgt) as Hpos by (destruct tgt; [done|simpl; lia]).
  destruct (pqueue_new_spec pq_entry_lt pq_entry_lt_sw
              (calc_pri_vec tgt (as_t2f (assign_init tgt raster)) raster))
    as (Hwf & Hh & Hlen & Hpri).
  rewrite calc_pri_vec_length in Hlen, Hpri by done.
  assert (∀ t, as_t2f (assign_init tgt raster) !!! t ≠ [] →
               t ∈ seq 0 (length tgt)) as Hcov.
  { intros t Ht. apply elem_of_seq.
    rewrite <- (mok_t2f_len _ _ _ (aok_maps _ _ Hinit)).
    destruct (decide (t < length (as_t2f (assign_init tgt raster))));
      [lia|].
    exfalso. apply Ht. apply lookup_total_ge. lia. }
  destruct (new_loop_ok tgt raster Hok Hloc Hpos (2 * length tgt + 1)
              (calc_pri tgt (as_t2f (assign_init tgt raster)) raster)
              (assign_init tgt raster) (seq 0 (length tgt))
              (seq 0 (length tgt)) Hinit Hwf Hh Hlen
              (NoDup_seq _ _) (NoDup_seq _ _))
    as (st' & Hd & Hok').
  { intros j Hj _. apply elem_of_seq. lia. }
  { exact Hcov. }
  { rewrite !length_seq. lia. }
  destruct (new_loop_reach tgt raster Hok Hloc Hpos (2 * length tgt + 1)
              (calc_pri tgt (as_t2f (assign_init tgt raster)) raster)
              (assign_init tgt raster) st' Hinit
              (assign_init_trace tgt raster) Hwf Hh Hlen Hd) as [_ Htr].
  destruct (assign_init_out tgt raster) as [Htid0 Hfid0].
  exists raster, st'.
  split; [exact Hr|]. split; [exact Hok|]. split; [exact Hloc|].
  split.
  { unfold NewAssigner_assign.
    apply bind_Some. exists raster. split; [exact Hr|].
    apply bind_Some. exists st'. split; [exact Hd | reflexivity]. }
  split; [exact Hok'|]. split; [exact Htr|].
  intros Hbound.
  destruct (new_loop_trace tgt raster Hok Hloc Hpos Hbound
              (2 * length tgt + 1)
              (calc_pri tgt (as_t2f (assign_init tgt raster)) raster)
              (assign_init tgt raster) st' Hinit
              (assign_init_trace tgt raster) Hwf Hh Hlen)
    as (_ & _ & Hsorted & Hnil);
    [| | |exact Hd|split; [exact Hsorted|exact Hnil]].
  - intros j Hj. left. unfold calc_pri. rewrite Hpri by done.
    by apply calc_pri_vec_pri.
  - intros t j. rewrite Htid0. by intros ?%elem_of_nil.
  - intros i j t t' _. rewrite Htid0. by rewrite lookup_nil.
Qed.

Lemma f2t_init_reaches (tgt : list Target) (raster : fpraster) (f t : nat) :
  raster_ok raster → fr_loc raster = tgt_pos <$> tgt →
  t ∈ f2t_init tgt raster !!! f ↔
  f < nfiber ∧ t < length tgt ∧ reaches tgt f t.
Proof.
  intros Hok Hloc. unfold f2t_init, reaches.
  pose proof (calcMappings_ok tgt raster Hok Hloc) as Hm.
  split.
  - intros Hin.
    assert (f < nfiber) as Hf.
    { rewrite <- (mok_f2t_len _ _ _ Hm). by eapply elem_of_lookup_total_lt. }
    rewrite calcMappings_f2t in Hin by done.
    apply elem_of_reachable_targets in Hin; done.
  - intros (Hf & Ht & Hr). rewrite calcMappings_f2t by done.
    by apply elem_of_reachable_targets.
Qed.

(** The run of any of the three strategies. *)
Lemma assign_run (a : assigner) (tgt : list Target) :
  tgt ≠ [] →
  ∃ raster st',
    raster_ok raster ∧ fr_loc raster = tgt_pos <$> tgt
    ∧ assign a tgt = Some (as_tid st', as_fid st')
    ∧ assign_ok tgt st'
    ∧ assign_trace tgt (f2t_init tgt raster) st'
    ∧ ((a = New → ∀ j, j < length tgt →
          (tgt_pri (tgt !!! j) < sentinel)%Z) →
       ∀ f, as_f2t st' !!! f = []).
Proof.
  intros Hne. destruct a; simpl.
  - destruct (naive_run tgt Hne)
      as (raster & st' & _ & Hok & Hloc & Hrun & Hok' & Htr & Hnil & _).
    by exists raster, st'.
  - destruct (draining_run tgt Hne)
      as (raster & st' & _ & Hok & Hloc & Hrun & Hok' & Htr & Hnil).
    by exists raster, st'.
  - destruct (new_run tgt Hne)
      as (raster & st' & _ & Hok & Hloc & Hrun & Hok' & Htr & Hnil).
    exists raster, st'. split; [done|]. split; [done|]. split; [done|].
    split; [done|]. split; [done|]. intros Hb. by apply Hnil, Hb.
Qed.

(** Every pair that a strategy commits is one the fiber reaches: target
    [tid[i]] is within the patrol radius [RMAX] of fiber [fid[i]] and at
    least [DOTDIST] away from the dot of that fiber. *)
Theorem assign_within_reach (a : assigner) (tgt : list Target) :
  match assign a tgt with
  | Some (tid, fid) =>
      ∀ i t f, tid !! i = Some t → fid !! i = Some f → reaches tgt f t
  | None => tgt = []
  end.
Proof.
  destruct (decide (tgt = [])) as [->|Hne]; [by destruct a|].
  destruct (assign_run a tgt Hne)
    as (raster & st' & Hok & Hloc & -> & Hok' & Htr & _).
  intros i t f Hi Hf.
  pose proof (atr_pairs _ _ _ Htr i t f Hi Hf) as Hin.
  by apply f2t_init_reaches in Hin as (_ & _ & Hin).
Qed.



(** The Naive strategy serves the fibers in the order of their numbers:
    its vector [fid] is strictly increasing. *)
Theorem naive_fibers_ascending (tgt : list Target) :
  match NaiveAssigner_assign tgt with
  | Some (tid, fid) => increasing fid
  | None => tgt = []
  end.
Proof.
  destruct (decide (tgt = [])) as [->|Hne]; [done|].
  destruct (naive_run tgt Hne)
    as (raster & st' & _ & _ & _ & -> & _ & _ & _ & Hinc).
  exact Hinc.
Qed.



(** ** The density priorities of the New strategy *)

Section density.
Variables (tgt : list Target) (raster : fpraster).
Hypothesis raster_is_ok : raster_ok raster.
Hypothesis raster_loc : fr_loc raster = tgt_pos <$> tgt.

Lemma kernelfunc_nonneg (rsq : Q) : (0 <= kernelfunc rsq)%Q.
Proof. unfold kernelfunc. apply Q.le_max_l. Qed.

Lemma add_prox_nonneg (pri : list pq_entry) (i : nat) (d : Q) :
  (0 <= d)%Q → Forall (λ e, 0 <= pe_prox e)%Q pri →
  Forall (λ e, 0 <= pe_prox e)%Q (add_prox pri i d).
Proof.
  intros Hd Hall. unfold add_prox. apply Forall_alter; [done|].
  intros e _ He. simpl. lra.
Qed.

Lemma calc_pri_vec_nonneg (t2f : list (list nat)) :
  (∀ t, t ∈ tgt → (0 <= tgt_time t)%Q) →
  Forall (λ e, 0 <= pe_prox e)%Q (calc_pri_vec tgt t2f raster).
Proof.
  intros Htime.
  assert (∀ i, 0 <= tgt_time (tgt !!! i))%Q as Ht.
  { intros i. destruct (decide (i < length tgt)) as [Hi|Hi].
    - by apply Htime, list_elem_of_lookup_total_2.
    - rewrite list_lookup_total_alt, lookup_ge_None_2 by lia. done. }
  assert (∀ i j rsq,
            0 <= tgt_time (tgt !!! i) * tgt_time (tgt !!! j)
                 * kernelfunc rsq)%Q as Hprod.
  { intros i j rsq.
    apply Qmult_le_0_compat; [|apply kernelfunc_nonneg].
    apply Qmult_le_0_compat; apply Ht. }
  unfold calc_pri_vec.
  match goal with
  | |- Forall ?P (fold_left ?f ?l (fold_left ?g ?l2 ?v0)) =>
      assert (Forall P (fold_left g l2 v0)) as H1
  end.
  { match goal with
    | |- Forall ?P (fold_left ?g ?l2 ?v0) =>
        assert (Forall P v0) as H0
          by (apply Forall_replicate; done);
        revert H0; generalize v0; generalize l2
    end.
    intros l. induction l as [|i l IH]; intros v Hv; [done|].
    cbn [fold_left]. apply IH.
    destruct (0 <? length (t2f !!! i)); [|done].
    revert Hv. generalize v.
    generalize (query raster (tgt_pos (tgt !!! i)) r_kernel).
    intros ngb. induction ngb as [|j ngb IHn]; intros w Hw; [done|].
    cbn [fold_left]. apply IHn. unfold calc_pri_ngb.
    destruct (i =? j), (i <? j);
      repeat (apply add_prox_nonneg; [apply Hprod|]); done. }
  revert H1.
  match goal with
  | |- Forall ?P ?v1 → Forall ?P (fold_left ?f ?l ?v1) =>
      generalize v1; generalize l
  end.
  intros l. induction l as [|i l IH]; intros v Hv; [done|].
  cbn [fold_left]. apply IH. apply Forall_alter; [done|].
  intros e _ He. done.
Qed.

End density.

(** The queue that [calc_pri] builds holds one entry for every target,
    with the [pri] of the target; and when no target has a negative
    [time], no entry has a negative [prox]. *)
Theorem calc_pri_entries (tgt : list Target) :
  tgt ≠ [] →
  ∃ raster, tgt2raster tgt 100 100 = Some raster ∧
    ∀ t2f,
      length (pq_nodes (calc_pri tgt t2f raster)) = length tgt
      ∧ ∀ j, j < length tgt →
          pe_pri (priority (calc_pri tgt t2f raster) j)
          = tgt_pri (tgt !!! j)
          ∧ ((∀ t, t ∈ tgt → (0 <= tgt_time t)%Q) →
             (0 <= pe_prox (priority (calc_pri tgt t2f raster) j))%Q).
Proof.
  intros Hne.
  destruct (tgt2raster_ok tgt 100 100 Hne) as (raster & Hr & Hok & Hloc);
    [lia | lia |].
  exists raster. split; [exact Hr|]. intros t2f.
  destruct (pqueue_new_spec pq_entry_lt pq_entry_lt_sw
              (calc_pri_vec tgt t2f raster)) as (_ & _ & Hlen & Hpri).
  rewrite calc_pri_vec_length in Hlen, Hpri.
  split; [exact Hlen|]. intros j Hj. unfold calc_pri.
  rewrite Hpri by done. split.
  - apply calc_pri_vec_pri; lia.
  - intros Htime.
    pose proof (calc_pri_vec_nonneg tgt raster t2f Htime) as Hall.
    rewrite Forall_forall in Hall. apply Hall.
    apply list_elem_of_lookup_total_2. by rewrite calc_pri_vec_length.
Qed.

Lemma calc_pri_entries_witness :
  [mkTarget (Vec2 (-20) (-100)) 10 1 7] ≠ [] ∧
  ∃ raster,
    tgt2raster [mkTarget (Vec2 (-20) (-100)) 10 1 7] 100 100 = Some raster ∧
    ∀ t2f,
      length (pq_nodes (calc_pri [mkTarget (Vec2 (-20) (-100)) 10 1 7]
                          t2f raster))
      = length [mkTarget (Vec2 (-20) (-100)) 10 1 7]
      ∧ ∀ j, j < length [mkTarget (Vec2 (-20) (-100)) 10 1 7] →
          pe_pri (priority (calc_pri [mkTarget (Vec2 (-20) (-100)) 10 1 7]
                              t2f raster) j)
          = tgt_pri ([mkTarget (Vec2 (-20) (-100)) 10 1 7] !!! j)
          ∧ ((∀ t, t ∈ [mkTarget (Vec2 (-20) (-100)) 10 1 7] →
                   (0 <= tgt_time t)%Q) →
             (0 <= pe_prox
                     (priority (calc_pri [mkTarget (Vec2 (-20) (-100)) 10 1 7]
                                  t2f raster) j))%Q).
Proof.
  split; [discriminate|].
  apply (calc_pri_entries [mkTarget (Vec2 (-20) (-100)) 10 1 7]).
  discriminate.
Defined.



(** ** Exposures and the driver *)


Lemma lookup_all (tgt : list Target) :
  (λ i, tgt !!! i) <$> seq 0 (length tgt) = tgt.
Proof.
  apply list_eq. intros i. rewrite list_lookup_fmap.
  destruct (decide (i < length tgt)) as [Hi|Hi].
  - rewrite lookup_seq_lt by done. simpl.
    destruct (lookup_lt_is_Some_2 tgt i Hi) as [t Ht].
    by rewrite Ht, (list_lookup_total_correct _ _ _ Ht).
  - rewrite lookup_seq_ge by lia. simpl.
    symmetry. apply lookup_ge_None. lia.
Qed.

Lemma filter_drops (P : nat → Prop) `{!∀ i, Decision (P i)} (l : list nat)
    (x : nat) :
  NoDup l → x ∈ l → ¬ P x → length (filter P l) < length l.
Proof.
  intros Hnd Hin Hx.
  pose proof (filter_ne_length l x Hnd Hin) as Hlen.
  assert (length (filter P l) ≤ length (filter (λ y, y ≠ x) l)); [|lia].
  apply submseteq_length, NoDup_submseteq; [by apply NoDup_filter|].
  intros y [Hy Hyl]%list_elem_of_filter. apply list_elem_of_filter.
  split; [|done]. by intros ->.
Qed.

Lemma filter_all (P : nat → Prop) `{!∀ i, Decision (P i)} (l : list nat) :
  (∀ x, x ∈ l → P x) → filter P l = l.
Proof.
  induction l as [|x l IH]; intros Hall; [done|].
  rewrite filter_cons_True by (apply Hall; by left).
  f_equal. apply IH. intros y Hy. apply Hall. by right.
Qed.

(** [strip] never lengthens the target vector, it leaves it as it is when
    no target was observed, and it drops at least one target as soon as
    one observed target has no more than [time + 1e-7] left. *)
Theorem strip_shrinks (tgt : list Target) (remove : list nat) (time : Q) :
  length (strip tgt remove time) ≤ length tgt
  ∧ strip tgt [] time = tgt
  ∧ ∀ i, i ∈ remove → i < length tgt →
      (tgt_time (tgt !!! i) <= time + 1e-7)%Q →
      length (strip tgt remove time) < length tgt.
Proof.
  split; [|split].
  - rewrite strip_eq, length_fmap.
    etrans; [apply length_filter|]. by rewrite length_seq.
  - rewrite strip_eq.
    rewrite filter_all.
    + rewrite <- (lookup_all tgt) at 3. apply list_fmap_ext.
      intros _ i _. unfold updated.
      by rewrite bool_decide_eq_false_2 by apply not_elem_of_nil.
    + intros i _. unfold survives.
      by rewrite bool_decide_eq_false_2 by apply not_elem_of_nil.
  - intros i Hi Hlt Htime. rewrite strip_eq, length_fmap.
    pose proof (filter_drops (λ i, survives tgt remove time i)
                  (seq 0 (length tgt)) i (NoDup_seq _ _)) as Hdrop.
    rewrite length_seq in Hdrop. apply Hdrop.
    + apply elem_of_seq. lia.
    + unfold survives. rewrite bool_decide_eq_true_2 by done.
      cbn [negb orb]. rewrite Is_true_true, Qlt_bool_iff.
      by apply Qle_not_lt.
Qed.

(** *** One exposure *)


Section one_exposure.
Variables (cos sin : Q → Q) (atan2 : Q → Q → Q).
Variables (degr2rad rad2degr : Q).
Variable vec3_of_pointing : pointing → vec3.
Variable Norm : vec3 → vec3.

Lemma targetToPFI_length (tgt : list Target) (center : pointing)
    (posang elevation : Q) :
  length (targetToPFI cos sin atan2 degr2rad rad2degr vec3_of_pointing
            Norm tgt center posang elevation) = length tgt.
Proof. unfold targetToPFI. by rewrite length_fmap. Qed.


End one_exposure.


(** *** The exposure optimizer *)



Section optimizer.
Variables (cos sin : Q → Q) (atan2 : Q → Q → Q).
Variables (degr2rad rad2degr : Q).
Variable vec3_of_pointing : pointing → vec3.
Variable pointing_of_vec3 : vec3 → pointing.
Variable Norm : vec3 → vec3.
Variable ass : list Target → option (list nat * list nat).

End optimizer.



(** *** The driver *)

Section driver.
Variables (cos sin : Q → Q) (atan2 : Q → Q → Q).
Variables (degr2rad rad2degr : Q).
Variable vec3_of_pointing : pointing → vec3.
Variable pointing_of_vec3 : vec3 → pointing.
Variable Norm : vec3 → vec3.
Variable a : assigner.


End driver.



(** The block of [process] before the driver keeps, in their order and
    with the coordinates they were read with, exactly the targets whose
    projection at the nominal pointing is less than 190 mm from the
    centre of the plate. *)
Theorem on_plate_selection
    (cos sin : Q → Q) (atan2 : Q → Q → Q) (degr2rad rad2degr : Q)
    (vec3_of_pointing : pointing → vec3) (Norm : vec3 → vec3)
    (tgt : list Target) (center : pointing) (posang : Q) :
  ∃ ks,
    increasing ks
    ∧ on_plate cos sin atan2 degr2rad rad2degr vec3_of_pointing Norm tgt
               center posang
      = (λ i, tgt !!! i) <$> ks
    ∧ ∀ i, i ∈ ks ↔
        i < length tgt
        ∧ (dsq (tgt_pos (targetToPFI cos sin atan2 degr2rad rad2degr
                           vec3_of_pointing Norm tgt center posang 0
                         !!! i))
               (Vec2 0 0)
           < 190 * 190)%Q.
Proof.
  unfold on_plate. cbv zeta. eexists. split; [|split; [reflexivity|]].
  - apply filter_seq_increasing.
  - intros i. rewrite list_elem_of_filter, elem_of_seq, targetToPFI_length.
    rewrite Is_true_true, Qlt_bool_iff. split; [intros [? ?]|intros [? ?]].
    + split; [lia|done].
    + split; [done|lia].
Qed.



(** ** The calendar helpers *)

Lemma Qtrunc_comp (q q' : Q) : (q == q')%Q → Qtrunc q = Qtrunc q'.
Proof.
  destruct q as [a b], q' as [c d]. unfold Qeq, Qtrunc. simpl. intros H.
  rewrite <- (Z.quot_mul_cancel_r a (Z.pos b) (Z.pos d)) by lia.
  rewrite <- (Z.quot_mul_cancel_r c (Z.pos d) (Z.pos b)) by lia.
  rewrite H. f_equal. lia.
Qed.

Lemma Qtrunc_eq (q : Q) (n : Z) (d : positive) :
  (q == n # d)%Q → Qtrunc q = (n ÷ Z.pos d)%Z.
Proof. intros H. by rewrite (Qtrunc_comp _ _ H). Qed.

Lemma Qtrunc_inject (q : Q) (n : Z) : (q == inject_Z n)%Q → Qtrunc q = n.
Proof.
  intros H. rewrite (Qtrunc_comp _ _ H). unfold Qtrunc. simpl.
  apply Z.quot_1_r.
Qed.

(** The two truncations of [greg2julian]. *)
Lemma greg2julian_e (k : Z) :
  Qtrunc (365.25 * inject_Z k) = ((36525 * k) ÷ 100)%Z.
Proof. apply Qtrunc_eq. unfold Qeq. simpl. lia. Qed.

Lemma greg2julian_f (k : Z) :
  Qtrunc (30.6001 * inject_Z k) = ((306001 * k) ÷ 10000)%Z.
Proof. apply Qtrunc_eq. unfold Qeq. simpl. lia. Qed.

(** [greg2julian] as a count of days, for January and February and for
    the other months. *)
Lemma greg2julian_early (y m d : Z) :
  (m ≤ 2)%Z →
  greg2julian y m d
  = (inject_Z (2 - (y - 1) ÷ 100 + ((y - 1) ÷ 100) ÷ 4 + d
               + (36525 * (y - 1 + 4716)) ÷ 100
               + (306001 * (m + 12 + 1)) ÷ 10000)%Z - 1524.5)%Q.
Proof.
  intros Hm. unfold greg2julian.
  rewrite (proj2 (Z.leb_le m 2) Hm). cbv zeta.
  by rewrite greg2julian_e, greg2julian_f.
Qed.



Lemma leap_year_spec (y : Z) :
  leap_year y = true ↔
  (y mod 4 = 0 ∧ (y mod 100 ≠ 0 ∨ y mod 400 = 0))%Z.
Proof.
  unfold leap_year.
  rewrite andb_true_iff, orb_true_iff, negb_true_iff, !Z.eqb_eq, Z.eqb_neq.
  done.
Qed.



Lemma quarter_days (k : Z) :
  (0 ≤ k)%Z → ((36525 * k) ÷ 100 = 365 * k + k ÷ 4)%Z.
Proof. intros H. lia. Qed.





(** [julian2greg] at the number of a day, in integer arithmetic. *)
Lemma julian2greg_days (n : Z) :
  julian2greg (inject_Z n - 1524.5)
  = (let z := n - 1524 in
     let w := (100 * z - 186721625) ÷ 3652425 in
     let x := w ÷ 4 in
     let b := z + 1 + w - x + 1524 in
     let c := (100 * b - 12210) ÷ 36525 in
     let d := (36525 * c) ÷ 100 in
     let e := (10000 * (b - d)) ÷ 306001 in
     let f := (306001 * e) ÷ 10000 in
     if 12 <? e - 1 then None
     else Some (if e - 1 <=? 2 then c - 4716 + 1 else c - 4716,
                e - 1, b - d - f))%Z.
Proof.
  unfold julian2greg. cbv zeta.
  assert (Qtrunc (inject_Z n - 1524.5 + 0.5) = (n - 1524)%Z) as ->.
  { apply Qtrunc_inject. unfold Qeq. simpl. lia. }
  set (z := (n - 1524)%Z).
  assert (Qtrunc ((inject_Z z - 1867216.25) / 36524.25)
          = ((100 * z - 186721625) ÷ 3652425)%Z) as ->.
  { apply Qtrunc_eq. unfold Qeq. simpl. lia. }
  set (w := ((100 * z - 186721625) ÷ 3652425)%Z).
  set (b := (z + 1 + w - w ÷ 4 + 1524)%Z).
  assert (Qtrunc ((inject_Z b - 122.1) / 365.25)
          = ((100 * b - 12210) ÷ 36525)%Z) as ->.
  { apply Qtrunc_eq. unfold Qeq. simpl. lia. }
  set (c := ((100 * b - 12210) ÷ 36525)%Z).
  rewrite greg2julian_e. set (d := ((36525 * c) ÷ 100)%Z).
  assert (Qtrunc (inject_Z (b - d) / 30.6001)
          = ((10000 * (b - d)) ÷ 306001)%Z) as ->.
  { apply Qtrunc_eq. unfold Qeq. simpl. lia. }
  set (e := ((10000 * (b - d)) ÷ 306001)%Z).
  rewrite greg2julian_f. set (f := ((306001 * e) ÷ 10000)%Z).
  assert (Qtrunc (inject_Z (b - d - f)
                  + (inject_Z n - 1524.5 + 0.5 - inject_Z z))
          = (b - d - f)%Z) as ->.
  { apply Qtrunc_inject. unfold z, Qeq. simpl. lia. }
  destruct (12 <? e - 1)%Z; [done|]. by destruct (e - 1 <=? 2)%Z.
Qed.






Lemma julian_winter (y d f : Z) :
  (401 ≤ y)%Z →
  (f = 428 ∧ 1 ≤ d ≤ 31)%Z
  ∨ (f = 459 ∧ 1 ≤ d ≤ if leap_year y then 29 else 28)%Z →
  ((100 * (2 - (y - 1) ÷ 100 + ((y - 1) ÷ 100) ÷ 4 + d
           + (36525 * (y - 1 + 4716)) ÷ 100 + f - 1524) - 186721625)
   ÷ 3652425
   = (y - 1) ÷ 100 - 4)%Z
  ∧ ((100 * (d + (36525 * (y - 1 + 4716)) ÷ 100 + f) - 12210) ÷ 36525
     = y - 1 + 4716)%Z
  ∧ (14 ≤ (10000 * (d + f)) ÷ 306001)%Z.
Proof.
  intros Hy Hd. rewrite !quarter_days by lia.
  destruct Hd as [[-> Hd]|[-> Hd]].
  - split; [lia|]. split; lia.
  - destruct (leap_year y) eqn:Hleap.
    + apply leap_year_spec in Hleap as [H4 H100].
      split; [lia|]. split; lia.
    + split; [lia|]. split; lia.
Qed.

(** On the number of any day in January or February, from year 401 on,
    [julian2greg] finds a month number above 12 and takes the statement
    [month-=12], which moves the pointer instead of the month: its result
    is undefined. *)
Theorem julian2greg_winter_undefined (y m d : Z) :
  (401 ≤ y)%Z → (1 ≤ m ≤ 2)%Z → (1 ≤ d ≤ days_in_month y m)%Z →
  julian2greg (greg2julian y m d) = None.
Proof.
  intros Hy Hm Hd.
  assert ((m = 1 ∧ (306001 * (m + 12 + 1)) ÷ 10000 = 428 ∧ 1 ≤ d ≤ 31)%Z
          ∨ (m = 2 ∧ (306001 * (m + 12 + 1)) ÷ 10000 = 459
             ∧ 1 ≤ d ≤ if leap_year y then 29 else 28)%Z) as Hcases.
  { destruct (decide (m = 1)%Z) as [->|]; [left|right].
    - split; [done|]. split; [done|]. exact Hd.
    - assert (m = 2)%Z as -> by lia.
      split; [done|]. split; [done|]. exact Hd. }
  rewrite greg2julian_early by lia. rewrite julian2greg_days. cbv zeta.
  set (f := ((306001 * (m + 12 + 1)) ÷ 10000)%Z) in *.
  destruct (julian_winter y d f Hy) as (Hw & Hc & He).
  { destruct Hcases as [(_ & -> & ?)|(_ & -> & ?)]; [by left | by right]. }
  rewrite Hw.
  set (A := ((y - 1) ÷ 100)%Z) in *.
  set (e0 := ((36525 * (y - 1 + 4716)) ÷ 100)%Z) in *.
  assert (4 ≤ A)%Z as HA by (unfold A; lia).
  assert ((A - 4) ÷ 4 = A ÷ 4 - 1)%Z as -> by (clear -HA; lia).
  replace (2 - A + A ÷ 4 + d + e0 + f - 1524 + 1 + (A - 4) - (A ÷ 4 - 1)
           + 1524)%Z with (d + e0 + f)%Z by ring.
  rewrite Hc. fold e0.
  replace (d + e0 + f - e0)%Z with (d + f)%Z by ring.
  by rewrite (proj2 (Z.ltb_lt 12 _)) by lia.
Qed.

Lemma julian2greg_winter_undefined_witness :
  (401 ≤ 2000)%Z ∧ (1 ≤ 1 ≤ 2)%Z ∧ (1 ≤ 1 ≤ days_in_month 2000 1)%Z ∧
  julian2greg (greg2julian 2000 1 1) = None.
Proof.
  assert (1 ≤ 1 ≤ days_in_month 2000 1)%Z as H by (vm_compute; done).
  split; [lia|]. split; [lia|]. split; [exact H|].
  apply (julian2greg_winter_undefined 2000 1 1); [lia | lia | exact H].
Defined.

(** [poly] evaluates the polynomial with the coefficients [c], lowest
    degree first: its value is that of Horner's rule, and a further
    coefficient [k] adds [k * x^n] for the degree [n] it gets. *)
Lemma poly_fold (x : Q) (c : list Q) : ∀ res v : Q,
  ((fold_left (λ '(res, v) ci, (res + ci * v, v * x)) c (res, v)).1
   == res + v * horner x c)%Q.
Proof.
  induction c as [|ci c IH]; intros res v; cbn [fold_left horner foldr].
  - simpl. ring.
  - rewrite IH. fold (horner x c). ring.
Qed.

Theorem poly_horner (x : Q) (c : list Q) :
  (poly x c == horner x c)%Q
  ∧ ∀ k, (poly x (c ++ [k]) == poly x c + k * x ^ Z.of_nat (length c))%Q.
Proof.
  assert (∀ l, poly x l == horner x l)%Q as Hp.
  { intros l. unfold poly. rewrite poly_fold. ring. }
  split; [apply Hp|]. intros k. rewrite !Hp.
  induction c as [|ci c IH]; cbn [app horner foldr length].
  - simpl. ring.
  - fold (horner x (c ++ [k])). fold (horner x c). rewrite IH.
    rewrite Nat2Z.inj_succ, <- Z.add_1_l.
    rewrite Qpower_plus' by lia. simpl (x ^ 1)%Q. ring.
Qed.
